(** * EnginEdge control center: deployment orchestration core

    A shallow embedding of [platform/control-center/control-center.py]:
    the service-group catalog, the group resolver, the deploy/destroy
    script synthesizer, image extraction from manifests and the readiness
    monitor, followed by the properties established about them.

    Conventions.
    - Python [str] is [string]: a sequence of characters whose code
      points lie below 256, one character per code point. White space
      and letter case are those of Python on that range; comparison is
      by code point, which is [String.le].
    - A Python [dict] whose iteration order or length is observed is an
      association list; dictionaries that are only looked up and updated
      are [gmap string _].
    - A file written through successive [f.write(...)] calls is the list
      of the written chunks, in order; its content is their concatenation.
    - A function that may return early or raise returns an explicit
      outcome.
    - What a script generator asks of its environment (printing to the
      console, writing a file, changing its mode) is an explicit effect
      that the environment performs or refuses; a refused effect is the
      exception raised by the call. For the other functions the console
      messages are left out: their definitions give the values computed
      and the commands run when the messages are printed. *)

From Stdlib Require Import ZArith QArith Lqa Ascii String DecimalString.
From stdpp Require Import base list strings sorting gmap.

Local Close Scope Q_scope.
Local Open Scope Z_scope.

(** ** Python string primitives *)

Module Py.

(** The line feed written as [\n] in the source, and the backslash. *)
Definition LF : string := String "010"%char "".
Definition BACKSLASH : string := String "092"%char "".

(** [s.startswith(p)] *)
Fixpoint startswith (p s : string) : bool :=
  match p with
  | "" => true
  | String a p' =>
      match s with
      | "" => false
      | String b s' => if decide (a = b) then startswith p' s' else false
      end
  end.

(** [sub in s] *)
Fixpoint contains (sub s : string) : bool :=
  match s with
  | "" => startswith sub ""
  | String _ s' => startswith sub s || contains sub s'
  end.

(** [s.endswith(p)] *)
Fixpoint endswith (p s : string) : bool :=
  match s with
  | "" => if decide (p = "") then true else false
  | String _ s' => (if decide (p = s) then true else false) || endswith p s'
  end.

(** [sep.join(parts)] *)
Definition join (sep : string) (parts : list string) : string :=
  String.concat sep parts.

(** [sorted(l)] on strings. *)
Definition sorted (l : list string) : list string :=
  merge_sort String.le l.

(** [sorted(l, reverse=True)] on strings: descending order. *)
Definition sorted_reverse (l : list string) : list string :=
  merge_sort (flip String.le) l.

(** [sorted(list(set(l)))]: the iteration order of a Python set is
    unspecified; [sorted_set_any_order] below shows the result does
    not depend on it. *)
Definition sorted_set (l : list string) : list string :=
  sorted (remove_dups l).

(** White space as [str.split()], [str.strip()] and [str.isspace()] see
    it: the code points 9 to 13, 28 to 32, 133 (next line) and 160
    (no-break space). *)
Definition isspace (c : ascii) : bool :=
  let n := N_of_ascii c in
  ((9 <=? n) && (n <=? 13) || (28 <=? n) && (n <=? 32)
   || (n =? 133) || (n =? 160))%N.

(** [c.lower()]: the letters A to Z and the accented capitals 192 to
    222, the multiplication sign 215 apart, move up by 32. *)
Definition lower_char (c : ascii) : ascii :=
  let n := N_of_ascii c in
  if ((65 <=? n) && (n <=? 90)
      || (192 <=? n) && (n <=? 222) && negb (n =? 215))%N
  then ascii_of_N (n + 32) else c.

(** [s.lower()] *)
Fixpoint lower (s : string) : string :=
  match s with
  | "" => ""
  | String c s' => String (lower_char c) (lower s')
  end.

Fixpoint lstrip (s : string) : string :=
  match s with
  | "" => ""
  | String c s' => if isspace c then lstrip s' else s
  end.

Fixpoint take_word (s : string) : string :=
  match s with
  | "" => ""
  | String c s' => if isspace c then "" else String c (take_word s')
  end.

(** [s.split()[0]]: the first white-space delimited word; [None] is the
    [IndexError] raised when the string has no word. *)
Definition first_word (s : string) : option string :=
  match lstrip s with
  | "" => None
  | w => Some (take_word w)
  end.

(** [os.path.join(a, b)] of [posixpath]. *)
Definition os_path_join (a b : string) : string :=
  if startswith "/" b then b
  else if (if decide (a = "") then true else false) || endswith "/" a
       then a +:+ b
       else a +:+ "/" +:+ b.

End Py.

Import Py.

(** ** Resource catalog *)

Record service_group := {
  description : string;
  helm_releases : list string;
  manifests : list string
}.

(** The dictionary [K8S_SERVICE_GROUPS], in insertion order. *)
Definition K8S_SERVICE_GROUPS : list (string * service_group) :=
  [ ("Stateful Backend",
      {| description := "PostgreSQL and MinIO for persistent data storage.";
         helm_releases := ["postgres-metastore"; "minio"];
         manifests := ["secrets/postgres-secret.yaml"; "secrets/minio-secret.yaml"] |});
    ("Messaging",
      {| description := "Kafka (via Confluent) and Redis for real-time communication and caching.";
         helm_releases := ["redis"];
         manifests := ["apps/zookeeper.yaml"; "apps/kafka.yaml"] |});
    ("Core Applications",
      {| description := "The main hexagon orchestrator and hexagonal worker services (hexagon, assistant-worker, agent-tool-worker, etc.)";
         helm_releases := ["api-gateway"; "identity-worker"];
         manifests :=
           ["config/core-config.yaml"; "apps/control-plane.yaml";
            "config/worker-config.yaml"; "apps/llm-worker.yaml"; "apps/agent-tool-worker.yaml";
            "apps/data-processing-worker.yaml"; "apps/interview-worker.yaml";
            "apps/latex-worker.yaml"; "apps/resume-worker.yaml";
            "apps/wolfram-kernel.yaml"; "apps/main-node.yaml";
            "rbac/main-node-observability-rbac.yaml"] |});
    ("Scheduling App",
      {| description := "The AI-powered scheduling model service.";
         helm_releases := [];
         manifests := ["config/scheduling-model-config.yaml"; "apps/scheduling-model.yaml"] |});
    ("News Ingestion Job",
      {| description := "The scheduled CronJob for ingesting news articles.";
         helm_releases := [];
         manifests := ["config/news-ingestion-config.yaml"; "apps/news-ingestion-cronjob.yaml"] |}) ].

(** [d.get(key)] on an association list. *)
Fixpoint dict_get {V} (d : list (string * V)) (key : string) : option V :=
  match d with
  | [] => None
  | (k, v) :: d' => if decide (k = key) then Some v else dict_get d' key
  end.

(** [list(K8S_SERVICE_GROUPS.keys())] *)
Definition catalog_keys : list string := K8S_SERVICE_GROUPS.*1.

(** A name is known when it is a key of the catalog. *)
Definition known_group (name : string) : bool :=
  if dict_get K8S_SERVICE_GROUPS name is Some _ then true else false.

(** ** Group resolver *)

Section Resolver.

(** [K8S_DIR] is [<repository root>/platform/k8s]; the repository root
    depends on where the program is installed. *)
Variable K8S_DIR : string.

(** [group_data.get("manifests", [])] with [group_data] being
    [K8S_SERVICE_GROUPS.get(group_name, {})]. *)
Definition group_manifests (group_name : string) : list string :=
  match dict_get K8S_SERVICE_GROUPS group_name with
  | Some group_data => manifests group_data
  | None => []
  end.

Definition group_helm_releases (group_name : string) : list string :=
  match dict_get K8S_SERVICE_GROUPS group_name with
  | Some group_data => helm_releases group_data
  | None => []
  end.

(** One iteration of the loop over [selected_groups]: the two
    accumulators are extended in place. *)
Definition resolve_step (acc : list string * list string) (group_name : string)
  : list string * list string :=
  (acc.1 ++ map (os_path_join K8S_DIR) (group_manifests group_name),
   acc.2 ++ group_helm_releases group_name).

Definition get_group_resources (selected_groups : list string)
  : list string * list string :=
  let acc := fold_left resolve_step selected_groups ([], []) in
  (sorted_set acc.1, sorted_set acc.2).

(** The two accumulators at the end of the loop, before sorting. *)
Definition selected_manifests (selected_groups : list string) : list string :=
  flat_map (λ g, map (os_path_join K8S_DIR) (group_manifests g)) selected_groups.

Definition selected_releases (selected_groups : list string) : list string :=
  flat_map group_helm_releases selected_groups.

End Resolver.

(** ** Script synthesizer *)

(** What a generator asks of its environment: [CONSOLE.print(markup)],
    [CONSOLE.print(Panel(markup, ...))], the block
    [with open(filename, "w") as f] with its successive [f.write(chunk)],
    and [os.chmod(filename, 0o755)]. Each of these calls may raise: the
    console on text that is not well-formed markup, the file calls on a
    name or a directory that the operating system refuses. *)
Inductive effect : Type :=
  | Print : string → effect
  | PrintPanel : string → effect
  | WriteFile : string → list string → effect
  | Chmod : string → effect.

(** The exceptions of a generator: the [IndexError] of [split()[0]] on
    a name without a word, and whatever a refused effect raises. *)
Inductive exception : Type :=
  | IndexError : exception
  | Failed : effect → exception.

(** What a generator call does: it returns early without writing
    anything, raises, or returns after writing its files. A call that
    raises may have written a file before; the outcome does not say. *)
Inductive outcome (A : Type) : Type :=
  | Skipped : outcome A
  | Raised : exception → outcome A
  | Written : A → outcome A.
Arguments Skipped {A}.
Arguments Raised {A} _.
Arguments Written {A} _.

(** The environment that performs every effect asked of it. *)
Definition always : effect → bool := λ _, true.

(** The two files of one generator call: name and written chunks. *)
Record scripts := {
  script_filename_sh : string;
  sh_writes : list string;
  script_filename_ps1 : string;
  ps1_writes : list string
}.

(** The content of a file is the concatenation of its chunks. *)
Definition file_content (writes : list string) : string :=
  String.concat "" writes.

(** The dictionaries [helm_charts] and [helm_values]. *)
Definition helm_charts : list (string * string) :=
  [ ("postgres-metastore", "bitnami/postgresql"); ("minio", "minio/minio");
    ("kafka", "bitnami/kafka"); ("redis", "bitnami/redis") ].

Definition helm_values : list (string * string) :=
  [ ("postgres-metastore", "charts/postgres/values.yaml"); ("minio", "charts/minio/values.yaml");
    ("kafka", "charts/kafka/values.yaml"); ("redis", "charts/redis/values.yaml") ].

(** Truth value of an optional string: [None] and [""] are false. *)
Definition truthy (o : option string) : bool :=
  match o with
  | Some (String _ _) => true
  | _ => false
  end.

(** The comprehension [group.split()[0].lower() for group in ...];
    [None] when one of the names has no word ([IndexError]). *)
Definition slug_words (selected_groups : list string) : option (list string) :=
  mapM (λ group, lower <$> first_word group) selected_groups.

(** [script_name_part] *)
Definition script_name_part (selected_groups : list string) : option string :=
  if (length selected_groups =? length K8S_SERVICE_GROUPS)%nat
  then Some "all"
  else join "_" <$> slug_words selected_groups.

Definition is_secret_or_config (m : string) : bool :=
  contains "secrets/" m || contains "config/" m.
Definition is_app (m : string) : bool := contains "apps/" m.
Definition is_app_or_config (m : string) : bool :=
  contains "apps/" m || contains "config/" m.
Definition is_secret (m : string) : bool := contains "secrets/" m.

Definition cluster_guard_sh : string :=
  "kubectl cluster-info >/dev/null 2>&1 || { echo 'Cluster offline'; exit 1; }" +:+ LF +:+ LF.
Definition cluster_guard_ps1 : string :=
  "try { kubectl cluster-info | Out-Null } catch { Write-Host 'Cluster offline'; exit 1 }" +:+ LF.

Definition helm_repo_setup : list string :=
  [ "# --- Installing Helm Charts for 3rd party services ---" +:+ LF;
    "helm repo add bitnami https://charts.bitnami.com/bitnami" +:+ LF;
    "helm repo add minio https://charts.min.io/" +:+ LF;
    "helm repo update" +:+ LF +:+ LF ].

Section Synthesizer.

Variable K8S_DIR : string.

(** Whether the environment performs an effect; [false] when the call
    raises. *)
Variable performs : effect → bool.

(** One call on the environment, followed by the rest of the function. *)
Definition perform {A} (e : effect) (rest : outcome A) : outcome A :=
  if performs e then rest else Raised (Failed e).

(** The panel printed last by both generators. *)
Definition run_hint (script_filename_sh script_filename_ps1 : string) : string :=
  "[bold cyan]./" +:+ script_filename_sh +:+ "[/bold cyan] or [bold cyan]." +:+ BACKSLASH
    +:+ script_filename_ps1 +:+ "[/bold cyan]".

(** *** Deploy, bash *)

Definition apply_sh (manifest : string) : string :=
  "kubectl apply -f " +:+ manifest +:+ LF.

(** The body of the loop over [helm_releases_to_install]: a line is
    written only under the guard [if chart and values_rel]. *)
Definition helm_install_sh (release : string) : list string :=
  let chart := dict_get helm_charts release in
  let values_rel := dict_get helm_values release in
  match chart, values_rel with
  | Some c, Some v =>
      if truthy chart && truthy values_rel
      then [ "helm install " +:+ release +:+ " " +:+ c +:+ " -f "
               +:+ os_path_join K8S_DIR v +:+ " --namespace default" +:+ LF ]
      else []
  | _, _ => []
  end.

Definition deploy_sh_writes (selected_groups manifests_to_apply helm_releases_to_install : list string)
  : list string :=
  let secrets_and_configs := List.filter is_secret_or_config manifests_to_apply in
  let apps := List.filter is_app manifests_to_apply in
  [ "#!/bin/bash" +:+ LF;
    "# Deploy script for: " +:+ join ", " selected_groups +:+ LF;
    "# This script was generated by the EnginEdge Control Center." +:+ LF +:+ "set -e" +:+ LF +:+ LF;
    cluster_guard_sh;
    "echo 'Starting Kubernetes deployment...'" +:+ LF +:+ LF ]
  ++ (match secrets_and_configs with
      | [] => []
      | _ => [ "# --- Applying Secrets and ConfigMaps ---" +:+ LF ]
             ++ map apply_sh (sorted secrets_and_configs) ++ [ LF ]
      end)
  ++ (match helm_releases_to_install with
      | [] => []
      | _ => helm_repo_setup ++ flat_map helm_install_sh helm_releases_to_install ++ [ LF ]
      end)
  ++ (match apps with
      | [] => []
      | _ => [ "# --- Deploying Core Applications ---" +:+ LF ]
             ++ map apply_sh (sorted apps) ++ [ LF ]
      end)
  ++ [ "echo 'Kubernetes deployment finished.'" +:+ LF ].

(** *** Deploy, PowerShell *)

Definition apply_ps1 (manifest : string) : string :=
  "kubectl apply -f '" +:+ manifest +:+ "'" +:+ LF.

Definition helm_install_ps1 (release : string) : list string :=
  let chart := dict_get helm_charts release in
  let values_rel := dict_get helm_values release in
  match chart, values_rel with
  | Some c, Some v =>
      if truthy chart && truthy values_rel
      then [ "helm install " +:+ release +:+ " " +:+ c +:+ " -f '"
               +:+ os_path_join K8S_DIR v +:+ "' --namespace default" +:+ LF ]
      else []
  | _, _ => []
  end.

Definition deploy_ps1_writes (selected_groups manifests_to_apply helm_releases_to_install : list string)
  : list string :=
  [ "Param()" +:+ LF;
    "$ErrorActionPreference = 'Stop'" +:+ LF;
    "Write-Host 'Deploying: " +:+ join ", " selected_groups +:+ "'" +:+ LF;
    cluster_guard_ps1;
    "Write-Host 'Starting Kubernetes deployment...'" +:+ LF +:+ LF ]
  ++ [ "# --- Applying Secrets and ConfigMaps ---" +:+ LF ]
  ++ map apply_ps1 (sorted (List.filter is_secret_or_config manifests_to_apply))
  ++ [ LF ]
  ++ (match helm_releases_to_install with
      | [] => []
      | _ => helm_repo_setup ++ flat_map helm_install_ps1 helm_releases_to_install ++ [ LF ]
      end)
  ++ [ "# --- Deploying Core Applications ---" +:+ LF ]
  ++ map apply_ps1 (sorted (List.filter is_app manifests_to_apply))
  ++ [ LF ]
  ++ [ "Write-Host 'Kubernetes deployment finished.'" +:+ LF ].

Definition generate_k8s_deploy_script (selected_groups : list string) : outcome scripts :=
  match selected_groups with
  | [] =>
    perform (Print "[yellow]No service groups selected. Nothing to generate.[/yellow]")
      Skipped
  | _ =>
    perform (Print (LF +:+ "[bold]Generating Kubernetes Deploy Script for: "
                      +:+ join ", " selected_groups +:+ "...[/bold]")) (
    let '(manifests_to_apply, helm_releases_to_install) :=
      get_group_resources K8S_DIR selected_groups in
    match manifests_to_apply, helm_releases_to_install with
    | [], [] =>
      perform (Print "[yellow]No resources found for the selected groups.[/yellow]")
        Skipped
    | _, _ =>
      match script_name_part selected_groups with
      | None => Raised IndexError
      | Some part =>
        let s :=
          {| script_filename_sh := "deploy_k8s_" +:+ part +:+ ".sh";
             sh_writes :=
               deploy_sh_writes selected_groups manifests_to_apply helm_releases_to_install;
             script_filename_ps1 := "deploy_k8s_" +:+ part +:+ ".ps1";
             ps1_writes :=
               deploy_ps1_writes selected_groups manifests_to_apply helm_releases_to_install |} in
        perform (WriteFile (script_filename_sh s) (sh_writes s)) (
        perform (Chmod (script_filename_sh s)) (
        perform (WriteFile (script_filename_ps1 s) (ps1_writes s)) (
        perform (Print (LF +:+ "[bold green]Deploy scripts created: '"
                          +:+ script_filename_sh s +:+ "', '" +:+ script_filename_ps1 s
                          +:+ "'[/bold green]")) (
        perform (PrintPanel (run_hint (script_filename_sh s) (script_filename_ps1 s))) (
        Written s)))))
      end
    end)
  end.

(** *** Destroy, bash *)

Definition delete_sh (file : string) : string :=
  "kubectl delete -f " +:+ file +:+ " --ignore-not-found=true" +:+ LF.

Definition delete_secret_sh (file : string) : string :=
  "[ -f " +:+ file +:+ " ] && kubectl delete -f " +:+ file
    +:+ " --ignore-not-found=true || true" +:+ LF.

Definition helm_delete_sh (release : string) : string :=
  "helm status " +:+ release +:+ " --namespace default >/dev/null 2>&1 && helm delete "
    +:+ release +:+ " --namespace default || true" +:+ LF.

Definition pvc_delete_cmd : string :=
  "kubectl delete pvc --all -n default --ignore-not-found=true" +:+ LF.

Definition pvc_preserved_sh : string :=
  "echo 'PersistentVolumeClaims preserved (wolfram-state and other PVCs retained).'" +:+ LF.

Definition pvc_preserved_ps1 : string :=
  "Write-Host 'PersistentVolumeClaims preserved (wolfram-state and other PVCs retained).'" +:+ LF.

(** The final [if preserve_pvc: ... else: ...] of both destroy scripts. *)
Definition pvc_step (preserve_pvc : bool) (notice : string) : list string :=
  if preserve_pvc then [ notice ]
  else [ "# --- Deleting PersistentVolumeClaims ---" +:+ LF; pvc_delete_cmd; LF ].

Definition destroy_sh_writes (selected_groups manifests_to_delete helm_releases_to_delete : list string)
    (preserve_pvc : bool) : list string :=
  let apps_and_configs := List.filter is_app_or_config manifests_to_delete in
  let secrets := List.filter is_secret manifests_to_delete in
  [ "#!/bin/bash" +:+ LF +:+ "# Destroys selected application components from Kubernetes."
      +:+ LF +:+ "set -e" +:+ LF +:+ LF;
    cluster_guard_sh;
    "echo 'Starting Kubernetes teardown for: " +:+ join ", " selected_groups +:+ "...'"
      +:+ LF +:+ LF ]
  ++ (match apps_and_configs with
      | [] => []
      | _ => [ "# --- Deleting Applications and ConfigMaps ---" +:+ LF ]
             ++ map delete_sh (sorted_reverse apps_and_configs) ++ [ LF ]
      end)
  ++ (match helm_releases_to_delete with
      | [] => []
      | _ => [ "# --- Deleting Helm Releases ---" +:+ LF ]
             ++ map helm_delete_sh helm_releases_to_delete ++ [ LF ]
      end)
  ++ (match secrets with
      | [] => []
      | _ => [ "# --- Deleting Secrets ---" +:+ LF ]
             ++ map delete_secret_sh (sorted_reverse secrets) ++ [ LF ]
      end)
  ++ pvc_step preserve_pvc pvc_preserved_sh
  ++ [ "echo 'Kubernetes teardown finished.'" +:+ LF ].

(** *** Destroy, PowerShell *)

Definition delete_ps1 (file : string) : string :=
  "kubectl delete -f '" +:+ file +:+ "' --ignore-not-found=true" +:+ LF.

Definition delete_secret_ps1 (file : string) : string :=
  "if (Test-Path '" +:+ file +:+ "') { kubectl delete -f '" +:+ file
    +:+ "' --ignore-not-found=true }" +:+ LF.

Definition helm_delete_ps1 (release : string) : string :=
  "if (helm status " +:+ release +:+ " --namespace default 2>$null) { helm delete "
    +:+ release +:+ " --namespace default }" +:+ LF.

Definition destroy_ps1_writes (selected_groups manifests_to_delete helm_releases_to_delete : list string)
    (preserve_pvc : bool) : list string :=
  [ "Param()" +:+ LF;
    "$ErrorActionPreference = 'Stop'" +:+ LF;
    "Write-Host 'Tearing down: " +:+ join ", " selected_groups +:+ "'" +:+ LF;
    cluster_guard_ps1;
    "Write-Host 'Starting Kubernetes teardown...'" +:+ LF +:+ LF ]
  ++ [ "# --- Deleting Applications and ConfigMaps ---" +:+ LF ]
  ++ map delete_ps1 (sorted_reverse (List.filter is_app_or_config manifests_to_delete))
  ++ [ LF ]
  ++ (match helm_releases_to_delete with
      | [] => []
      | _ => [ "# --- Deleting Helm Releases ---" +:+ LF ]
             ++ map helm_delete_ps1 helm_releases_to_delete ++ [ LF ]
      end)
  ++ (match List.filter is_secret manifests_to_delete with
      | [] => []
      | _ => [ "# --- Deleting Secrets ---" +:+ LF ]
             ++ map delete_secret_ps1 (sorted_reverse (List.filter is_secret manifests_to_delete))
             ++ [ LF ]
      end)
  ++ pvc_step preserve_pvc pvc_preserved_ps1
  ++ [ "Write-Host 'Kubernetes teardown finished.'" +:+ LF ].

Definition generate_k8s_destroy_script (selected_groups : list string) (preserve_pvc : bool)
  : outcome scripts :=
  match selected_groups with
  | [] =>
    perform (Print "[yellow]No service groups selected. Nothing to generate.[/yellow]")
      Skipped
  | _ =>
    perform (Print (LF +:+ "[bold]Generating Kubernetes Destroy Script for: "
                      +:+ join ", " selected_groups +:+ "...[/bold]")) (
    let '(manifests_to_delete, helm_releases_to_delete) :=
      get_group_resources K8S_DIR selected_groups in
    match manifests_to_delete, helm_releases_to_delete with
    | [], [] =>
      perform (Print "[yellow]No resources found for the selected groups.[/yellow]")
        Skipped
    | _, _ =>
      match script_name_part selected_groups with
      | None => Raised IndexError
      | Some part =>
        let s :=
          {| script_filename_sh := "destroy_k8s_" +:+ part +:+ ".sh";
             sh_writes :=
               destroy_sh_writes selected_groups manifests_to_delete
                 helm_releases_to_delete preserve_pvc;
             script_filename_ps1 := "destroy_k8s_" +:+ part +:+ ".ps1";
             ps1_writes :=
               destroy_ps1_writes selected_groups manifests_to_delete
                 helm_releases_to_delete preserve_pvc |} in
        perform (WriteFile (script_filename_sh s) (sh_writes s)) (
        perform (Chmod (script_filename_sh s)) (
        perform (WriteFile (script_filename_ps1 s) (ps1_writes s)) (
        perform (Print (LF +:+ "[bold orange_red1]Destroy scripts created: '"
                          +:+ script_filename_sh s +:+ "', '" +:+ script_filename_ps1 s
                          +:+ "'[/bold orange_red1]")) (
        perform (PrintPanel (run_hint (script_filename_sh s) (script_filename_ps1 s))) (
        Written s)))))
      end
    end)
  end.

(** *** The manifest sequences of the scripts

    The paths visited, in order, by the [kubectl apply] loops of the
    deploy script and by the [kubectl delete] loops of the destroy
    script (the same in both dialects), for a call that returns after
    writing its scripts. *)

Definition deploy_apply_sequence (manifests_to_apply : list string) : list string :=
  sorted (List.filter is_secret_or_config manifests_to_apply)
  ++ sorted (List.filter is_app manifests_to_apply).

Definition destroy_delete_sequence (manifests_to_delete : list string) : list string :=
  sorted_reverse (List.filter is_app_or_config manifests_to_delete)
  ++ sorted_reverse (List.filter is_secret manifests_to_delete).

Definition deploy_manifest_order (selected_groups : list string) : list string :=
  match generate_k8s_deploy_script selected_groups with
  | Written _ => deploy_apply_sequence (get_group_resources K8S_DIR selected_groups).1
  | _ => []
  end.

Definition destroy_manifest_order (selected_groups : list string) (preserve_pvc : bool)
  : list string :=
  match generate_k8s_destroy_script selected_groups preserve_pvc with
  | Written _ => destroy_delete_sequence (get_group_resources K8S_DIR selected_groups).1
  | _ => []
  end.

End Synthesizer.

(** Chunks of a script that run a cluster or chart command; the
    PowerShell guard wraps its [kubectl] call in a [try]. *)
Definition is_kubectl (chunk : string) : bool :=
  startswith "kubectl " chunk || startswith "try { kubectl " chunk.
Definition is_helm (chunk : string) : bool := startswith "helm " chunk.
Definition is_command (chunk : string) : bool := is_kubectl chunk || is_helm chunk.

(** The commands among [helm_repo_setup]. *)
Definition helm_repo_cmds : list string :=
  [ "helm repo add bitnami https://charts.bitnami.com/bitnami" +:+ LF;
    "helm repo add minio https://charts.min.io/" +:+ LF;
    "helm repo update" +:+ LF +:+ LF ].

(** The commands of the chart phase of a deploy script, [install] being
    the body of its loop over the releases. *)
Definition helm_phase (install : string → list string) (releases : list string) : list string :=
  match releases with
  | [] => []
  | _ => helm_repo_cmds ++ flat_map install releases
  end.

(** The releases [helm_charts] and [helm_values] both know. *)
Definition installable_releases : list string :=
  ["postgres-metastore"; "minio"; "kafka"; "redis"].

(** Chunks of a destroy script that delete the persistent-volume
    claims, and chunks that announce that they are kept. *)
Definition is_pvc_delete (chunk : string) : bool :=
  startswith "kubectl delete pvc" chunk.
Definition is_pvc_notice (chunk : string) : bool :=
  startswith "echo 'PersistentVolumeClaims preserved" chunk
  || startswith "Write-Host 'PersistentVolumeClaims preserved" chunk.

Definition deploy_marker_sh : string := "echo 'Kubernetes deployment finished.'" +:+ LF.
Definition deploy_marker_ps1 : string := "Write-Host 'Kubernetes deployment finished.'" +:+ LF.

(** Chunks of a deploy script that apply a manifest, and chunks of a
    destroy script that delete one. *)
Definition is_apply_chunk (chunk : string) : bool :=
  startswith "kubectl apply -f " chunk.
Definition is_delete_chunk (chunk : string) : bool :=
  startswith "kubectl delete -f " chunk
  || startswith "[ -f " chunk
  || startswith "if (Test-Path " chunk.

(** ** Image extraction *)

(** A document produced by [yaml.safe_load_all]. Mappings are keyed by
    strings: the code only looks up string keys. *)
#[local] Set Warnings "-register-all".
Inductive yaml : Type :=
  | YNull : yaml
  | YBool : bool → yaml
  | YNum : Z → yaml
  | YStr : string → yaml
  | YSeq : list yaml → yaml
  | YMap : list (string * yaml) → yaml.

(** What reading one manifest gives: the documents the lazy loader yields
    before it stops, and whether it stops by raising (unreadable file,
    malformed stream). *)
Record manifest_file := {
  documents : list yaml;
  load_error : bool
}.

(** The file system seen by the extraction: [None] when
    [os.path.exists(path)] is false. *)
Definition file_system := string → option manifest_file.

Module Images.

(** Python truth value of a loaded value. *)
Definition truth (v : yaml) : bool :=
  match v with
  | YNull => false
  | YBool b => b
  | YNum n => negb (n =? 0)
  | YStr s => if s is "" then false else true
  | YSeq l => if l is [] then false else true
  | YMap d => if d is [] then false else true
  end.

(** [v.get(key, {})]: [None] is the [AttributeError] raised when the
    receiver is not a mapping. *)
Definition get_or_empty (v : yaml) (key : string) : option yaml :=
  match v with
  | YMap d => Some (default (YMap []) (dict_get d key))
  | _ => None
  end.

(** [v.get(key)], with [YNull] for an absent key. *)
Definition get (v : yaml) (key : string) : option yaml :=
  match v with
  | YMap d => Some (default YNull (dict_get d key))
  | _ => None
  end.

(** [image.split("@")[0]] *)
Fixpoint before_at (image : string) : string :=
  match image with
  | "" => ""
  | String c rest => if decide (c = "@"%char) then "" else String c (before_at rest)
  end.

(** The loop [for c in (... or [])] with its body: returns the images
    appended, and [true] when an exception interrupted the loop. *)
Fixpoint scan_containers (containers : list yaml) : list string * bool :=
  match containers with
  | [] => ([], false)
  | c :: rest =>
      match get c "image" with
      | None => ([], true)
      | Some image =>
          if truth image then
            match image with
            | YStr s =>
                let '(found, raised) := scan_containers rest in
                (before_at s :: found, raised)
            | _ => ([], true)
            end
          else scan_containers rest
      end
  end.

(** [tpl.get(key) or []] iterated by [scan_containers]. A true value
    that is not a sequence raises before anything is appended: it
    cannot be iterated, or its elements have no [get]. *)
Definition scan_field (tpl : yaml) (key : string) : list string * bool :=
  match get tpl key with
  | None => ([], true)
  | Some v =>
      if truth v then
        match v with
        | YSeq containers => scan_containers containers
        | _ => ([], true)
        end
      else ([], false)
  end.

Definition workload_kinds : list string :=
  ["Deployment"; "StatefulSet"; "DaemonSet"; "Job"; "CronJob"].

(** The pod template of a workload document. *)
Definition pod_template (kind : string) (spec : yaml) : option yaml :=
  if decide (kind = "CronJob") then
    jt ← get_or_empty spec "jobTemplate";
    js ← get_or_empty jt "spec";
    t ← get_or_empty js "template";
    get_or_empty t "spec"
  else
    t ← get_or_empty spec "template";
    get_or_empty t "spec".

(** The body of the loop over the documents of one file. *)
Definition scan_document (doc : yaml) : list string * bool :=
  match doc with
  | YMap d =>
      let spec := match dict_get d "spec" with
                  | Some v => if truth v then v else YMap []
                  | None => YMap []
                  end in
      match dict_get d "kind" with
      | Some (YStr kind) =>
          if bool_decide (kind ∈ workload_kinds) then
            match pod_template kind spec with
            | None => ([], true)
            | Some tpl =>
                let '(found, raised) := scan_field tpl "containers" in
                if raised then (found, true)
                else
                  let '(found', raised') := scan_field tpl "initContainers" in
                  (found ++ found', raised')
            end
          else ([], false)
      | _ => ([], false)
      end
  | _ => ([], false)
  end.

Fixpoint scan_documents (docs : list yaml) : list string * bool :=
  match docs with
  | [] => ([], false)
  | doc :: rest =>
      let '(found, raised) := scan_document doc in
      if raised then (found, true)
      else
        let '(found', raised') := scan_documents rest in
        (found ++ found', raised')
  end.

(** One iteration of the loop over [manifest_paths]: whatever was
    appended before an exception stays in [images]. *)
Definition scan_manifest (fs : file_system) (path : string) : list string :=
  match fs path with
  | None => []
  | Some f => (scan_documents (documents f)).1
  end.

Definition is_local_build (img : string) : bool :=
  contains ":" img && endswith ":latest" img.

(** *** The references read

    The values of [image] at which [images.append(image.split("@")[0])]
    is executed, in order and as the manifest writes them: the
    traversal of the scan, keeping the reference whole. *)

Fixpoint container_references (containers : list yaml) : list string * bool :=
  match containers with
  | [] => ([], false)
  | c :: rest =>
      match get c "image" with
      | None => ([], true)
      | Some image =>
          if truth image then
            match image with
            | YStr s =>
                let '(found, raised) := container_references rest in
                (s :: found, raised)
            | _ => ([], true)
            end
          else container_references rest
      end
  end.

Definition field_references (tpl : yaml) (key : string) : list string * bool :=
  match get tpl key with
  | None => ([], true)
  | Some v =>
      if truth v then
        match v with
        | YSeq containers => container_references containers
        | _ => ([], true)
        end
      else ([], false)
  end.

Definition document_references (doc : yaml) : list string * bool :=
  match doc with
  | YMap d =>
      let spec := match dict_get d "spec" with
                  | Some v => if truth v then v else YMap []
                  | None => YMap []
                  end in
      match dict_get d "kind" with
      | Some (YStr kind) =>
          if bool_decide (kind ∈ workload_kinds) then
            match pod_template kind spec with
            | None => ([], true)
            | Some tpl =>
                let '(found, raised) := field_references tpl "containers" in
                if raised then (found, true)
                else
                  let '(found', raised') := field_references tpl "initContainers" in
                  (found ++ found', raised')
            end
          else ([], false)
      | _ => ([], false)
      end
  | _ => ([], false)
  end.

Fixpoint documents_references (docs : list yaml) : list string * bool :=
  match docs with
  | [] => ([], false)
  | doc :: rest =>
      let '(found, raised) := document_references doc in
      if raised then (found, true)
      else
        let '(found', raised') := documents_references rest in
        (found ++ found', raised')
  end.

(** The references read from one manifest before the end of the file
    or an exception. *)
Definition manifest_references (fs : file_system) (path : string) : list string :=
  match fs path with
  | None => []
  | Some f => (documents_references (documents f)).1
  end.

(** No collected image keeps a digest. *)
Definition digest_free (images : list string) : Prop :=
  Forall (λ img, contains "@" img = false) images.

Definition _extract_images_from_manifests (fs : file_system) (manifest_paths : list string)
  : list string :=
  let images := flat_map (scan_manifest fs) manifest_paths in
  sorted_set (List.filter is_local_build images).

End Images.

(** ** Readiness monitor *)

Module Readiness.

(** An item of [kubectl get deploy|statefulset -o json]; [None] is an
    absent key. *)
Record workload_item := {
  item_name : string;
  spec_replicas : option Z;
  status_readyReplicas : option Z
}.

(** An entry of [statuses]. *)
Record status := {
  kind : string;
  name : string;
  ready : Z;
  replicas : Z
}.

(** The states of a container status: [Some r] when the key is
    present, [r] being its optional [reason]. *)
Record container_status := {
  restartCount : Z;
  state_waiting : option (option string);
  state_terminated : option (option string)
}.

Record owner_reference := {
  ref_kind : string;
  ref_name : string
}.

Record pod := {
  metadata_name : string;
  containerStatuses : list container_status;
  ownerReferences : list owner_reference
}.

(** One of the two [try] blocks of [load_statuses]: a failed query
    ([None]) appends nothing. *)
Definition load_kind (k : string) (query : option (list workload_item)) : list status :=
  match query with
  | None => []
  | Some items =>
      map (λ item,
             {| kind := k;
                name := item_name item;
                ready := default 0 (status_readyReplicas item);
                replicas := default 1 (spec_replicas item) |}) items
  end.

Definition load_statuses (deploy_query statefulset_query : option (list workload_item))
  : list status :=
  load_kind "Deployment" deploy_query ++ load_kind "StatefulSet" statefulset_query.

(** [x or dflt] on an optional string. *)
Definition or_default (x : option string) (dflt : string) : string :=
  match x with
  | Some (String c s) => String c s
  | _ => dflt
  end.

(** The body of the loop over [containerStatuses]; the accumulator is
    [restarts] and the dictionary [owner_reason_map]. *)
Definition scan_container_status (pod_name : string)
    (acc : Z * gmap string string) (cs : container_status) : Z * gmap string string :=
  let restarts := acc.1 + restartCount cs in
  let reasons :=
    match state_waiting cs with
    | Some r =>
        let reason := or_default r "waiting" in
        if bool_decide (reason ∈ ["ContainerCreating"; "PodInitializing"])
        then acc.2 else <[pod_name := reason]> acc.2
    | None => acc.2
    end in
  let reasons :=
    match state_terminated cs with
    | Some r => <[pod_name := or_default r "terminated"]> reasons
    | None => reasons
    end in
  (restarts, reasons).

(** The loop over [ownerReferences]: the last matching reference wins. *)
Definition find_owner (refs : list owner_reference) : option string :=
  fold_left
    (λ owner ref,
       if bool_decide (ref_kind ref ∈ ["ReplicaSet"; "StatefulSet"])
       then Some (ref_name ref) else owner)
    refs None.

(** [owner.split("-")[0]] *)
Fixpoint split_dash_first (owner : string) : string :=
  match owner with
  | "" => ""
  | String c rest =>
      if decide (c = "-"%char) then "" else String c (split_dash_first rest)
  end.

Definition owner_prefix_of (owner : string) : string :=
  if contains "-" owner then split_dash_first owner else owner.

(** The body of the loop over the pods. *)
Definition scan_pod (maps : gmap string Z * gmap string string) (p : pod)
  : gmap string Z * gmap string string :=
  let restarts_map := maps.1 in
  let '(restarts, owner_reason_map) :=
    fold_left (scan_container_status (metadata_name p)) (containerStatuses p) (0, maps.2) in
  match find_owner (ownerReferences p) with
  | Some (String c o) =>
      let owner_prefix := owner_prefix_of (String c o) in
      let restarts_map :=
        <[owner_prefix := default 0 (restarts_map !! owner_prefix) + restarts]> restarts_map in
      let pod_reason := owner_reason_map !! metadata_name p in
      if truthy pod_reason && bool_decide (owner_reason_map !! owner_prefix = None)
      then (restarts_map, <[owner_prefix := default "" pod_reason]> owner_reason_map)
      else (restarts_map, owner_reason_map)
  | _ => (restarts_map, owner_reason_map)
  end.

(** The [try] block around the pod query: a failed query leaves both
    dictionaries empty. *)
Definition scan_pods (pods_query : option (list pod))
  : gmap string Z * gmap string string :=
  match pods_query with
  | None => (∅, ∅)
  | Some pods => fold_left scan_pod pods (∅, ∅)
  end.

(** [str(n)] *)
Definition str_of_Z (n : Z) : string := NilZero.string_of_int (Z.to_int n).

(** A row of the readiness table. *)
Record row := {
  row_kind : string;
  row_name : string;
  row_ready : Z;
  row_desired : Z;
  row_errors : string
}.

Definition is_ready (s : status) : bool :=
  (replicas s <=? ready s) && (0 <? replicas s).

Definition make_row (maps : gmap string Z * gmap string string) (s : status) : row :=
  let owner_prefix := name s in
  let restart_count := default 0 (maps.1 !! owner_prefix) in
  let reason := maps.2 !! owner_prefix in
  let err_badges :=
    (if truthy reason then [default "" reason] else [])
    ++ (if 0 <? restart_count then ["restarts:" +:+ str_of_Z restart_count] else []) in
  {| row_kind := kind s; row_name := name s;
     row_ready := ready s; row_desired := replicas s;
     row_errors := join ", " err_badges |}.

(** The sort key [(x["kind"], x["name"])]. *)
Definition key_le (a b : status) : Prop :=
  kind a ≠ kind b ∧ String.le (kind a) (kind b)
  ∨ kind a = kind b ∧ String.le (name a) (name b).

#[global] Instance key_le_dec : RelDecision key_le.
Proof. intros a b. unfold key_le. apply _. Defined.

(** What one iteration of the polling loop computes from the cluster. *)
Record tick_result := {
  rows : list row;
  ready_count : Z;
  total : Z
}.

(** The loop over [sorted(statuses, ...)], counting as it goes. *)
Definition tick (statuses : list status) (pods_query : option (list pod)) : tick_result :=
  let maps := scan_pods pods_query in
  fold_left
    (λ acc s,
       {| rows := rows acc ++ [make_row maps s];
          ready_count := if is_ready s then ready_count acc + 1 else ready_count acc;
          total := total acc + 1 |})
    (merge_sort key_le statuses)
    {| rows := []; ready_count := 0; total := 0 |}.

(** What the cluster and the clock show during one iteration: the three
    queries and the value of [time.time() - start] at the timeout test. *)
Record observation := {
  deploy_query : option (list workload_item);
  statefulset_query : option (list workload_item);
  pods_query : option (list pod);
  elapsed : Q
}.

Inductive exit_reason := Converged | TimedOut.

Definition observe (o : observation) : tick_result :=
  tick (load_statuses (deploy_query o) (statefulset_query o)) (pods_query o).

Definition converged (o : observation) : bool :=
  let r := observe o in (0 <? total r) && (ready_count r =? total r).

Definition timed_out (timeout_seconds : Z) (o : observation) : bool :=
  Qle_bool (inject_Z timeout_seconds) (elapsed o).

(** The [while True] loop from its [i]-th iteration on, against the
    observations [world]; [fuel] bounds the iterations unfolded. The
    result is the reason of the [break] and the iteration it happens in. *)
Fixpoint polling_loop (fuel : nat) (timeout_seconds : Z) (world : nat → observation)
    (i : nat) : option (exit_reason * nat) :=
  match fuel with
  | O => None
  | S fuel' =>
      if converged (world i) then Some (Converged, i)
      else if timed_out timeout_seconds (world i) then Some (TimedOut, i)
      else polling_loop fuel' timeout_seconds world (S i)
  end.

Definition wait_for_readiness (fuel : nat) (timeout_seconds : Z) (world : nat → observation)
  : option (exit_reason * nat) :=
  polling_loop fuel timeout_seconds world 0.

Definition default_timeout_seconds : Z := 600.

(** Whether the [i]-th iteration reaches one of the two [break]s, and
    which one it takes. *)
Definition exits_at (timeout_seconds : Z) (world : nat → observation) (i : nat) : bool :=
  converged (world i) || timed_out timeout_seconds (world i).

Definition reason_at (world : nat → observation) (i : nat) : exit_reason :=
  if converged (world i) then Converged else TimedOut.

(** The keys of [restarts_map] are free of hyphens. *)
Definition dash_free_keys (restarts_map : gmap string Z) : Prop :=
  ∀ k, is_Some (restarts_map !! k) → contains "-" k = false.

(** The restarts of one pod, as the loop over its container statuses
    sums them, and the controller name the pod is attributed to. *)
Definition pod_restarts (p : pod) : Z :=
  fold_left (λ restarts cs, restarts + restartCount cs) (containerStatuses p) 0.

Definition pod_controller (p : pod) : option string :=
  match find_owner (ownerReferences p) with
  | Some (String c o) => Some (owner_prefix_of (String c o))
  | _ => None
  end.

(** [sum(l)] *)
Definition sum_Z (l : list Z) : Z := foldr Z.add 0 l.

End Readiness.

(** ** Build contexts *)

Module BuildContext.

(** [s.split(sep)[0]] for a one-character separator. *)
Fixpoint split_first (sep : ascii) (s : string) : string :=
  match s with
  | "" => ""
  | String c rest => if decide (c = sep) then "" else String c (split_first sep rest)
  end.

(** [s.replace(old, new)] for one-character [old] and [new]. *)
Fixpoint replace_char (old new : ascii) (s : string) : string :=
  match s with
  | "" => ""
  | String c rest => String (if decide (c = old) then new else c) (replace_char old new rest)
  end.

(** On a reversed path: what is left from the last separator on. *)
Fixpoint drop_to_sep (r : string) : string :=
  match r with
  | "" => ""
  | String c rest => if decide (c = "/"%char) then r else drop_to_sep rest
  end.

(** On a reversed path: the part after the last separator. *)
Fixpoint take_to_sep (r : string) : string :=
  match r with
  | "" => ""
  | String c rest => if decide (c = "/"%char) then "" else String c (take_to_sep rest)
  end.

Fixpoint lstrip_sep (r : string) : string :=
  match r with
  | "" => ""
  | String c rest => if decide (c = "/"%char) then lstrip_sep rest else r
  end.

(** [os.path.dirname(p)] of [posixpath]: the head up to the last
    separator, without its trailing separators unless it consists of
    separators only. *)
Definition dirname (p : string) : string :=
  let rhead := drop_to_sep (String.rev p) in
  match lstrip_sep rhead with
  | "" => String.rev rhead
  | stripped => String.rev stripped
  end.

(** [os.path.basename(p)] of [posixpath]. *)
Definition basename (p : string) : string :=
  String.rev (take_to_sep (String.rev p)).

(** The dictionary [special]. *)
Definition special : list (string * string) :=
  [ ("core", "hexagon"); ("hexagon", "hexagon");
    ("scheduling-model-api", "scheduling_model");
    ("news-ingestion-job", "scripts/jobs");
    ("wolfram-kernel", "local-kernel") ].

(** The list [candidates], after the special mapping is inserted. *)
Definition candidates (image_name : string) : list string :=
  let base := split_first ":" image_name in
  let cs := [ base; replace_char "-" "_" base ] in
  match dict_get special base with
  | Some dir => dir :: cs
  | None => cs
  end.

Section Dirs.

(** [REPO_ROOT] is an absolute path fixed by the place of the program;
    the two predicates are [os.path.isdir] and [os.path.isfile]. *)
Variable REPO_ROOT : string.
Variable isdir : string → bool.
Variable isfile : string → bool.

Definition enginedge_workers : string :=
  os_path_join (dirname REPO_ROOT) "enginedge-workers".

Definition enginedge_monorepo : string :=
  os_path_join (dirname REPO_ROOT) "EnginEdge-monorepo".

Definition _candidate_build_dirs_for_image (image_name : string) : list string :=
  let cs := candidates image_name in
  map (os_path_join REPO_ROOT) cs
  ++ map (os_path_join enginedge_workers) cs
  ++ map (os_path_join enginedge_monorepo) cs.

(** The test of the default search. *)
Definition has_dockerfile (cand : string) : bool :=
  isdir cand && isfile (os_path_join cand "Dockerfile").

(** The loop of the default search: the first candidate that passes. *)
Fixpoint first_context (cands : list string) : option string :=
  match cands with
  | [] => None
  | cand :: rest => if has_dockerfile cand then Some cand else first_context rest
  end.

Definition _find_build_context_for_image (image_name : string) : option string :=
  if startswith "hexagon" image_name || startswith "core" image_name then
    let hexagon_dockerfile :=
      os_path_join (os_path_join REPO_ROOT "hexagon") "Dockerfile" in
    if isfile hexagon_dockerfile then Some (os_path_join REPO_ROOT "hexagon")
    else first_context (_candidate_build_dirs_for_image image_name)
  else first_context (_candidate_build_dirs_for_image image_name).

End Dirs.

End BuildContext.

(** ** Image build and load pipeline *)

Module Pipeline.

(** [s.strip()] *)
Definition rstrip (s : string) : string := String.rev (lstrip (String.rev s)).
Definition strip (s : string) : string := rstrip (lstrip s).

Definition docker_inspect (tag : string) : list string :=
  ["docker"; "image"; "inspect"; tag].
Definition kind_load (tag : string) : list string :=
  ["kind"; "load"; "docker-image"; tag; "--name"; "enginedge"].

(** The manifests whose images are built: [apps/] or a cron job. *)
Definition is_build_manifest (m : string) : bool :=
  contains "apps/" m || endswith "cronjob.yaml" m.

Section Build.

Variable REPO_ROOT : string.
Variable isdir : string → bool.
Variable isfile : string → bool.
(** [_kind_available()] and [os.environ.get("WOLFRAM_DOWNLOAD_URL", "")]. *)
Variable kind_available : bool.
Variable WOLFRAM_DOWNLOAD_URL : string.
(** Whether the [n]-th [subprocess.run(..., check=True)] of the call
    returns; [false] is a [CalledProcessError]. *)
Variable succeeds : nat → bool.

(** [K8S_DIR] as the program computes it. *)
Definition K8S_DIR : string :=
  os_path_join (os_path_join REPO_ROOT "platform") "k8s".

(** One [subprocess.run]: the commands run so far are the state. *)
Definition run (cmd : list string) (trace : list (list string))
  : bool * list (list string) :=
  (succeeds (length trace), trace ++ [cmd]).

(** The end of the loop body: build, then load if the build succeeded
    and [kind] is there; both failures are caught. *)
Definition build_then_load (tag : string) (build_cmd : list string) (ctx : string)
    (trace : list (list string)) : list (list string) :=
  let '(built, trace) := run (build_cmd ++ [ctx]) trace in
  if built then
    if kind_available then (run (kind_load tag) trace).2 else trace
  else trace.

(** The build command of the [local-kernel] context. *)
Definition wolfram_build_cmd (tag : string) : list string :=
  let wolfram_url_env := strip WOLFRAM_DOWNLOAD_URL in
  match wolfram_url_env with
  | "" => ["docker"; "build"; "-t"; tag]
  | _ => ["docker"; "build"; "-t"; tag; "--build-arg";
          "WOLFRAM_DOWNLOAD_URL=" +:+ wolfram_url_env]
  end.

(** The body of the loop over the images. *)
Definition build_one (trace : list (list string)) (image : string)
  : list (list string) :=
  let tag := image in
  match BuildContext._find_build_context_for_image REPO_ROOT isdir isfile image with
  | Some (String c rest) =>
      let ctx := String c rest in
      if (startswith "hexagon" image || startswith "core" image)
         && bool_decide (BuildContext.basename ctx = "hexagon")
      then build_then_load tag ["docker"; "build"; "-t"; tag] ctx trace
      else if bool_decide (BuildContext.basename ctx = "local-kernel") then
        let '(present, trace) := run (docker_inspect tag) trace in
        if present then
          if kind_available then
            let '(loaded, trace) := run (kind_load tag) trace in
            if loaded then trace
            else build_then_load tag (wolfram_build_cmd tag) ctx trace
          else trace
        else build_then_load tag (wolfram_build_cmd tag) ctx trace
      else build_then_load tag ["docker"; "build"; "-t"; tag] ctx trace
  | _ => trace
  end.

(** The images the pipeline considers for a selection. *)
Definition images_to_build (fs : file_system) (selected_groups : list string)
  : list string :=
  let manifests_to_apply := (get_group_resources K8S_DIR selected_groups).1 in
  let app_manifests := List.filter is_build_manifest manifests_to_apply in
  Images._extract_images_from_manifests fs app_manifests.

(** The commands run by one call, in order. *)
Definition _build_and_load_kind_images (docker_available : bool) (fs : file_system)
    (selected_groups : list string) : list (list string) :=
  if docker_available then fold_left build_one (images_to_build fs selected_groups) []
  else [].

(** The commands the loop body can run for one image: the inspection,
    the load, or a build tagged with the image in its resolved context. *)
Definition is_step_for (image : string) (cmd : list string) : Prop :=
  cmd = docker_inspect image
  ∨ cmd = kind_load image
  ∨ ∃ ctx args,
      BuildContext._find_build_context_for_image REPO_ROOT isdir isfile image = Some ctx
      ∧ cmd = ["docker"; "build"; "-t"; image] ++ args ++ [ctx].

End Build.

End Pipeline.

(** ** Environment files *)

Module EnvFile.

(** [s.lstrip(ch)] for a one-character set. *)
Fixpoint lstrip_char (ch : ascii) (s : string) : string :=
  match s with
  | "" => ""
  | String c rest => if decide (c = ch) then lstrip_char ch rest else s
  end.

(** [s.strip(ch)] for a one-character set. *)
Definition strip_char (ch : ascii) (s : string) : string :=
  String.rev (lstrip_char ch (String.rev (lstrip_char ch s))).

(** [s.split(sep, 1)[1]] when [sep] occurs in [s]. *)
Fixpoint after_first (sep : ascii) (s : string) : string :=
  match s with
  | "" => ""
  | String c rest => if decide (c = sep) then rest else after_first sep rest
  end.

(** The double quote. *)
Definition dquote : ascii := "034"%char.

(** The key and value of a line, or [None] for a line that is skipped:
    blank, comment, or without [=]. *)
Definition parse_line (line : string) : option (string * string) :=
  let line := Pipeline.strip line in
  if bool_decide (line = "") || startswith "#" line then None
  else if negb (contains "=" line) then None
  else
    let key := Pipeline.strip (BuildContext.split_first "=" line) in
    let value :=
      strip_char "'" (strip_char dquote (Pipeline.strip (after_first "=" line))) in
    Some (key, value).

(** A string [os.environ] refuses ([ValueError]: embedded null byte). *)
Definition has_nul (s : string) : bool := contains (String "000"%char "") s.

(** The loop over the lines of one file, [environ] being [os.environ];
    an exception ends the file and keeps what was set. *)
Fixpoint load_lines (environ : gmap string string) (lines : list string)
  : gmap string string :=
  match lines with
  | [] => environ
  | line :: rest =>
      match parse_line line with
      | Some (key, value) =>
          if negb (bool_decide (key = "")) && negb (bool_decide (value = ""))
             && bool_decide (environ !! key = None)
          then
            if has_nul key || has_nul value then environ
            else load_lines (<[key := value]> environ) rest
          else load_lines environ rest
      | None => load_lines environ rest
      end
  end.

Section Files.

Variable REPO_ROOT : string.
(** The lines read from a path before any error; [None] when
    [os.path.isfile(path)] is false. *)
Variable read : string → option (list string).

Definition load_file (environ : gmap string string) (filename : string)
  : gmap string string :=
  match read (os_path_join REPO_ROOT filename) with
  | None => environ
  | Some lines => load_lines environ lines
  end.

Definition _load_env_file_if_present (environ : gmap string string)
  : gmap string string :=
  fold_left load_file [".env.local"; ".env"] environ.

End Files.

End EnvFile.

(** ** Refresh, stop and the compose groups *)

Module Workloads.

(** The body of the loop of [refresh_k8s_deployments] over the groups. *)
Definition refresh_step (group : string) : list string :=
  (if contains "Stateful Backend" group then ["hexagon"] else [])
  ++ (if contains "Core Applications" group
      then ["agent-tool-worker"; "data-processing-worker"; "interview-worker";
            "latex-worker"; "assistant-worker"; "resume-worker"; "wolfram-kernel";
            "hexagon"]
      else [])
  ++ (if contains "Scheduling App" group then ["scheduling-model"] else []).

(** The body of the loop of [stop_k8s_deployments] over the groups. *)
Definition stop_step (group : string) : list string :=
  (if contains "Stateful Backend" group then ["hexagon"] else [])
  ++ (if contains "Core Applications" group
      then ["agent-tool-worker"; "data-processing-worker"; "interview-worker";
            "latex-worker"; "assistant-worker"; "resume-worker"; "wolfram-kernel"]
      else [])
  ++ (if contains "Scheduling App" group then ["scheduling-model"] else []).

Definition deployments_to_refresh (selected_groups : list string) : list string :=
  flat_map refresh_step selected_groups.

Definition deployments_to_stop (selected_groups : list string) : list string :=
  flat_map stop_step selected_groups.

Definition restart_cmd (deployment : string) : list string :=
  ["kubectl"; "rollout"; "restart"; "deployment/" +:+ deployment; "-n"; "default"].

Definition scale_down_cmd (deployment : string) : list string :=
  ["kubectl"; "scale"; "deployment/" +:+ deployment; "--replicas=0"; "-n"; "default"].

(** The dictionary [compose_groups] and the list [svc_list]. *)
Definition compose_groups : list (string * list string) :=
  [ ("Stateful Backend", ["postgres"; "minio"]);
    ("Messaging", ["kafka"; "kafka-ui"; "redis"]);
    ("Core Applications", ["mongodb"; "hexagon"; "wolfram-kernel"]);
    ("Scheduling App", ["scheduling-model"]) ].

Definition svc_list : list string :=
  [ "mongodb"; "minio"; "postgres"; "redis"; "kafka"; "kafka-ui";
    "scheduling-model"; "wolfram-kernel"; "hexagon" ].

(** [preselected] of the compose menu: the services of the selected
    groups, then deduplicated in the order of [svc_list]. *)
Definition preselected (selected_groups : list string) : list string :=
  let collected := flat_map (λ g, default [] (dict_get compose_groups g)) selected_groups in
  List.filter (λ s, bool_decide (s ∈ collected)) svc_list.

(** The reasons that make the status action offer an image build. *)
Definition pull_errors : list string :=
  ["ErrImageNeverPull"; "ImagePullBackOff"; "ErrImagePull"].

(** [reason] of one container status in the status action: the waiting
    reason, or the terminated one when there is no waiting reason. *)
Definition status_reason (cs : Readiness.container_status) : option string :=
  let reason := match Readiness.state_waiting cs with
                | Some r => r
                | None => None
                end in
  match Readiness.state_terminated cs with
  | Some r => if truthy reason then reason else r
  | None => reason
  end.

Definition is_pull_error (cs : Readiness.container_status) : bool :=
  match status_reason cs with
  | Some reason => bool_decide (reason ∈ pull_errors)
  | None => false
  end.

(** The inner loop with its [break]. *)
Fixpoint scan_statuses (statuses : list Readiness.container_status) : bool :=
  match statuses with
  | [] => false
  | cs :: rest => if is_pull_error cs then true else scan_statuses rest
  end.

(** The outer loop with its [break]: the flag [needs_images]. *)
Fixpoint needs_images (pods : list Readiness.pod) : bool :=
  match pods with
  | [] => false
  | pod :: rest =>
      if scan_statuses (Readiness.containerStatuses pod) then true
      else needs_images rest
  end.

End Workloads.

(** Chunks of a destroy script that touch the cluster: the guard, the
    manifest deletions, the release removals and the claim deletion. *)
Definition is_teardown_command (chunk : string) : bool :=
  is_command chunk || is_delete_chunk chunk || startswith "if (helm status " chunk.

Definition destroy_marker_sh : string := "echo 'Kubernetes teardown finished.'" +:+ LF.
Definition destroy_marker_ps1 : string := "Write-Host 'Kubernetes teardown finished.'" +:+ LF.

(** * Properties *)

(** ** Sorting and deduplication *)

Section SortedSet.

Implicit Types l k : list string.

Lemma elem_of_sorted l x : x ∈ sorted l ↔ x ∈ l.
Proof. unfold sorted. by rewrite merge_sort_Permutation. Qed.

Lemma elem_of_sorted_reverse l x : x ∈ sorted_reverse l ↔ x ∈ l.
Proof. unfold sorted_reverse. by rewrite merge_sort_Permutation. Qed.

Lemma elem_of_sorted_set l x : x ∈ sorted_set l ↔ x ∈ l.
Proof. unfold sorted_set. by rewrite elem_of_sorted, elem_of_remove_dups. Qed.

Lemma NoDup_sorted_set l : NoDup (sorted_set l).
Proof.
  unfold sorted_set, sorted. rewrite merge_sort_Permutation.
  apply NoDup_remove_dups.
Qed.

Lemma Sorted_sorted l : Sorted String.le (sorted l).
Proof. apply (Sorted_merge_sort _). Qed.

Lemma StronglySorted_sorted l : StronglySorted String.le (sorted l).
Proof. apply (StronglySorted_merge_sort _). Qed.

(** Two sorted lists with the same elements, none repeated, are equal. *)
Lemma sorted_unique l k :
  NoDup l → NoDup k → (∀ x, x ∈ l ↔ x ∈ k) → sorted l = sorted k.
Proof.
  intros Hl Hk Hlk. apply (Sorted_unique String.le); try apply Sorted_sorted.
  unfold sorted. rewrite !merge_sort_Permutation. by apply NoDup_Permutation.
Qed.

Lemma sorted_set_ext l k :
  (∀ x, x ∈ l ↔ x ∈ k) → sorted_set l = sorted_set k.
Proof.
  intros Hlk. apply sorted_unique; try apply NoDup_remove_dups.
  intros x. by rewrite !elem_of_remove_dups.
Qed.

(** The order in which the Python set is turned into a list is
    irrelevant. *)
Lemma sorted_set_any_order l k :
  k ≡ₚ remove_dups l → sorted k = sorted_set l.
Proof.
  intros Hk. apply sorted_unique.
  - rewrite Hk. apply NoDup_remove_dups.
  - apply NoDup_remove_dups.
  - intros x. by rewrite Hk.
Qed.

(** A sorted list without repetition is strictly increasing. *)
Lemma StronglySorted_strict l :
  NoDup l → StronglySorted String.le l → StronglySorted (strict String.le) l.
Proof.
  induction 2 as [|x l Hs IH Hx]; constructor.
  - apply IH. by eapply NoDup_cons_1_2.
  - apply NoDup_cons in H as [Hnotin _].
    rewrite Forall_forall in Hx |- *. intros y Hy. split; [by apply Hx|].
    intros Hyx. assert (x = y) as -> by (apply (anti_symm String.le); auto).
    done.
Qed.

Lemma sorted_set_strict l : StronglySorted (strict String.le) (sorted_set l).
Proof.
  apply StronglySorted_strict; [apply NoDup_sorted_set|].
  apply StronglySorted_sorted.
Qed.

Lemma sorted_set_idemp l : sorted_set (sorted_set l) = sorted_set l.
Proof. apply sorted_set_ext. intros x. by rewrite elem_of_sorted_set. Qed.

End SortedSet.

(** ** Group resolver *)

Section ResolverFacts.

Variable K8S_DIR : string.

Lemma fold_resolve_step sel acc :
  fold_left (resolve_step K8S_DIR) sel acc
  = (acc.1 ++ selected_manifests K8S_DIR sel, acc.2 ++ selected_releases sel).
Proof.
  revert acc. induction sel as [|g sel IH]; intros [ms rs]; simpl.
  - by rewrite !app_nil_r.
  - rewrite IH. simpl. by rewrite <- !app_assoc.
Qed.

Lemma get_group_resources_eq sel :
  get_group_resources K8S_DIR sel
  = (sorted_set (selected_manifests K8S_DIR sel), sorted_set (selected_releases sel)).
Proof. unfold get_group_resources. by rewrite fold_resolve_step. Qed.

Lemma elem_of_resolved_manifests sel m :
  m ∈ (get_group_resources K8S_DIR sel).1 ↔
  ∃ g, g ∈ sel ∧ m ∈ map (os_path_join K8S_DIR) (group_manifests g).
Proof.
  rewrite get_group_resources_eq. simpl. rewrite elem_of_sorted_set.
  unfold selected_manifests. rewrite list_elem_of_In, in_flat_map.
  by setoid_rewrite list_elem_of_In.
Qed.

Lemma elem_of_resolved_releases sel r :
  r ∈ (get_group_resources K8S_DIR sel).2 ↔ ∃ g, g ∈ sel ∧ r ∈ group_helm_releases g.
Proof.
  rewrite get_group_resources_eq. simpl. rewrite elem_of_sorted_set.
  unfold selected_releases. rewrite list_elem_of_In, in_flat_map.
  by setoid_rewrite list_elem_of_In.
Qed.

Lemma unknown_group_empty g :
  known_group g = false → group_manifests g = [] ∧ group_helm_releases g = [].
Proof.
  unfold known_group, group_manifests, group_helm_releases.
  by destruct (dict_get K8S_SERVICE_GROUPS g).
Qed.

Lemma selected_manifests_known sel :
  selected_manifests K8S_DIR (List.filter known_group sel) = selected_manifests K8S_DIR sel.
Proof.
  induction sel as [|g sel IH]; [done|]. simpl.
  destruct (known_group g) eqn:Hg; simpl.
  - unfold selected_manifests in *. simpl. by rewrite IH.
  - destruct (unknown_group_empty g Hg) as [Hm _].
    unfold selected_manifests in *. simpl. by rewrite Hm, IH.
Qed.

Lemma selected_releases_known sel :
  selected_releases (List.filter known_group sel) = selected_releases sel.
Proof.
  induction sel as [|g sel IH]; [done|]. simpl.
  destruct (known_group g) eqn:Hg; simpl.
  - unfold selected_releases in *. simpl. by rewrite IH.
  - destruct (unknown_group_empty g Hg) as [_ Hr].
    unfold selected_releases in *. simpl. by rewrite Hr, IH.
Qed.

End ResolverFacts.

(** C3. Resolving a selection whose names are those of [G1] and [G2]
    together returns, for manifests and for releases, the sorted and
    deduplicated union of the lists returned for [G1] and for [G2]; both
    returned lists are strictly increasing, hence sorted and free of
    duplicates, whatever the overlap between [G1] and [G2]. *)
Theorem resolve_union (K8S_DIR : string) (G1 G2 G : list string) :
  (∀ g, g ∈ G ↔ g ∈ G1 ∨ g ∈ G2) →
  let r := get_group_resources K8S_DIR G in
  let r1 := get_group_resources K8S_DIR G1 in
  let r2 := get_group_resources K8S_DIR G2 in
  r.1 = sorted_set (r1.1 ++ r2.1)
  ∧ r.2 = sorted_set (r1.2 ++ r2.2)
  ∧ (∀ m, m ∈ r.1 ↔ m ∈ r1.1 ∨ m ∈ r2.1)
  ∧ (∀ h, h ∈ r.2 ↔ h ∈ r1.2 ∨ h ∈ r2.2)
  ∧ NoDup r.1 ∧ NoDup r.2
  ∧ StronglySorted (strict String.le) r.1
  ∧ StronglySorted (strict String.le) r.2.
Proof.
  intros HG r r1 r2.
  assert (Hm : ∀ m, m ∈ r.1 ↔ m ∈ r1.1 ∨ m ∈ r2.1).
  { intros m. unfold r, r1, r2. rewrite !elem_of_resolved_manifests.
    split.
    - intros (g & Hg & Hin). apply HG in Hg as [Hg|Hg]; [left|right]; eauto.
    - intros [(g & Hg & Hin)|(g & Hg & Hin)]; exists g; split; auto; apply HG; auto. }
  assert (Hh : ∀ h, h ∈ r.2 ↔ h ∈ r1.2 ∨ h ∈ r2.2).
  { intros h. unfold r, r1, r2. rewrite !elem_of_resolved_releases.
    split.
    - intros (g & Hg & Hin). apply HG in Hg as [Hg|Hg]; [left|right]; eauto.
    - intros [(g & Hg & Hin)|(g & Hg & Hin)]; exists g; split; auto; apply HG; auto. }
  assert (Hr1 : r.1 = sorted_set r.1).
  { unfold r. rewrite get_group_resources_eq. simpl. by rewrite sorted_set_idemp. }
  assert (Hr2 : r.2 = sorted_set r.2).
  { unfold r. rewrite get_group_resources_eq. simpl. by rewrite sorted_set_idemp. }
  split_and!; auto.
  - rewrite Hr1. apply sorted_set_ext. intros m. rewrite elem_of_app. apply Hm.
  - rewrite Hr2. apply sorted_set_ext. intros h. rewrite elem_of_app. apply Hh.
  - rewrite Hr1. apply NoDup_sorted_set.
  - rewrite Hr2. apply NoDup_sorted_set.
  - rewrite Hr1. apply sorted_set_strict.
  - rewrite Hr2. apply sorted_set_strict.
Qed.

Lemma resolve_union_witness :
  let K := "/repo/platform/k8s" in
  let G1 := ["Messaging"; "Scheduling App"] in
  let G2 := ["Scheduling App"; "Stateful Backend"] in
  let G := ["Stateful Backend"; "Messaging"; "Scheduling App"; "Messaging"] in
  (get_group_resources K G).1
  = sorted_set ((get_group_resources K G1).1 ++ (get_group_resources K G2).1)
  ∧ (get_group_resources K G).2 = ["minio"; "postgres-metastore"; "redis"].
Proof.
  intros K G1 G2 G.
  assert (HG : ∀ g, g ∈ G ↔ g ∈ G1 ∨ g ∈ G2).
  { intros g. unfold G, G1, G2. rewrite !elem_of_cons, !elem_of_nil. tauto. }
  pose proof (resolve_union K G1 G2 G HG) as (H1 & H2 & _).
  split; [exact H1|]. rewrite H2. vm_compute. reflexivity.
Defined.

(** C8. The resolver is a total function of the list of names, and a
    name that is not a key of the catalog contributes neither a manifest
    nor a release: the result is that of the known names alone. *)
Theorem resolve_skips_unknown (K8S_DIR : string) (selected_groups : list string) :
  get_group_resources K8S_DIR selected_groups
  = get_group_resources K8S_DIR (List.filter known_group selected_groups)
  ∧ ∀ g, known_group g = false →
      group_manifests g = [] ∧ group_helm_releases g = [].
Proof.
  split; [|apply unknown_group_empty].
  rewrite !get_group_resources_eq.
  by rewrite selected_manifests_known, selected_releases_known.
Qed.

(** ** Script synthesizer: deploy *)

(** Proves a goal [f chunk = b] where the literal head of [chunk]
    decides the test. *)
Ltac by_literal_head := intros; vm_compute; reflexivity.

(** Splits a goal on whether the environment performs each effect of a
    call, in the order in which they are asked. *)
Ltac case_effects :=
  unfold perform;
  repeat match goal with
         | |- context [if ?performs ?e then _ else _] =>
             match type of e with
             | effect => let H := fresh "Hperf" in destruct (performs e) eqn:H
             end
         end.

Section DeployFacts.

Variable K8S_DIR : string.

Lemma is_command_apply_ps1 m : is_command (apply_ps1 m) = true.
Proof. by_literal_head. Qed.

Lemma is_command_helm_install_sh r :
  Forall (λ c, is_command c = true) (helm_install_sh K8S_DIR r).
Proof.
  unfold helm_install_sh.
  destruct (dict_get helm_charts r), (dict_get helm_values r); try constructor.
  destruct (_ && _); repeat constructor.
Qed.

Lemma is_command_helm_install_ps1 r :
  Forall (λ c, is_command c = true) (helm_install_ps1 K8S_DIR r).
Proof.
  unfold helm_install_ps1.
  destruct (dict_get helm_charts r), (dict_get helm_values r); try constructor.
  destruct (_ && _); repeat constructor.
Qed.

Lemma filter_all {A} (f : A → bool) (l : list A) :
  Forall (λ x, f x = true) l → List.filter f l = l.
Proof. induction 1 as [|x l Hx _ IH]; simpl; [done|]. by rewrite Hx, IH. Qed.

Lemma filter_none {A} (f : A → bool) (l : list A) :
  Forall (λ x, f x = false) l → List.filter f l = [].
Proof. induction 1 as [|x l Hx _ IH]; simpl; [done|]. by rewrite Hx, IH. Qed.

Lemma filter_map_all {A B} (f : B → bool) (g : A → B) (l : list A) :
  (∀ x, f (g x) = true) → List.filter f (map g l) = map g l.
Proof. intros Hf. apply filter_all, Forall_forall. intros y (x & -> & _)%list_elem_of_fmap_1. apply Hf. Qed.

Lemma filter_map_none {A B} (f : B → bool) (g : A → B) (l : list A) :
  (∀ x, f (g x) = false) → List.filter f (map g l) = [].
Proof. intros Hf. apply filter_none, Forall_forall. intros y (x & -> & _)%list_elem_of_fmap_1. apply Hf. Qed.

Lemma filter_flat_map_all {A B} (f : B → bool) (g : A → list B) (l : list A) :
  (∀ x, Forall (λ y, f y = true) (g x)) → List.filter f (flat_map g l) = flat_map g l.
Proof.
  intros Hf. apply filter_all, Forall_forall. intros y Hy.
  apply list_elem_of_In, in_flat_map in Hy as (x & _ & Hy).
  specialize (Hf x). rewrite Forall_forall in Hf. by apply Hf, list_elem_of_In.
Qed.

(** A guarded block [if l: header; loop over l; blank line] keeps,
    under a filter that drops the header and the blank line and keeps
    the loop's chunks, exactly the loop's chunks. *)
Lemma filter_block (f : string → bool) (srt : list string → list string)
    (g : string → string) (hdr : string) (l : list string) :
  srt [] = [] → f hdr = false → f LF = false → (∀ x, f (g x) = true) →
  List.filter f (match l with
                 | [] => []
                 | _ => [hdr] ++ map g (srt l) ++ [LF]
                 end) = map g (srt l).
Proof.
  intros Hnil Hh Hlf Hg. destruct l as [|x l]; [by rewrite Hnil|].
  rewrite !List.filter_app, (filter_map_all _ _ _ Hg). simpl.
  by rewrite Hh, Hlf, app_nil_r.
Qed.

Lemma filter_helm_block (f : string → bool) (install : string → list string)
    (rs : list string) :
  f LF = false → (∀ r, Forall (λ c, f c = true) (install r)) →
  Forall (λ c, f c = true) helm_repo_cmds →
  f ("# --- Installing Helm Charts for 3rd party services ---" +:+ LF) = false →
  List.filter f (match rs with
                 | [] => []
                 | _ => helm_repo_setup ++ flat_map install rs ++ [LF]
                 end) = helm_phase install rs.
Proof.
  intros Hlf Hi Hrepo Hh. destruct rs as [|r rs]; [done|].
  unfold helm_phase. rewrite !List.filter_app, (filter_flat_map_all _ _ _ Hi).
  replace (List.filter f helm_repo_setup) with helm_repo_cmds.
  - simpl List.filter at 1. by rewrite Hlf, app_nil_r.
  - change helm_repo_setup
      with (("# --- Installing Helm Charts for 3rd party services ---" +:+ LF)
              :: helm_repo_cmds).
    cbn [List.filter]. rewrite Hh. symmetry. by apply filter_all.
Qed.

Lemma deploy_sh_commands sel ms rs :
  List.filter is_command (deploy_sh_writes K8S_DIR sel ms rs)
  = [cluster_guard_sh]
    ++ map apply_sh (sorted (List.filter is_secret_or_config ms))
    ++ helm_phase (helm_install_sh K8S_DIR) rs
    ++ map apply_sh (sorted (List.filter is_app ms)).
Proof.
  unfold deploy_sh_writes. rewrite !List.filter_app.
  rewrite (filter_block is_command sorted apply_sh); try by_literal_head.
  rewrite (filter_block is_command sorted apply_sh); try by_literal_head.
  rewrite (filter_helm_block is_command); try by_literal_head.
  - assert (List.filter is_command
              ["echo 'Kubernetes deployment finished.'" +:+ LF] = []) as ->
      by by_literal_head.
    rewrite app_nil_r. f_equal.
  - apply is_command_helm_install_sh.
  - repeat constructor.
Qed.

End DeployFacts.

Section DeployOrder.

Variable K8S_DIR : string.
Variable performs : effect → bool.

Lemma deploy_ps1_commands sel ms rs :
  List.filter is_command (deploy_ps1_writes K8S_DIR sel ms rs)
  = [cluster_guard_ps1]
    ++ map apply_ps1 (sorted (List.filter is_secret_or_config ms))
    ++ helm_phase (helm_install_ps1 K8S_DIR) rs
    ++ map apply_ps1 (sorted (List.filter is_app ms)).
Proof.
  unfold deploy_ps1_writes. rewrite !List.filter_app.
  rewrite !(filter_map_all is_command apply_ps1) by apply is_command_apply_ps1.
  rewrite (filter_helm_block is_command); try by_literal_head.
  - assert (List.filter is_command [LF] = []) as -> by by_literal_head.
    assert (List.filter is_command
              ["Write-Host 'Kubernetes deployment finished.'" +:+ LF] = []) as ->
      by by_literal_head.
    assert (List.filter is_command
              ["# --- Applying Secrets and ConfigMaps ---" +:+ LF] = []) as ->
      by by_literal_head.
    assert (List.filter is_command
              ["# --- Deploying Core Applications ---" +:+ LF] = []) as ->
      by by_literal_head.
    rewrite !app_nil_r. simpl. f_equal.
  - apply is_command_helm_install_ps1.
  - repeat constructor.
Qed.

Lemma helm_install_installable r :
  r ∈ installable_releases →
  ∃ chart values_rel,
    dict_get helm_charts r = Some chart ∧ dict_get helm_values r = Some values_rel
    ∧ helm_install_sh K8S_DIR r
      = [ "helm install " +:+ r +:+ " " +:+ chart +:+ " -f "
            +:+ os_path_join K8S_DIR values_rel +:+ " --namespace default" +:+ LF ]
    ∧ helm_install_ps1 K8S_DIR r
      = [ "helm install " +:+ r +:+ " " +:+ chart +:+ " -f '"
            +:+ os_path_join K8S_DIR values_rel +:+ "' --namespace default" +:+ LF ].
Proof.
  unfold installable_releases. rewrite !elem_of_cons, elem_of_nil.
  intros [->|[->|[->|[->|[]]]]]; do 2 eexists; split_and!; reflexivity.
Qed.

Lemma helm_install_not_installable r :
  r ∉ installable_releases →
  helm_install_sh K8S_DIR r = [] ∧ helm_install_ps1 K8S_DIR r = [].
Proof.
  intros Hr. unfold helm_install_sh, helm_install_ps1.
  destruct (dict_get helm_charts r) eqn:E; [|done].
  exfalso. apply Hr. unfold helm_charts in E. simpl in E.
  repeat case_decide; simplify_eq; repeat constructor.
Qed.

Lemma deploy_sh_last sel ms rs :
  last (deploy_sh_writes K8S_DIR sel ms rs) = Some deploy_marker_sh.
Proof. unfold deploy_sh_writes. rewrite !app_assoc. apply last_snoc. Qed.

Lemma deploy_ps1_last sel ms rs :
  last (deploy_ps1_writes K8S_DIR sel ms rs) = Some deploy_marker_ps1.
Proof. unfold deploy_ps1_writes. rewrite !app_assoc. apply last_snoc. Qed.

(** A call that returns normally had each of its effects performed. *)
Lemma perform_Written {A} e (o : outcome A) a :
  perform performs e o = Written a → performs e = true ∧ o = Written a.
Proof. unfold perform. by destruct (performs e). Qed.

Lemma perform_IndexError {A} e (o : outcome A) :
  perform performs e o = Raised IndexError
  ↔ performs e = true ∧ o = Raised IndexError.
Proof. unfold perform. destruct (performs e); split; intros; intuition congruence. Qed.

(** What a deploy generation that writes its files has computed. *)
Lemma generate_deploy_written sel s :
  generate_k8s_deploy_script K8S_DIR performs sel = Written s →
  let res := get_group_resources K8S_DIR sel in
  sel ≠ [] ∧ (res.1 ≠ [] ∨ res.2 ≠ [])
  ∧ (∃ part, script_name_part sel = Some part
      ∧ script_filename_sh s = "deploy_k8s_" +:+ part +:+ ".sh"
      ∧ script_filename_ps1 s = "deploy_k8s_" +:+ part +:+ ".ps1")
  ∧ sh_writes s = deploy_sh_writes K8S_DIR sel res.1 res.2
  ∧ ps1_writes s = deploy_ps1_writes K8S_DIR sel res.1 res.2.
Proof.
  intros H res. subst res. unfold generate_k8s_deploy_script in H.
  destruct sel as [|g sel]; [by apply perform_Written in H as [_ ?]|].
  apply perform_Written in H as [_ H].
  destruct (get_group_resources K8S_DIR (g :: sel)) as [ms rs]. simpl.
  destruct ms as [|m ms], rs as [|r rs];
    [by apply perform_Written in H as [_ ?]|..];
    (destruct (script_name_part (g :: sel)) as [part|] eqn:Hpart; [|done]);
    cbv zeta in H; do 5 (apply perform_Written in H as [_ H]);
    injection H as <-; simpl; split_and!; try done; eauto.
Qed.

(** A non-empty selection with a resource and a slug gets its files,
    unless the environment refuses an effect of the call. *)
Lemma generate_deploy_named sel part :
  sel ≠ [] →
  (get_group_resources K8S_DIR sel).1 ≠ [] ∨ (get_group_resources K8S_DIR sel).2 ≠ [] →
  script_name_part sel = Some part →
  (∃ s, generate_k8s_deploy_script K8S_DIR performs sel = Written s
        ∧ script_filename_sh s = "deploy_k8s_" +:+ part +:+ ".sh"
        ∧ script_filename_ps1 s = "deploy_k8s_" +:+ part +:+ ".ps1")
  ∨ (∃ e, generate_k8s_deploy_script K8S_DIR performs sel = Raised (Failed e)
          ∧ performs e = false).
Proof.
  intros Hne Hres Hpart. unfold generate_k8s_deploy_script.
  destruct sel as [|g sel]; [done|].
  destruct (get_group_resources K8S_DIR (g :: sel)) as [[|m ms] [|r rs]];
    simpl in Hres; rewrite ?Hpart; cbv zeta; [by destruct Hres|..];
    case_effects; eauto 8.
Qed.

End DeployOrder.

(** C1 (as amended). Take a non-empty selection that yields at least
    one resource and whose names give a slug. The deploy generator
    returns after writing its scripts, unless the environment refuses
    one of its console or file operations, which then raises; and
    whenever it writes, the commands of the script are, in order: the
    cluster guard, which precedes every other command; a
    [kubectl apply] for each selected manifest whose path contains
    [secrets/] or [config/]; if a release is selected, the chart
    repository commands followed by a [helm install] for each selected
    release that the script's chart table knows (a release outside the
    table gets no install command); a [kubectl apply] for each selected
    manifest whose path contains [apps/]. The last chunk written is the
    completion marker. This holds for both dialects. *)
Theorem deploy_phase_order
    (K8S_DIR : string) (performs : effect → bool) (selected_groups : list string) :
  selected_groups ≠ [] →
  (get_group_resources K8S_DIR selected_groups).1 ≠ []
  ∨ (get_group_resources K8S_DIR selected_groups).2 ≠ [] →
  is_Some (script_name_part selected_groups) →
  let ms := (get_group_resources K8S_DIR selected_groups).1 in
  let rs := (get_group_resources K8S_DIR selected_groups).2 in
  let phase1 := sorted (List.filter is_secret_or_config ms) in
  let phase3 := sorted (List.filter is_app ms) in
  ((∃ s, generate_k8s_deploy_script K8S_DIR performs selected_groups = Written s)
   ∨ (∃ e, generate_k8s_deploy_script K8S_DIR performs selected_groups
           = Raised (Failed e)
           ∧ performs e = false))
  ∧ (∀ s, generate_k8s_deploy_script K8S_DIR performs selected_groups = Written s →
       List.filter is_command (sh_writes s)
       = [cluster_guard_sh] ++ map apply_sh phase1
           ++ helm_phase (helm_install_sh K8S_DIR) rs ++ map apply_sh phase3
       ∧ List.filter is_command (ps1_writes s)
         = [cluster_guard_ps1] ++ map apply_ps1 phase1
             ++ helm_phase (helm_install_ps1 K8S_DIR) rs ++ map apply_ps1 phase3
       ∧ last (sh_writes s) = Some deploy_marker_sh
       ∧ last (ps1_writes s) = Some deploy_marker_ps1)
  ∧ (∀ m, m ∈ ms → is_secret_or_config m = true → m ∈ phase1)
  ∧ (∀ m, m ∈ ms → is_app m = true → m ∈ phase3)
  ∧ (∀ r, r ∈ installable_releases →
       ∃ line line', helm_install_sh K8S_DIR r = [line]
                     ∧ helm_install_ps1 K8S_DIR r = [line']
                     ∧ startswith ("helm install " +:+ r +:+ " ") line = true
                     ∧ startswith ("helm install " +:+ r +:+ " ") line' = true)
  ∧ (∀ r, r ∉ installable_releases →
       helm_install_sh K8S_DIR r = [] ∧ helm_install_ps1 K8S_DIR r = []).
Proof.
  intros Hne Hres [part Hpart] ms rs phase1 phase3. split_and!.
  - destruct (generate_deploy_named K8S_DIR performs _ _ Hne Hres Hpart)
      as [(s & H & _)|Hrefused]; [left; by exists s|by right].
  - intros s H.
    destruct (generate_deploy_written K8S_DIR performs _ _ H) as (_ & _ & _ & Hsh & Hps).
    rewrite Hsh, Hps. split_and!.
    + apply deploy_sh_commands.
    + apply deploy_ps1_commands.
    + apply deploy_sh_last.
    + apply deploy_ps1_last.
  - intros m Hm Hsc. apply elem_of_sorted, list_elem_of_In, filter_In.
    split; [by apply list_elem_of_In|done].
  - intros m Hm Hsc. apply elem_of_sorted, list_elem_of_In, filter_In.
    split; [by apply list_elem_of_In|done].
  - unfold installable_releases. intros r. rewrite !elem_of_cons, elem_of_nil.
    intros [->|[->|[->|[->|[]]]]]; do 2 eexists; split_and!; reflexivity.
  - apply helm_install_not_installable.
Qed.

Lemma deploy_phase_order_witness :
  ∃ s, generate_k8s_deploy_script "/repo/platform/k8s" always
         ["Stateful Backend"; "Messaging"] = Written s
       ∧ List.filter is_command (sh_writes s)
         = [ cluster_guard_sh;
             apply_sh "/repo/platform/k8s/secrets/minio-secret.yaml";
             apply_sh "/repo/platform/k8s/secrets/postgres-secret.yaml";
             "helm repo add bitnami https://charts.bitnami.com/bitnami" +:+ LF;
             "helm repo add minio https://charts.min.io/" +:+ LF;
             "helm repo update" +:+ LF +:+ LF;
             "helm install minio minio/minio -f /repo/platform/k8s/charts/minio/values.yaml --namespace default" +:+ LF;
             "helm install postgres-metastore bitnami/postgresql -f /repo/platform/k8s/charts/postgres/values.yaml --namespace default" +:+ LF;
             "helm install redis bitnami/redis -f /repo/platform/k8s/charts/redis/values.yaml --namespace default" +:+ LF;
             apply_sh "/repo/platform/k8s/apps/kafka.yaml";
             apply_sh "/repo/platform/k8s/apps/zookeeper.yaml" ].
Proof.
  assert (Hne : ["Stateful Backend"; "Messaging"] ≠ []) by done.
  assert (Hres : (get_group_resources "/repo/platform/k8s"
                    ["Stateful Backend"; "Messaging"]).1 ≠ []
                 ∨ (get_group_resources "/repo/platform/k8s"
                      ["Stateful Backend"; "Messaging"]).2 ≠ [])
    by (left; vm_compute; discriminate).
  assert (Hpart : is_Some (script_name_part ["Stateful Backend"; "Messaging"]))
    by (vm_compute; eauto).
  destruct (deploy_phase_order "/repo/platform/k8s" always _ Hne Hres Hpart)
    as ([(s & H)|(e & _ & Hrefused)] & Hord & _); [|discriminate Hrefused].
  destruct (Hord s H) as (Hcmds & _).
  exists s. split; [exact H|]. rewrite Hcmds. vm_compute. reflexivity.
Defined.

(** C1 as stated fails: with the group Core Applications selected, the
    releases api-gateway and identity-worker are selected and the chart
    repositories are added, but neither script has an install command
    for them. *)
Lemma deploy_phase_order_counterexample :
  ∃ s, generate_k8s_deploy_script "/repo/platform/k8s" always ["Core Applications"]
       = Written s
       ∧ (get_group_resources "/repo/platform/k8s" ["Core Applications"]).2
         = ["api-gateway"; "identity-worker"]
       ∧ contains "helm repo add" (file_content (sh_writes s)) = true
       ∧ contains "helm install" (file_content (sh_writes s)) = false
       ∧ contains "helm install" (file_content (ps1_writes s)) = false.
Proof. eexists. split_and!; vm_compute; reflexivity. Qed.

(** ** Script synthesizer: destroy *)

Section DestroyFacts.

Variable K8S_DIR : string.
Variable performs : effect → bool.

#[local] Instance flip_le_total : Total (flip String.le).
Proof. intros x y. unfold flip. destruct (total String.le x y); auto. Qed.

#[local] Instance flip_le_trans : Transitive (flip String.le).
Proof. intros x y z Hxy Hyz. unfold flip in *. by etrans. Qed.

#[local] Instance flip_le_antisymm : AntiSymm (=) (flip String.le).
Proof. intros x y Hxy Hyx. unfold flip in *. by apply (anti_symm String.le). Qed.

(** Sorting in descending order is sorting and reversing. *)
Lemma sorted_reverse_rev l : sorted_reverse l = reverse (sorted l).
Proof.
  unfold sorted_reverse, sorted.
  apply (Sorted_unique (flip String.le)).
  - apply (Sorted_merge_sort _).
  - apply Sorted_reverse, (Sorted_merge_sort _).
  - by rewrite reverse_Permutation, !merge_sort_Permutation.
Qed.

Lemma generate_destroy_written sel preserve s :
  generate_k8s_destroy_script K8S_DIR performs sel preserve = Written s →
  let res := get_group_resources K8S_DIR sel in
  sel ≠ [] ∧ (res.1 ≠ [] ∨ res.2 ≠ [])
  ∧ (∃ part, script_name_part sel = Some part
      ∧ script_filename_sh s = "destroy_k8s_" +:+ part +:+ ".sh"
      ∧ script_filename_ps1 s = "destroy_k8s_" +:+ part +:+ ".ps1")
  ∧ sh_writes s = destroy_sh_writes sel res.1 res.2 preserve
  ∧ ps1_writes s = destroy_ps1_writes sel res.1 res.2 preserve.
Proof.
  intros H res. subst res. unfold generate_k8s_destroy_script in H.
  destruct sel as [|g sel]; [by apply perform_Written in H as [_ ?]|].
  apply perform_Written in H as [_ H].
  destruct (get_group_resources K8S_DIR (g :: sel)) as [ms rs]. simpl.
  destruct ms as [|m ms], rs as [|r rs];
    [by apply perform_Written in H as [_ ?]|..];
    (destruct (script_name_part (g :: sel)) as [part|] eqn:Hpart; [|done]);
    cbv zeta in H; do 5 (apply perform_Written in H as [_ H]);
    injection H as <-; simpl; split_and!; try done; eauto.
Qed.

(** When the environment refuses no effect of either call, both
    generators skip, raise or write on the same selections. *)
Lemma generate_same_outcome sel preserve :
  (∀ e, generate_k8s_deploy_script K8S_DIR performs sel ≠ Raised (Failed e)) →
  (∀ e, generate_k8s_destroy_script K8S_DIR performs sel preserve ≠ Raised (Failed e)) →
  match generate_k8s_deploy_script K8S_DIR performs sel,
        generate_k8s_destroy_script K8S_DIR performs sel preserve with
  | Skipped, Skipped | Raised IndexError, Raised IndexError | Written _, Written _ => True
  | _, _ => False
  end.
Proof.
  unfold generate_k8s_deploy_script, generate_k8s_destroy_script.
  destruct sel as [|g sel];
    [|destruct (get_group_resources K8S_DIR (g :: sel)) as [[|m ms] [|r rs]];
      destruct (script_name_part (g :: sel)); cbv zeta];
    case_effects; intros Hd Hx; try done;
    try (by destruct (Hd _ eq_refl)); try (by destruct (Hx _ eq_refl)).
Qed.

(** The [kubectl apply] chunks of a deploy script are those of its
    manifest sequence, in that order. *)
Lemma deploy_apply_chunks sel ms rs :
  List.filter is_apply_chunk (deploy_sh_writes K8S_DIR sel ms rs)
  = map apply_sh (deploy_apply_sequence ms)
  ∧ List.filter is_apply_chunk (deploy_ps1_writes K8S_DIR sel ms rs)
    = map apply_ps1 (deploy_apply_sequence ms).
Proof.
  assert (Hsh : ∀ r, Forall (λ c, is_apply_chunk c = false) (helm_install_sh K8S_DIR r)).
  { intros r. unfold helm_install_sh.
    destruct (dict_get helm_charts r), (dict_get helm_values r); try constructor.
    destruct (_ && _); repeat constructor. }
  assert (Hps : ∀ r, Forall (λ c, is_apply_chunk c = false) (helm_install_ps1 K8S_DIR r)).
  { intros r. unfold helm_install_ps1.
    destruct (dict_get helm_charts r), (dict_get helm_values r); try constructor.
    destruct (_ && _); repeat constructor. }
  assert (Hhelm : ∀ install : string → list string,
            (∀ r, Forall (λ c, is_apply_chunk c = false) (install r)) →
            ∀ rs' : list string, List.filter is_apply_chunk
              (match rs' with
               | [] => []
               | _ => helm_repo_setup ++ flat_map install rs' ++ [LF]
               end) = []).
  { intros install Hi [|r rs']; [done|]. apply filter_none.
    rewrite !Forall_app. split_and!; [repeat constructor| |repeat constructor].
    apply Forall_forall. intros c Hc.
    apply list_elem_of_In, in_flat_map in Hc as (x & _ & Hc).
    specialize (Hi x). rewrite Forall_forall in Hi. by apply Hi, list_elem_of_In. }
  unfold deploy_apply_sequence. rewrite !map_app. split.
  - unfold deploy_sh_writes. rewrite !List.filter_app.
    rewrite !(filter_block is_apply_chunk sorted apply_sh); try by_literal_head.
    rewrite (Hhelm _ Hsh). simpl. by rewrite app_nil_r.
  - unfold deploy_ps1_writes. rewrite !List.filter_app.
    rewrite !(filter_map_all is_apply_chunk apply_ps1) by by_literal_head.
    rewrite (Hhelm _ Hps). simpl. by rewrite app_nil_r.
Qed.

Lemma generate_destroy_named sel preserve part :
  sel ≠ [] →
  (get_group_resources K8S_DIR sel).1 ≠ [] ∨ (get_group_resources K8S_DIR sel).2 ≠ [] →
  script_name_part sel = Some part →
  (∃ s, generate_k8s_destroy_script K8S_DIR performs sel preserve = Written s
        ∧ script_filename_sh s = "destroy_k8s_" +:+ part +:+ ".sh"
        ∧ script_filename_ps1 s = "destroy_k8s_" +:+ part +:+ ".ps1")
  ∨ (∃ e, generate_k8s_destroy_script K8S_DIR performs sel preserve = Raised (Failed e)
          ∧ performs e = false).
Proof.
  intros Hne Hres Hpart. unfold generate_k8s_destroy_script.
  destruct sel as [|g sel]; [done|].
  destruct (get_group_resources K8S_DIR (g :: sel)) as [[|m ms] [|r rs]];
    simpl in Hres; rewrite ?Hpart; cbv zeta; [by destruct Hres|..];
    case_effects; eauto 8.
Qed.

End DestroyFacts.

Section DestroyOrder.

Variable K8S_DIR : string.

Lemma pvc_step_no_delete_chunk preserve notice :
  is_delete_chunk notice = false →
  List.filter is_delete_chunk (pvc_step preserve notice) = [].
Proof. intros Hn. destruct preserve; simpl; by rewrite ?Hn. Qed.

Lemma helm_delete_block_no_delete_chunk (del : string → string) (rs : list string) :
  (∀ r, is_delete_chunk (del r) = false) →
  List.filter is_delete_chunk
    (match rs with
     | [] => []
     | _ => [ "# --- Deleting Helm Releases ---" +:+ LF ] ++ map del rs ++ [ LF ]
     end) = [].
Proof.
  intros Hd. destruct rs as [|r rs]; [done|].
  rewrite !List.filter_app, (filter_map_none _ _ _ Hd). done.
Qed.

(** The [kubectl delete -f] chunks of a destroy script are those of
    its manifest sequence, in that order. *)
Lemma destroy_delete_chunks sel ms rs preserve :
  List.filter is_delete_chunk (destroy_sh_writes sel ms rs preserve)
  = map delete_sh (sorted_reverse (List.filter is_app_or_config ms))
    ++ map delete_secret_sh (sorted_reverse (List.filter is_secret ms))
  ∧ List.filter is_delete_chunk (destroy_ps1_writes sel ms rs preserve)
    = map delete_ps1 (sorted_reverse (List.filter is_app_or_config ms))
      ++ map delete_secret_ps1 (sorted_reverse (List.filter is_secret ms)).
Proof.
  split.
  - unfold destroy_sh_writes. rewrite !List.filter_app.
    rewrite (filter_block is_delete_chunk sorted_reverse delete_sh); try by_literal_head.
    rewrite (filter_block is_delete_chunk sorted_reverse delete_secret_sh);
      try by_literal_head.
    rewrite helm_delete_block_no_delete_chunk by by_literal_head.
    rewrite pvc_step_no_delete_chunk by by_literal_head.
    simpl. by rewrite app_nil_r.
  - unfold destroy_ps1_writes. rewrite !List.filter_app.
    rewrite (filter_block is_delete_chunk sorted_reverse delete_secret_ps1);
      try by_literal_head.
    rewrite (filter_map_all is_delete_chunk delete_ps1) by by_literal_head.
    rewrite helm_delete_block_no_delete_chunk by by_literal_head.
    rewrite pvc_step_no_delete_chunk by by_literal_head.
    simpl. by rewrite app_nil_r.
Qed.

Lemma filter_ext_Forall {A} (f g : A → bool) (l : list A) :
  Forall (λ x, f x = g x) l → List.filter f l = List.filter g l.
Proof. induction 1 as [|x l Hx _ IH]; simpl; [done|]. by rewrite Hx, IH. Qed.

Lemma deploy_sequence_elem ms m :
  m ∈ deploy_apply_sequence ms
  ↔ m ∈ ms ∧ (is_secret m = true ∨ contains "config/" m = true ∨ is_app m = true).
Proof.
  unfold deploy_apply_sequence. rewrite elem_of_app, !elem_of_sorted.
  rewrite !list_elem_of_In, !filter_In.
  unfold is_secret_or_config, is_secret, is_app. rewrite orb_true_iff. tauto.
Qed.

Lemma destroy_sequence_elem ms m :
  m ∈ destroy_delete_sequence ms
  ↔ m ∈ ms ∧ (is_secret m = true ∨ contains "config/" m = true ∨ is_app m = true).
Proof.
  unfold destroy_delete_sequence. rewrite elem_of_app, !elem_of_sorted_reverse.
  rewrite !list_elem_of_In, !filter_In.
  unfold is_app_or_config, is_secret, is_app. rewrite orb_true_iff. tauto.
Qed.

Lemma destroy_sequence_reverse ms :
  Forall (λ m, contains "config/" m = false) ms →
  destroy_delete_sequence ms = reverse (deploy_apply_sequence ms).
Proof.
  intros Hc. unfold destroy_delete_sequence, deploy_apply_sequence.
  rewrite reverse_app, !sorted_reverse_rev.
  rewrite (filter_ext_Forall is_app_or_config is_app),
    (filter_ext_Forall is_secret_or_config is_secret); [done|..].
  - eapply Forall_impl; [exact Hc|]. intros m Hm. cbv beta in Hm.
    unfold is_secret_or_config, is_secret. by rewrite Hm, orb_false_r.
  - eapply Forall_impl; [exact Hc|]. intros m Hm. cbv beta in Hm.
    unfold is_app_or_config, is_app. by rewrite Hm, orb_false_r.
Qed.

End DestroyOrder.

(** C2 (as amended). Take a selection for which the deploy generator
    writes its scripts exactly when the destroy generator does, as is
    the case when the environment refuses no console or file operation
    of either call. The destroy script deletes exactly the manifest paths
    that the deploy script applies; and when no selected manifest path
    contains [config/], the sequence of paths deleted is the exact
    reverse of the sequence of paths applied. *)
Theorem destroy_order_reverse_without_config
    (K8S_DIR : string) (performs : effect → bool)
    (selected_groups : list string) (preserve_pvc : bool) :
  ((∃ s, generate_k8s_deploy_script K8S_DIR performs selected_groups = Written s)
   ↔ (∃ s, generate_k8s_destroy_script K8S_DIR performs selected_groups preserve_pvc
           = Written s)) →
  (∀ m, m ∈ destroy_manifest_order K8S_DIR performs selected_groups preserve_pvc
        ↔ m ∈ deploy_manifest_order K8S_DIR performs selected_groups)
  ∧ (Forall (λ m, contains "config/" m = false)
       (get_group_resources K8S_DIR selected_groups).1 →
     destroy_manifest_order K8S_DIR performs selected_groups preserve_pvc
     = reverse (deploy_manifest_order K8S_DIR performs selected_groups)).
Proof.
  unfold destroy_manifest_order, deploy_manifest_order. intros [Hto Hfrom].
  destruct (generate_k8s_deploy_script K8S_DIR performs selected_groups) as [|e|sd],
    (generate_k8s_destroy_script K8S_DIR performs selected_groups preserve_pvc)
      as [|e'|sx];
    try done;
    try (by destruct Hto as [? ?]; eauto);
    try (by destruct Hfrom as [? ?]; eauto).
  split.
  - intros m. by rewrite destroy_sequence_elem, deploy_sequence_elem.
  - apply destroy_sequence_reverse.
Qed.

Lemma destroy_order_reverse_without_config_witness :
  let K := "/repo/platform/k8s" in
  let sel := ["Stateful Backend"; "Messaging"] in
  destroy_manifest_order K always sel false = reverse (deploy_manifest_order K always sel)
  ∧ deploy_manifest_order K always sel
    = [ "/repo/platform/k8s/secrets/minio-secret.yaml";
        "/repo/platform/k8s/secrets/postgres-secret.yaml";
        "/repo/platform/k8s/apps/kafka.yaml";
        "/repo/platform/k8s/apps/zookeeper.yaml" ].
Proof.
  intros K sel. split; [|vm_compute; reflexivity].
  assert (Hboth : (∃ s, generate_k8s_deploy_script K always sel = Written s)
                  ↔ (∃ s, generate_k8s_destroy_script K always sel false = Written s))
    by (split; intros _; eexists; vm_compute; reflexivity).
  apply (proj2 (destroy_order_reverse_without_config K always sel false Hboth)).
  vm_compute. repeat constructor.
Defined.

(** C2 as stated fails: for the group Scheduling App the deploy script
    applies the config manifest and then the application manifest, and
    the destroy script deletes them in that same order. *)
Lemma destroy_order_reverse_counterexample :
  let K := "/repo/platform/k8s" in
  let sel := ["Scheduling App"] in
  deploy_manifest_order K always sel
  = [ "/repo/platform/k8s/config/scheduling-model-config.yaml";
      "/repo/platform/k8s/apps/scheduling-model.yaml" ]
  ∧ destroy_manifest_order K always sel false
    = [ "/repo/platform/k8s/config/scheduling-model-config.yaml";
        "/repo/platform/k8s/apps/scheduling-model.yaml" ]
  ∧ destroy_manifest_order K always sel false ≠ reverse (deploy_manifest_order K always sel).
Proof. split_and!; [vm_compute; reflexivity..|vm_compute; discriminate]. Qed.

(** ** Persistent-volume claims in the destroy script *)

Section PreservePvc.

Lemma filter_guarded_block (f : string → bool) (hdr : string)
    (g : string → string) (l body : list string) :
  f hdr = false → f LF = false → (∀ x, f (g x) = false) →
  List.filter f (match l with
                 | [] => []
                 | _ => [hdr] ++ map g body ++ [LF]
                 end) = [].
Proof.
  intros Hh Hlf Hg. destruct l; [done|].
  rewrite !List.filter_app, (filter_map_none _ _ _ Hg). simpl. by rewrite Hh, Hlf.
Qed.

Lemma destroy_sh_pvc sel ms rs preserve :
  List.filter is_pvc_delete (destroy_sh_writes sel ms rs preserve)
  = (if preserve then [] else [pvc_delete_cmd])
  ∧ List.filter is_pvc_notice (destroy_sh_writes sel ms rs preserve)
    = (if preserve then [pvc_preserved_sh] else []).
Proof.
  unfold destroy_sh_writes. rewrite !List.filter_app.
  rewrite !filter_guarded_block by by_literal_head.
  destruct preserve; split; by_literal_head.
Qed.

Lemma destroy_ps1_pvc sel ms rs preserve :
  List.filter is_pvc_delete (destroy_ps1_writes sel ms rs preserve)
  = (if preserve then [] else [pvc_delete_cmd])
  ∧ List.filter is_pvc_notice (destroy_ps1_writes sel ms rs preserve)
    = (if preserve then [pvc_preserved_ps1] else []).
Proof.
  unfold destroy_ps1_writes. rewrite !List.filter_app.
  rewrite !filter_guarded_block by by_literal_head.
  rewrite !(filter_map_none _ delete_ps1) by by_literal_head.
  destruct preserve; split; by_literal_head.
Qed.

Lemma elem_of_filter_bool {A} (f : A → bool) (l : list A) (x : A) :
  x ∈ List.filter f l ↔ x ∈ l ∧ f x = true.
Proof. by rewrite !list_elem_of_In, filter_In. Qed.

End PreservePvc.

(** C7. Take a non-empty selection that yields at least one resource
    and whose names give a slug, and either value of the preserve flag.
    The destroy generator returns after writing its scripts, unless the
    environment refuses one of its console or file operations, which
    then raises; and whenever it writes, the script contains the command
    deleting the persistent-volume claims if and only if the preserve
    flag is not set: with the flag unset it is the only chunk starting
    with [kubectl delete pvc], with the flag set there is none and the
    notice line is written in its place. This holds for both dialects. *)
Theorem destroy_pvc_iff_not_preserved
    (K8S_DIR : string) (performs : effect → bool)
    (selected_groups : list string) (preserve_pvc : bool) :
  selected_groups ≠ [] →
  (get_group_resources K8S_DIR selected_groups).1 ≠ []
  ∨ (get_group_resources K8S_DIR selected_groups).2 ≠ [] →
  is_Some (script_name_part selected_groups) →
  ((∃ s, generate_k8s_destroy_script K8S_DIR performs selected_groups preserve_pvc
         = Written s)
   ∨ (∃ e, generate_k8s_destroy_script K8S_DIR performs selected_groups preserve_pvc
           = Raised (Failed e)
           ∧ performs e = false))
  ∧ (∀ s, generate_k8s_destroy_script K8S_DIR performs selected_groups preserve_pvc
          = Written s →
       (pvc_delete_cmd ∈ sh_writes s ↔ preserve_pvc = false)
       ∧ (pvc_delete_cmd ∈ ps1_writes s ↔ preserve_pvc = false)
       ∧ List.filter is_pvc_delete (sh_writes s)
         = (if preserve_pvc then [] else [pvc_delete_cmd])
       ∧ List.filter is_pvc_delete (ps1_writes s)
         = (if preserve_pvc then [] else [pvc_delete_cmd])
       ∧ List.filter is_pvc_notice (sh_writes s)
         = (if preserve_pvc then [pvc_preserved_sh] else [])
       ∧ List.filter is_pvc_notice (ps1_writes s)
         = (if preserve_pvc then [pvc_preserved_ps1] else [])).
Proof.
  intros Hne Hres [part Hpart]. split.
  { destruct (generate_destroy_named K8S_DIR performs _ preserve_pvc _ Hne Hres Hpart)
      as [(s & H & _)|Hrefused]; [left; by exists s|by right]. }
  intros s H.
  destruct (generate_destroy_written K8S_DIR performs _ _ _ H) as (_ & _ & _ & Hsh & Hps).
  rewrite Hsh, Hps.
  destruct (destroy_sh_pvc selected_groups (get_group_resources K8S_DIR selected_groups).1
              (get_group_resources K8S_DIR selected_groups).2 preserve_pvc) as [Hd Hn].
  destruct (destroy_ps1_pvc selected_groups (get_group_resources K8S_DIR selected_groups).1
              (get_group_resources K8S_DIR selected_groups).2 preserve_pvc) as [Hd' Hn'].
  assert (Hcmd : is_pvc_delete pvc_delete_cmd = true) by reflexivity.
  split_and!; try done.
  - split.
    + intros Hin. assert (Hf : pvc_delete_cmd ∈ List.filter is_pvc_delete
        (destroy_sh_writes selected_groups (get_group_resources K8S_DIR selected_groups).1
           (get_group_resources K8S_DIR selected_groups).2 preserve_pvc))
        by by apply elem_of_filter_bool.
      rewrite Hd in Hf. destruct preserve_pvc; [by apply elem_of_nil in Hf|done].
    + intros ->. eapply elem_of_filter_bool. rewrite Hd. apply list_elem_of_here.
  - split.
    + intros Hin. assert (Hf : pvc_delete_cmd ∈ List.filter is_pvc_delete
        (destroy_ps1_writes selected_groups (get_group_resources K8S_DIR selected_groups).1
           (get_group_resources K8S_DIR selected_groups).2 preserve_pvc))
        by by apply elem_of_filter_bool.
      rewrite Hd' in Hf. destruct preserve_pvc; [by apply elem_of_nil in Hf|done].
    + intros ->. eapply elem_of_filter_bool. rewrite Hd'. apply list_elem_of_here.
Qed.

Lemma destroy_pvc_iff_not_preserved_witness :
  (∃ s, generate_k8s_destroy_script "/repo/platform/k8s" always ["Messaging"] false
        = Written s
        ∧ pvc_delete_cmd ∈ sh_writes s
        ∧ pvc_delete_cmd ∈ ps1_writes s
        ∧ List.filter is_pvc_delete (sh_writes s) = [pvc_delete_cmd]
        ∧ List.filter is_pvc_notice (sh_writes s) = [])
  ∧ (∃ s, generate_k8s_destroy_script "/repo/platform/k8s" always ["Messaging"] true
          = Written s
          ∧ (pvc_delete_cmd ∉ sh_writes s)
          ∧ (pvc_delete_cmd ∉ ps1_writes s)
          ∧ List.filter is_pvc_delete (sh_writes s) = []
          ∧ List.filter is_pvc_notice (sh_writes s) = [pvc_preserved_sh]).
Proof.
  assert (Hne : ["Messaging"] ≠ []) by done.
  assert (Hres : (get_group_resources "/repo/platform/k8s" ["Messaging"]).1 ≠ []
                 ∨ (get_group_resources "/repo/platform/k8s" ["Messaging"]).2 ≠ [])
    by (left; vm_compute; discriminate).
  assert (Hpart : is_Some (script_name_part ["Messaging"])) by (vm_compute; eauto).
  split.
  - destruct (destroy_pvc_iff_not_preserved "/repo/platform/k8s" always _ false
                Hne Hres Hpart) as ([(s & H)|(e & _ & Hrefused)] & Hiff);
      [|discriminate Hrefused].
    destruct (Hiff s H) as (Hsh & Hps & Hd & _ & Hn & _).
    exists s. split_and!; [exact H|by apply Hsh|by apply Hps|exact Hd|exact Hn].
  - destruct (destroy_pvc_iff_not_preserved "/repo/platform/k8s" always _ true
                Hne Hres Hpart) as ([(s & H)|(e & _ & Hrefused)] & Hiff);
      [|discriminate Hrefused].
    destruct (Hiff s H) as (Hsh & Hps & Hd & _ & Hn & _).
    exists s. split_and!; [exact H| | |exact Hd|exact Hn].
    + intros Hin. apply Hsh in Hin. discriminate.
    + intros Hin. apply Hps in Hin. discriminate.
Defined.

(** ** Manifests outside the three path classes *)

Section StringFacts.

Lemma string_app_cons a s t : String a s +:+ t = String a (s +:+ t).
Proof. reflexivity. Qed.

Lemma string_length_app s t :
  String.length (s +:+ t) = (String.length s + String.length t)%nat.
Proof.
  induction s as [|a s IH]; [done|].
  rewrite string_app_cons. simpl. by rewrite IH.
Qed.

Lemma string_app_inj_len s s' t t' :
  String.length s = String.length s' → s +:+ t = s' +:+ t' → s = s'.
Proof.
  revert s'. induction s as [|a s IH]; intros [|a' s'] Hlen Heq; try done.
  rewrite !string_app_cons in Heq. simplify_eq/=. f_equal. eauto.
Qed.

(** A chunk built around one path determines the path. *)
Lemma wrap_inj p q m m' : p +:+ m +:+ q = p +:+ m' +:+ q → m = m'.
Proof.
  intros Heq. apply (inj (String.app p)) in Heq.
  apply (string_app_inj_len _ _ q q); [|done].
  apply (f_equal String.length) in Heq. rewrite !string_length_app in Heq. lia.
Qed.

(** So does a chunk that names the path twice. *)
Lemma wrap2_inj p q r m m' :
  p +:+ m +:+ q +:+ m +:+ r = p +:+ m' +:+ q +:+ m' +:+ r → m = m'.
Proof.
  intros Heq. apply (inj (String.app p)) in Heq.
  apply (string_app_inj_len _ _ (q +:+ m +:+ r) (q +:+ m' +:+ r)); [|done].
  apply (f_equal String.length) in Heq. rewrite !string_length_app in Heq. lia.
Qed.

Lemma apply_sh_inj m m' : apply_sh m = apply_sh m' → m = m'.
Proof. apply wrap_inj. Qed.

Lemma apply_ps1_inj m m' : apply_ps1 m = apply_ps1 m' → m = m'.
Proof. unfold apply_ps1. apply (wrap_inj _ ("'" +:+ LF)). Qed.

Lemma delete_sh_inj m m' : delete_sh m = delete_sh m' → m = m'.
Proof. unfold delete_sh. apply (wrap_inj _ (" --ignore-not-found=true" +:+ LF)). Qed.

Lemma delete_ps1_inj m m' : delete_ps1 m = delete_ps1 m' → m = m'.
Proof. unfold delete_ps1. apply (wrap_inj _ ("' --ignore-not-found=true" +:+ LF)). Qed.

Lemma delete_secret_sh_inj m m' : delete_secret_sh m = delete_secret_sh m' → m = m'.
Proof.
  unfold delete_secret_sh.
  apply (wrap2_inj _ " ] && kubectl delete -f " (" --ignore-not-found=true || true" +:+ LF)).
Qed.

Lemma delete_secret_ps1_inj m m' : delete_secret_ps1 m = delete_secret_ps1 m' → m = m'.
Proof.
  unfold delete_secret_ps1.
  apply (wrap2_inj _ "') { kubectl delete -f '" ("' --ignore-not-found=true }" +:+ LF)).
Qed.

Lemma elem_of_map_inj (g : string → string) (l : list string) (x : string) :
  (∀ a b, g a = g b → a = b) → g x ∈ map g l → x ∈ l.
Proof.
  intros Hg (y & Heq & Hy)%list_elem_of_fmap. by rewrite (Hg _ _ Heq).
Qed.

(** Two chunks that differ on a literal head are different. *)
Lemma not_elem_of_map_head (f : string → bool) (g : string → string)
    (l : list string) (c : string) :
  f c = true → (∀ y, f (g y) = false) → c ∉ map g l.
Proof.
  intros Hc Hg (y & -> & _)%list_elem_of_fmap. rewrite Hg in Hc. done.
Qed.

End StringFacts.

Section ScriptOrder.

Variable K8S_DIR : string.
Variable performs : effect → bool.

(** The manifest order of a written deploy script is read off its
    [kubectl apply] chunks. *)
Lemma deploy_order_of_script sel s :
  generate_k8s_deploy_script K8S_DIR performs sel = Written s →
  List.filter is_apply_chunk (sh_writes s)
  = map apply_sh (deploy_manifest_order K8S_DIR performs sel)
  ∧ List.filter is_apply_chunk (ps1_writes s)
    = map apply_ps1 (deploy_manifest_order K8S_DIR performs sel).
Proof.
  intros H. unfold deploy_manifest_order. rewrite H.
  destruct (generate_deploy_written K8S_DIR performs _ _ H) as (_ & _ & _ & -> & ->).
  apply deploy_apply_chunks.
Qed.

(** The manifest order of a written destroy script is read off its
    [kubectl delete -f] chunks: plain for applications and
    configuration, guarded by a file test for secrets. *)
Lemma destroy_order_of_script sel preserve s :
  generate_k8s_destroy_script K8S_DIR performs sel preserve = Written s →
  let ms := (get_group_resources K8S_DIR sel).1 in
  destroy_manifest_order K8S_DIR performs sel preserve
  = sorted_reverse (List.filter is_app_or_config ms)
    ++ sorted_reverse (List.filter is_secret ms)
  ∧ List.filter is_delete_chunk (sh_writes s)
    = map delete_sh (sorted_reverse (List.filter is_app_or_config ms))
      ++ map delete_secret_sh (sorted_reverse (List.filter is_secret ms))
  ∧ List.filter is_delete_chunk (ps1_writes s)
    = map delete_ps1 (sorted_reverse (List.filter is_app_or_config ms))
      ++ map delete_secret_ps1 (sorted_reverse (List.filter is_secret ms)).
Proof.
  intros H ms. unfold destroy_manifest_order. rewrite H.
  destruct (generate_destroy_written K8S_DIR performs _ _ _ H) as (_ & _ & _ & -> & ->).
  split; [done|]. apply destroy_delete_chunks.
Qed.

Lemma unclassified_not_in_sequences ms m :
  contains "secrets/" m = false → contains "config/" m = false →
  contains "apps/" m = false →
  (m ∉ deploy_apply_sequence ms) ∧ (m ∉ destroy_delete_sequence ms).
Proof.
  intros Hs Hc Ha. rewrite deploy_sequence_elem, destroy_sequence_elem.
  unfold is_secret, is_app. rewrite Hs, Hc, Ha.
  split; intros (_ & [?|[?|?]]); done.
Qed.

End ScriptOrder.

(** C10. A manifest path returned by the resolver that contains none of
    [secrets/], [config/] and [apps/] is in neither script: it is not in
    the manifest order of the deploy script nor of the destroy script,
    and no chunk of either dialect applies or deletes it. *)
Theorem unclassified_manifest_omitted
    (K8S_DIR : string) (performs : effect → bool)
    (selected_groups : list string) (preserve_pvc : bool) (m : string) :
  m ∈ (get_group_resources K8S_DIR selected_groups).1 →
  contains "secrets/" m = false →
  contains "config/" m = false →
  contains "apps/" m = false →
  (m ∉ deploy_manifest_order K8S_DIR performs selected_groups)
  ∧ (m ∉ destroy_manifest_order K8S_DIR performs selected_groups preserve_pvc)
  ∧ (∀ s, generate_k8s_deploy_script K8S_DIR performs selected_groups = Written s →
       (apply_sh m ∉ sh_writes s) ∧ (apply_ps1 m ∉ ps1_writes s))
  ∧ (∀ s, generate_k8s_destroy_script K8S_DIR performs selected_groups preserve_pvc
          = Written s →
       (delete_sh m ∉ sh_writes s) ∧ (delete_secret_sh m ∉ sh_writes s)
       ∧ (delete_ps1 m ∉ ps1_writes s) ∧ (delete_secret_ps1 m ∉ ps1_writes s)).
Proof.
  intros _ Hs Hc Ha.
  pose proof (unclassified_not_in_sequences
                (get_group_resources K8S_DIR selected_groups).1 m Hs Hc Ha) as [Hdep Hdes].
  assert (Hd : m ∉ deploy_manifest_order K8S_DIR performs selected_groups).
  { unfold deploy_manifest_order.
    destruct (generate_k8s_deploy_script _ _ _); try apply not_elem_of_nil. done. }
  assert (Hx : m ∉ destroy_manifest_order K8S_DIR performs selected_groups preserve_pvc).
  { unfold destroy_manifest_order.
    destruct (generate_k8s_destroy_script _ _ _ _); try apply not_elem_of_nil. done. }
  split_and!; try done.
  - intros s H. destruct (deploy_order_of_script K8S_DIR performs _ _ H) as [Hsh Hps].
    split; intros Hin.
    + apply Hd, (elem_of_map_inj apply_sh); [apply apply_sh_inj|].
      rewrite <- Hsh. apply elem_of_filter_bool. split; [done|by_literal_head].
    + apply Hd, (elem_of_map_inj apply_ps1); [apply apply_ps1_inj|].
      rewrite <- Hps. apply elem_of_filter_bool. split; [done|by_literal_head].
  - intros s H.
    destruct (destroy_order_of_script K8S_DIR performs _ _ _ H) as (Ho & Hsh & Hps).
    rewrite Ho in Hx. rewrite elem_of_app in Hx.
    split_and!; intros Hin.
    + assert (Hf : delete_sh m ∈ List.filter is_delete_chunk (sh_writes s))
        by (apply elem_of_filter_bool; split; [done|by_literal_head]).
      rewrite Hsh, elem_of_app in Hf. destruct Hf as [Hf|Hf].
      * apply Hx. left. by apply (elem_of_map_inj delete_sh); [apply delete_sh_inj|].
      * revert Hf. apply (not_elem_of_map_head (startswith "kubectl ")); by_literal_head.
    + assert (Hf : delete_secret_sh m ∈ List.filter is_delete_chunk (sh_writes s))
        by (apply elem_of_filter_bool; split; [done|by_literal_head]).
      rewrite Hsh, elem_of_app in Hf. destruct Hf as [Hf|Hf].
      * revert Hf. apply (not_elem_of_map_head (startswith "[ -f ")); by_literal_head.
      * apply Hx. right.
        by apply (elem_of_map_inj delete_secret_sh); [apply delete_secret_sh_inj|].
    + assert (Hf : delete_ps1 m ∈ List.filter is_delete_chunk (ps1_writes s))
        by (apply elem_of_filter_bool; split; [done|by_literal_head]).
      rewrite Hps, elem_of_app in Hf. destruct Hf as [Hf|Hf].
      * apply Hx. left. by apply (elem_of_map_inj delete_ps1); [apply delete_ps1_inj|].
      * revert Hf. apply (not_elem_of_map_head (startswith "kubectl ")); by_literal_head.
    + assert (Hf : delete_secret_ps1 m ∈ List.filter is_delete_chunk (ps1_writes s))
        by (apply elem_of_filter_bool; split; [done|by_literal_head]).
      rewrite Hps, elem_of_app in Hf. destruct Hf as [Hf|Hf].
      * revert Hf. apply (not_elem_of_map_head (startswith "if (Test-Path ")); by_literal_head.
      * apply Hx. right.
        by apply (elem_of_map_inj delete_secret_ps1); [apply delete_secret_ps1_inj|].
Qed.

Lemma unclassified_manifest_omitted_witness :
  let K := "/repo/platform/k8s" in
  let sel := ["Core Applications"] in
  let m := "/repo/platform/k8s/rbac/main-node-observability-rbac.yaml" in
  m ∈ (get_group_resources K sel).1
  ∧ (m ∉ deploy_manifest_order K always sel)
  ∧ (m ∉ destroy_manifest_order K always sel false)
  ∧ (∃ s, generate_k8s_deploy_script K always sel = Written s
          ∧ (apply_sh m ∉ sh_writes s) ∧ (apply_ps1 m ∉ ps1_writes s))
  ∧ (∃ s, generate_k8s_destroy_script K always sel false = Written s
          ∧ (delete_sh m ∉ sh_writes s) ∧ (delete_ps1 m ∉ ps1_writes s)).
Proof.
  intros K sel m.
  assert (Hin : m ∈ (get_group_resources K sel).1).
  { apply (bool_decide_unpack _). vm_compute. exact I. }
  split; [exact Hin|].
  pose proof (unclassified_manifest_omitted K always sel false m Hin
                eq_refl eq_refl eq_refl) as (H1 & H2 & H3 & H4).
  split_and!; [assumption..| |].
  - destruct (generate_k8s_deploy_script K always sel) as [| |s] eqn:E;
      [vm_compute in E; discriminate..|].
    exists s. split; [reflexivity|]. exact (H3 s eq_refl).
  - destruct (generate_k8s_destroy_script K always sel false) as [| |s] eqn:E;
      [vm_compute in E; discriminate..|].
    exists s. split; [reflexivity|]. destruct (H4 s eq_refl) as (? & _ & ? & _).
    split; assumption.
Defined.

(** ** Script file names *)

Section FileNames.

Variable K8S_DIR : string.

Lemma catalog_keys_eq :
  catalog_keys
  = ["Stateful Backend"; "Messaging"; "Core Applications"; "Scheduling App";
     "News Ingestion Job"].
Proof. reflexivity. Qed.

Lemma NoDup_catalog_keys : NoDup catalog_keys.
Proof. apply (bool_decide_unpack _). vm_compute. exact I. Qed.

Lemma known_group_elem g : known_group g = true ↔ g ∈ catalog_keys.
Proof.
  rewrite catalog_keys_eq, !elem_of_cons, elem_of_nil.
  unfold known_group, K8S_SERVICE_GROUPS. cbn [dict_get].
  repeat case_decide; subst; split; intros; try done; try tauto.
  intuition congruence.
Qed.

(** The first word, lowercased, of each catalog name. *)
Lemma known_group_slug g :
  g ∈ catalog_keys →
  ∃ w, lower <$> first_word g = Some w
       ∧ w ∈ ["stateful"; "messaging"; "core"; "scheduling"; "news"]
       ∧ group_manifests g ≠ [].
Proof.
  rewrite catalog_keys_eq, !elem_of_cons, elem_of_nil.
  intros [->|[->|[->|[->|[->|[]]]]]]; eexists;
    (split_and!; [vm_compute; reflexivity|repeat constructor|done]).
Qed.

Lemma slug_words_known sel :
  Forall (λ g, g ∈ catalog_keys) sel →
  ∃ ws, slug_words sel = Some ws
        ∧ Forall (λ w, w ∈ ["stateful"; "messaging"; "core"; "scheduling"; "news"]) ws
        ∧ length ws = length sel.
Proof.
  induction 1 as [|g sel Hg _ (ws & Hws & Hall & Hlen)].
  - by exists [].
  - destruct (known_group_slug g Hg) as (w & Hw & Hin & _).
    exists (w :: ws). unfold slug_words in *. cbn [mapM]. rewrite Hw, Hws.
    split_and!; [done|by constructor|simpl; by rewrite Hlen].
Qed.

Lemma join_known_words_ne_all w ws :
  w ∈ ["stateful"; "messaging"; "core"; "scheduling"; "news"] →
  join "_" (w :: ws) ≠ "all".
Proof.
  rewrite !elem_of_cons, elem_of_nil. intros Hw Heq.
  assert (Hhead : startswith "a" (join "_" (w :: ws)) = false).
  { unfold join. destruct Hw as [->|[->|[->|[->|[->|[]]]]]];
      destruct ws; by_literal_head. }
  rewrite Heq in Hhead. done.
Qed.

(** A duplicate-free list of catalog names has as many names as the
    catalog exactly when it names every group. *)
Lemma full_selection_length sel :
  NoDup sel → Forall (λ g, g ∈ catalog_keys) sel →
  length sel = length K8S_SERVICE_GROUPS ↔ ∀ g, g ∈ catalog_keys → g ∈ sel.
Proof.
  intros Hnd Hall. rewrite Forall_forall in Hall.
  change (length K8S_SERVICE_GROUPS) with (length catalog_keys).
  split.
  - intros Hlen g Hg. apply list_elem_of_In.
    apply (NoDup_length_incl (l := sel) (l' := catalog_keys)).
    + by apply NoDup_ListNoDup.
    + by rewrite Hlen.
    + intros x Hx. apply list_elem_of_In, Hall. by apply list_elem_of_In.
    + by apply list_elem_of_In.
  - intros Hfull. apply Nat.le_antisymm.
    + apply NoDup_incl_length; [by apply NoDup_ListNoDup|].
      intros x Hx. apply list_elem_of_In, Hall. by apply list_elem_of_In.
    + apply NoDup_incl_length; [apply NoDup_ListNoDup, NoDup_catalog_keys|].
      intros x Hx. apply list_elem_of_In, Hfull. by apply list_elem_of_In.
Qed.

Lemma known_selection_has_manifests sel :
  sel ≠ [] → Forall (λ g, g ∈ catalog_keys) sel →
  (get_group_resources K8S_DIR sel).1 ≠ [].
Proof.
  intros Hne Hall. destruct sel as [|g sel]; [done|].
  apply Forall_cons in Hall as [Hg _].
  destruct (known_group_slug g Hg) as (_ & _ & _ & Hms).
  destruct (group_manifests g) as [|m ms] eqn:Hgm; [done|].
  assert (Hin : os_path_join K8S_DIR m ∈ (get_group_resources K8S_DIR (g :: sel)).1).
  { apply elem_of_resolved_manifests. exists g. split; [apply list_elem_of_here|].
    rewrite Hgm. apply list_elem_of_here. }
  intros Heq. rewrite Heq in Hin. by apply elem_of_nil in Hin.
Qed.

End FileNames.

(** C9 (as amended). For a non-empty, duplicate-free selection of
    catalog group names the script files are named from the mode and a
    slug: the slug is [all] exactly when every catalog group is
    selected, and otherwise it is the first word of each selected name,
    lowercased, joined by underscores in selection order. Every script
    that a generator writes for the selection carries these names; and
    each generator writes its files, unless the environment refuses one
    of its console or file operations, which then raises. *)
Theorem script_names_of_catalog_selection
    (K8S_DIR : string) (performs : effect → bool)
    (selected_groups : list string) (preserve_pvc : bool) :
  selected_groups ≠ [] →
  NoDup selected_groups →
  Forall (λ g, known_group g = true) selected_groups →
  ∃ slug,
    script_name_part selected_groups = Some slug
    ∧ (slug = "all" ↔ ∀ g, g ∈ catalog_keys → g ∈ selected_groups)
    ∧ ((¬ ∀ g, g ∈ catalog_keys → g ∈ selected_groups) →
       ∃ ws, Forall2 (λ g w, ∃ fw, first_word g = Some fw ∧ w = lower fw)
               selected_groups ws
             ∧ slug = join "_" ws)
    ∧ (∀ sd, generate_k8s_deploy_script K8S_DIR performs selected_groups = Written sd →
         script_filename_sh sd = "deploy_k8s_" +:+ slug +:+ ".sh"
         ∧ script_filename_ps1 sd = "deploy_k8s_" +:+ slug +:+ ".ps1")
    ∧ (∀ sx, generate_k8s_destroy_script K8S_DIR performs selected_groups preserve_pvc
             = Written sx →
         script_filename_sh sx = "destroy_k8s_" +:+ slug +:+ ".sh"
         ∧ script_filename_ps1 sx = "destroy_k8s_" +:+ slug +:+ ".ps1")
    ∧ ((∃ sd, generate_k8s_deploy_script K8S_DIR performs selected_groups = Written sd)
       ∨ (∃ e, generate_k8s_deploy_script K8S_DIR performs selected_groups
               = Raised (Failed e)
               ∧ performs e = false))
    ∧ ((∃ sx, generate_k8s_destroy_script K8S_DIR performs selected_groups preserve_pvc
              = Written sx)
       ∨ (∃ e, generate_k8s_destroy_script K8S_DIR performs selected_groups preserve_pvc
               = Raised (Failed e)
               ∧ performs e = false)).
Proof.
  intros Hne Hnd Hknown.
  assert (Hall : Forall (λ g, g ∈ catalog_keys) selected_groups).
  { eapply Forall_impl; [exact Hknown|]. intros g. apply known_group_elem. }
  destruct (slug_words_known _ Hall) as (ws & Hws & Hwords & Hlen).
  pose proof (full_selection_length _ Hnd Hall) as Hfull.
  pose proof (known_selection_has_manifests K8S_DIR _ Hne Hall) as Hms.
  assert (Hpart : ∃ slug, script_name_part selected_groups = Some slug
            ∧ (slug = "all" ↔ ∀ g, g ∈ catalog_keys → g ∈ selected_groups)
            ∧ ((¬ ∀ g, g ∈ catalog_keys → g ∈ selected_groups) → slug = join "_" ws)).
  { unfold script_name_part.
    destruct (Nat.eqb_spec (length selected_groups) (length K8S_SERVICE_GROUPS)) as [He|He].
    - exists "all". split_and!; [done| |].
      + split; [intros _; by apply Hfull|done].
      + intros Hnot. destruct Hnot. by apply Hfull.
    - exists (join "_" ws). rewrite Hws. split_and!; [done| |done].
      split.
      + intros Heq. destruct ws as [|w ws'].
        * destruct selected_groups; [done|discriminate Hlen].
        * apply Forall_cons in Hwords as [Hw _].
          by destruct (join_known_words_ne_all w ws' Hw).
      + intros Hsel. destruct He. by apply Hfull. }
  destruct Hpart as (slug & Hslug & Hiff & Helse).
  exists slug. split_and!; try done.
  - intros Hnot. exists ws. split; [|by apply Helse].
    unfold slug_words in Hws. apply mapM_Some_1 in Hws.
    eapply Forall2_impl; [exact Hws|]. intros g w Hgw. cbv beta in Hgw.
    apply fmap_Some in Hgw as (fw & Hfw & ->). eauto.
  - intros sd Hd.
    destruct (generate_deploy_written K8S_DIR performs _ _ Hd)
      as (_ & _ & (slug' & Hslug' & Hd1 & Hd2) & _).
    rewrite Hslug in Hslug'. by injection Hslug' as <-.
  - intros sx Hx.
    destruct (generate_destroy_written K8S_DIR performs _ _ _ Hx)
      as (_ & _ & (slug' & Hslug' & Hx1 & Hx2) & _).
    rewrite Hslug in Hslug'. by injection Hslug' as <-.
  - destruct (generate_deploy_named K8S_DIR performs _ _ Hne (or_introl Hms) Hslug)
      as [(sd & Hd & _)|Hrefused]; [left; by exists sd|by right].
  - destruct (generate_destroy_named K8S_DIR performs _ preserve_pvc _ Hne
                (or_introl Hms) Hslug)
      as [(sx & Hx & _)|Hrefused]; [left; by exists sx|by right].
Qed.

Lemma script_names_of_catalog_selection_witness :
  ∃ sd, generate_k8s_deploy_script "/repo/platform/k8s" always
          ["Core Applications"; "Messaging"] = Written sd
        ∧ script_filename_sh sd = "deploy_k8s_core_messaging.sh".
Proof.
  assert (Hne : ["Core Applications"; "Messaging"] ≠ []) by done.
  assert (Hnd : NoDup ["Core Applications"; "Messaging"])
    by (apply (bool_decide_unpack _); vm_compute; exact I).
  assert (Hk : Forall (λ g, known_group g = true) ["Core Applications"; "Messaging"])
    by (repeat constructor).
  destruct (script_names_of_catalog_selection "/repo/platform/k8s" always _ false
              Hne Hnd Hk)
    as (slug & Hslug & _ & _ & Hnames & _ & [(sd & Hd)|(e & _ & Hrefused)] & _);
    [|discriminate Hrefused].
  exists sd. split; [exact Hd|]. rewrite (proj1 (Hnames sd Hd)).
  vm_compute in Hslug. by injection Hslug as <-.
Defined.

(** C9 as stated fails: five distinct names, one of them unknown to the
    catalog, or five names with a repetition, give the slug [all]
    although the group News Ingestion Job is not selected. *)
Lemma script_names_counterexample :
  let K := "/repo/platform/k8s" in
  let sel := ["Stateful Backend"; "Messaging"; "Core Applications"; "Scheduling App";
              "Monitoring"] in
  let sel' := ["Stateful Backend"; "Messaging"; "Core Applications"; "Scheduling App";
               "Scheduling App"] in
  (∃ s, generate_k8s_deploy_script K always sel = Written s
        ∧ script_filename_sh s = "deploy_k8s_all.sh")
  ∧ (∃ s, generate_k8s_destroy_script K always sel' false = Written s
          ∧ script_filename_sh s = "destroy_k8s_all.sh")
  ∧ "News Ingestion Job" ∈ catalog_keys
  ∧ ("News Ingestion Job" ∉ sel)
  ∧ ("News Ingestion Job" ∉ sel').
Proof.
  split_and!.
  - eexists. split; vm_compute; reflexivity.
  - eexists. split; vm_compute; reflexivity.
  - apply (bool_decide_unpack _). vm_compute. exact I.
  - apply (bool_decide_unpack _). vm_compute. exact I.
  - apply (bool_decide_unpack _). vm_compute. exact I.
Qed.

(** ** Image extraction *)

Section ImageFacts.

Import Images.

Lemma before_at_no_at s : contains "@" (before_at s) = false.
Proof.
  induction s as [|c s IH]; [done|]. simpl.
  destruct (decide (c = "@"%char)) as [->|Hc]; [done|].
  simpl. destruct (decide ("@"%char = c)) as [<-|_]; [done|]. exact IH.
Qed.

Lemma endswith_app base p : endswith p (base +:+ p) = true.
Proof.
  induction base as [|c base IH].
  - change ("" +:+ p) with p. destruct p; simpl; [done|]. by case_decide.
  - rewrite string_app_cons. simpl. by rewrite IH, orb_true_r.
Qed.

Lemma endswith_inv p s : endswith p s = true → ∃ base, s = base +:+ p.
Proof.
  induction s as [|c s IH]; simpl.
  - destruct (decide (p = "")) as [->|]; [by exists ""|done].
  - destruct (decide (p = String c s)) as [->|_]; [by exists ""|].
    simpl. intros (base & ->)%IH. by exists (String c base).
Qed.

Lemma scan_containers_digest_free cs : digest_free (scan_containers cs).1.
Proof.
  induction cs as [|c cs IH]; simpl; [constructor|].
  destruct (get c "image") as [image|]; [|constructor].
  destruct (truth image); [|done].
  destruct image; try constructor.
  destruct (scan_containers cs) as [found raised]. simpl in *.
  constructor; [apply before_at_no_at|done].
Qed.

Lemma scan_field_digest_free tpl key : digest_free (scan_field tpl key).1.
Proof.
  unfold scan_field. destruct (get tpl key) as [v|]; [|constructor].
  destruct (truth v); [|constructor].
  destruct v; try constructor. apply scan_containers_digest_free.
Qed.

Lemma scan_document_digest_free doc : digest_free (scan_document doc).1.
Proof.
  unfold scan_document. destruct doc as [| | | | |d]; try constructor.
  destruct (dict_get d "kind") as [[| | |kind| |]|]; try constructor.
  destruct (bool_decide _); [|constructor].
  destruct (pod_template _ _) as [tpl|]; [|constructor].
  pose proof (scan_field_digest_free tpl "containers") as H1.
  pose proof (scan_field_digest_free tpl "initContainers") as H2.
  destruct (scan_field tpl "containers") as [found raised].
  destruct raised; [done|].
  destruct (scan_field tpl "initContainers") as [found' raised'].
  simpl in *. by apply Forall_app.
Qed.

Lemma scan_documents_digest_free docs : digest_free (scan_documents docs).1.
Proof.
  induction docs as [|doc docs IH]; simpl; [constructor|].
  pose proof (scan_document_digest_free doc) as H1.
  destruct (scan_document doc) as [found raised].
  destruct raised; [done|].
  destruct (scan_documents docs) as [found' raised'].
  simpl in *. by apply Forall_app.
Qed.

Lemma scan_manifest_digest_free fs path : digest_free (scan_manifest fs path).
Proof.
  unfold scan_manifest. destruct (fs path); [|constructor].
  apply scan_documents_digest_free.
Qed.

Lemma elem_of_extracted fs paths img :
  img ∈ _extract_images_from_manifests fs paths
  ↔ is_local_build img = true ∧ ∃ path, path ∈ paths ∧ img ∈ scan_manifest fs path.
Proof.
  unfold _extract_images_from_manifests.
  rewrite elem_of_sorted_set, elem_of_filter_bool, list_elem_of_In, in_flat_map.
  setoid_rewrite list_elem_of_In. tauto.
Qed.

(** The scan collects the part before the digest of each reference it
    reads, and stops where the reading stops. *)
Lemma scan_containers_references cs :
  scan_containers cs
  = (map before_at (container_references cs).1, (container_references cs).2).
Proof.
  induction cs as [|c cs IH]; simpl; [done|].
  destruct (get c "image") as [image|]; [|done].
  destruct (truth image); [|done].
  destruct image; try done.
  rewrite IH. by destruct (container_references cs).
Qed.

Lemma scan_field_references tpl key :
  scan_field tpl key
  = (map before_at (field_references tpl key).1, (field_references tpl key).2).
Proof.
  unfold scan_field, field_references. destruct (get tpl key) as [v|]; [|done].
  destruct (truth v); [|done].
  destruct v; try done. apply scan_containers_references.
Qed.

Lemma scan_document_references doc :
  scan_document doc
  = (map before_at (document_references doc).1, (document_references doc).2).
Proof.
  unfold scan_document, document_references. destruct doc as [| | | | |d]; try done.
  destruct (dict_get d "kind") as [[| | |kind| |]|]; try done.
  destruct (bool_decide _); [|done].
  destruct (pod_template _ _) as [tpl|]; [|done].
  rewrite !scan_field_references.
  destruct (field_references tpl "containers") as [found raised]. simpl.
  destruct raised; [done|].
  destruct (field_references tpl "initContainers") as [found' raised']. simpl.
  by rewrite map_app.
Qed.

Lemma scan_documents_references docs :
  scan_documents docs
  = (map before_at (documents_references docs).1, (documents_references docs).2).
Proof.
  induction docs as [|doc docs IH]; simpl; [done|].
  rewrite scan_document_references.
  destruct (document_references doc) as [found raised]. simpl.
  destruct raised; [done|].
  rewrite IH. destruct (documents_references docs) as [found' raised']. simpl.
  by rewrite map_app.
Qed.

Lemma scan_manifest_references fs path :
  scan_manifest fs path = map before_at (manifest_references fs path).
Proof.
  unfold scan_manifest, manifest_references. destruct (fs path) as [f|]; [|done].
  by rewrite scan_documents_references.
Qed.

(** Reading goes through the documents that scan without an exception
    and stops at the first that raises. *)
Lemma documents_references_app_ok before rest :
  (documents_references before).2 = false →
  documents_references (before ++ rest)
  = ((documents_references before).1 ++ (documents_references rest).1,
     (documents_references rest).2).
Proof.
  induction before as [|doc before IH]; simpl.
  - intros _. by destruct (documents_references rest).
  - destruct (document_references doc) as [found raised]. destruct raised; [done|].
    destruct (documents_references before) as [found' raised'] eqn:Hb. simpl in *.
    intros ->. rewrite IH by done. simpl. by rewrite app_assoc.
Qed.

Lemma contains_app_r sub a b : contains sub b = true → contains sub (a +:+ b) = true.
Proof.
  intros Hb. induction a as [|c a IH]; [done|].
  change (String c a +:+ b) with (String c (a +:+ b)). simpl.
  by rewrite IH, orb_true_r.
Qed.

(** A reference tagged [latest] and pinned by a digest is read as its
    name and tag. *)
Lemma before_at_pinned_latest name digest :
  contains "@" name = false →
  before_at (name +:+ ":latest@" +:+ digest) = name +:+ ":latest".
Proof.
  induction name as [|c name IH]; [done|].
  change (String c name +:+ ":latest@" +:+ digest)
    with (String c (name +:+ ":latest@" +:+ digest)).
  change (String c name +:+ ":latest") with (String c (name +:+ ":latest")).
  simpl. destruct (decide (c = "@"%char)) as [->|Hc]; [done|].
  destruct (decide ("@"%char = c)) as [<-|_]; [done|].
  simpl. intros Hname. by rewrite IH.
Qed.

End ImageFacts.

(** C6 (as amended). For every file system and list of manifest paths,
    image extraction returns a list (every exception is caught inside
    its loop): a strictly increasing list, hence sorted and free of
    duplicates, in which every element contains a tag separator, ends
    with the tag [:latest] and contains no digest separator. A reference
    is considered by the part before its digest: the list holds exactly
    those parts, of the references read from the manifests, that pass
    the tag test. So a reference pinned by a digest and tagged [latest]
    contributes its name and tag, and a pinned reference whose part
    before the digest is not tagged [latest] contributes nothing. A
    manifest that does not exist, or from which no document is loaded,
    contributes nothing; a manifest whose scan raises at a document
    contributes what was read up to there, and the rest of the file is
    not read. *)
Theorem extracted_images_latest_only (fs : file_system) (manifest_paths : list string) :
  let images := Images._extract_images_from_manifests fs manifest_paths in
  StronglySorted (strict String.le) images
  ∧ NoDup images
  ∧ (∀ img, img ∈ images →
       contains ":" img = true
       ∧ (∃ base, img = base +:+ ":latest")
       ∧ contains "@" img = false)
  ∧ (∀ img, img ∈ images
       ↔ ∃ path ref, path ∈ manifest_paths
                     ∧ ref ∈ Images.manifest_references fs path
                     ∧ img = Images.before_at ref
                     ∧ Images.is_local_build img = true)
  ∧ (∀ path name digest,
       path ∈ manifest_paths →
       name +:+ ":latest@" +:+ digest ∈ Images.manifest_references fs path →
       contains "@" name = false →
       name +:+ ":latest" ∈ images)
  ∧ (∀ path ref,
       path ∈ manifest_paths →
       ref ∈ Images.manifest_references fs path →
       contains "@" ref = true →
       endswith ":latest" (Images.before_at ref) = false →
       (ref ∉ images) ∧ (Images.before_at ref ∉ images))
  ∧ (∀ path, fs path = None → Images.manifest_references fs path = [])
  ∧ (∀ path f, fs path = Some f → documents f = [] →
       Images.manifest_references fs path = [])
  ∧ (∀ path f before bad rest,
       fs path = Some f → documents f = before ++ bad :: rest →
       (Images.documents_references before).2 = false →
       (Images.document_references bad).2 = true →
       Images.manifest_references fs path
       = (Images.documents_references before).1 ++ (Images.document_references bad).1).
Proof.
  intros images.
  assert (Hshape : ∀ img, img ∈ images →
            contains ":" img = true
            ∧ (∃ base, img = base +:+ ":latest")
            ∧ contains "@" img = false).
  { intros img Himg. unfold images, Images._extract_images_from_manifests in Himg.
    apply elem_of_sorted_set, elem_of_filter_bool in Himg as [Hin Hlocal].
    unfold Images.is_local_build in Hlocal. apply andb_true_iff in Hlocal as [Hcolon Hlatest].
    split_and!; [done|by apply endswith_inv|].
    apply list_elem_of_In, in_flat_map in Hin as (path & _ & Hin).
    pose proof (scan_manifest_digest_free fs path) as Hfree.
    unfold Images.digest_free in Hfree. rewrite Forall_forall in Hfree.
    by apply Hfree, list_elem_of_In. }
  assert (Hiff : ∀ img, img ∈ images
            ↔ ∃ path ref, path ∈ manifest_paths
                          ∧ ref ∈ Images.manifest_references fs path
                          ∧ img = Images.before_at ref
                          ∧ Images.is_local_build img = true).
  { intros img. unfold images. rewrite elem_of_extracted. split.
    - intros (Hlocal & path & Hpath & Hin).
      rewrite scan_manifest_references in Hin.
      apply list_elem_of_fmap in Hin as (ref & -> & Href). eauto 6.
    - intros (path & ref & Hpath & Href & -> & Hlocal). split; [done|].
      exists path. split; [done|]. rewrite scan_manifest_references.
      apply list_elem_of_fmap. eauto. }
  split_and!.
  - apply sorted_set_strict.
  - apply NoDup_sorted_set.
  - exact Hshape.
  - exact Hiff.
  - intros path name digest Hpath Href Hname. apply Hiff.
    exists path, (name +:+ ":latest@" +:+ digest).
    rewrite before_at_pinned_latest by done. split_and!; [done..|].
    unfold Images.is_local_build. apply andb_true_iff. split.
    + by apply contains_app_r.
    + apply endswith_app.
  - intros path ref Hpath Href Hat Htag. split.
    + intros Hin. apply Hshape in Hin as (_ & _ & Hno). congruence.
    + intros Hin. apply Hshape in Hin as (_ & (base & Hbase) & _).
      rewrite Hbase, endswith_app in Htag. done.
  - intros path Hnone. unfold Images.manifest_references. by rewrite Hnone.
  - intros path f Hf Hdocs. unfold Images.manifest_references. by rewrite Hf, Hdocs.
  - intros path f before bad rest Hf Hdocs Hok Hbad.
    unfold Images.manifest_references. rewrite Hf, Hdocs.
    rewrite documents_references_app_ok by done. simpl.
    destruct (Images.document_references bad) as [found raised]. simpl in *.
    by rewrite Hbad.
Qed.

Lemma extracted_images_latest_only_witness :
  let container (image : string) := YMap [("name", YStr "c"); ("image", YStr image)] in
  let workload (images : list string) :=
    YMap [("kind", YStr "Deployment");
          ("spec", YMap [("template",
             YMap [("spec", YMap [("containers", YSeq (map container images))])])])] in
  let broken := YMap [("kind", YStr "Job"); ("spec", YStr "none")] in
  let fs : file_system :=
    λ path, if decide (path = "/repo/platform/k8s/apps/app.yaml")
            then Some {| documents :=
                           [ workload ["app:latest@sha256:0a1b"; "db:15@sha256:9f"; "web:latest"];
                             broken;
                             workload ["late:latest"] ];
                         load_error := false |}
            else None in
  Images._extract_images_from_manifests fs
    ["/repo/platform/k8s/apps/app.yaml"; "/repo/platform/k8s/apps/none.yaml"]
  = ["app:latest"; "web:latest"]
  ∧ Images.manifest_references fs "/repo/platform/k8s/apps/app.yaml"
    = ["app:latest@sha256:0a1b"; "db:15@sha256:9f"; "web:latest"]
  ∧ "app:latest"
    ∈ Images._extract_images_from_manifests fs
        ["/repo/platform/k8s/apps/app.yaml"; "/repo/platform/k8s/apps/none.yaml"]
  ∧ ("db:15"
     ∉ Images._extract_images_from_manifests fs
         ["/repo/platform/k8s/apps/app.yaml"; "/repo/platform/k8s/apps/none.yaml"]).
Proof.
  intros container workload broken fs.
  pose proof (extracted_images_latest_only fs
                ["/repo/platform/k8s/apps/app.yaml"; "/repo/platform/k8s/apps/none.yaml"])
    as (_ & _ & _ & _ & Hpinned & Hother & _ & _ & Hstop).
  assert (Hrefs : Images.manifest_references fs "/repo/platform/k8s/apps/app.yaml"
                  = ["app:latest@sha256:0a1b"; "db:15@sha256:9f"; "web:latest"]).
  { rewrite (Hstop "/repo/platform/k8s/apps/app.yaml" _
               [workload ["app:latest@sha256:0a1b"; "db:15@sha256:9f"; "web:latest"]]
               broken [workload ["late:latest"]] eq_refl eq_refl eq_refl eq_refl).
    reflexivity. }
  assert (Hpath : "/repo/platform/k8s/apps/app.yaml"
                  ∈ ["/repo/platform/k8s/apps/app.yaml"; "/repo/platform/k8s/apps/none.yaml"])
    by apply list_elem_of_here.
  split_and!.
  - vm_compute. reflexivity.
  - exact Hrefs.
  - apply (Hpinned "/repo/platform/k8s/apps/app.yaml" "app" "sha256:0a1b" Hpath);
      [|reflexivity].
    rewrite Hrefs. apply list_elem_of_here.
  - apply (Hother "/repo/platform/k8s/apps/app.yaml" "db:15@sha256:9f" Hpath);
      [|reflexivity|reflexivity].
    rewrite Hrefs. apply list_elem_of_further, list_elem_of_here.
Defined.

(** C6 as stated fails: a manifest whose only image reference is pinned
    by digest and tagged [latest] yields a build candidate. *)
Lemma extracted_images_counterexample :
  let container := YMap [("name", YStr "app"); ("image", YStr "app:latest@sha256:0a1b")] in
  let doc :=
    YMap [("kind", YStr "Deployment");
          ("spec", YMap [("template", YMap [("spec", YMap [("containers", YSeq [container])])])])] in
  let fs : file_system :=
    λ path, if decide (path = "/repo/platform/k8s/apps/app.yaml")
            then Some {| documents := [doc]; load_error := false |} else None in
  contains "@" "app:latest@sha256:0a1b" = true
  ∧ Images._extract_images_from_manifests fs ["/repo/platform/k8s/apps/app.yaml"]
    = ["app:latest"].
Proof. split; vm_compute; reflexivity. Qed.

(** ** Readiness monitor: attribution of pods to controllers *)

Section AttributionFacts.

Import Readiness.

Lemma split_dash_first_no_dash owner : contains "-" (split_dash_first owner) = false.
Proof.
  induction owner as [|c s IH]; [done|]. simpl.
  destruct (decide (c = "-"%char)) as [->|Hc]; [done|].
  simpl. destruct (decide ("-"%char = c)) as [<-|_]; [done|]. exact IH.
Qed.

(** The controller name computed for a pod never contains a hyphen. *)
Lemma owner_prefix_no_dash owner : contains "-" (owner_prefix_of owner) = false.
Proof.
  unfold owner_prefix_of. destruct (contains "-" owner) eqn:Hd; [|done].
  apply split_dash_first_no_dash.
Qed.

Lemma scan_pod_dash_free maps p :
  dash_free_keys maps.1 → dash_free_keys (scan_pod maps p).1.
Proof.
  intros Hinv. unfold scan_pod.
  destruct (fold_left _ _ _) as [restarts reasons].
  destruct (find_owner _) as [[|c o]|]; try done.
  assert (Hins : dash_free_keys
            (<[owner_prefix_of (String c o) :=
                 default 0 (maps.1 !! owner_prefix_of (String c o)) + restarts]> maps.1)).
  { intros k [Hk|[_ Hk]]%lookup_insert_is_Some.
    - rewrite <- Hk. apply owner_prefix_no_dash.
    - by apply Hinv. }
  by destruct (_ && _).
Qed.

Lemma fold_scan_pod_dash_free pods maps :
  dash_free_keys maps.1 → dash_free_keys (fold_left scan_pod pods maps).1.
Proof.
  revert maps. induction pods as [|p pods IH]; intros maps Hinv; [done|].
  simpl. by apply IH, scan_pod_dash_free.
Qed.

(** X12. Hence no restart is ever attributed to a controller whose own
    name contains a hyphen. *)
Lemma hyphenated_controller_gets_no_restarts pods_query controller :
  contains "-" controller = true → (scan_pods pods_query).1 !! controller = None.
Proof.
  intros Hdash. destruct ((scan_pods pods_query).1 !! controller) eqn:Hlook; [|done].
  assert (Hfree : dash_free_keys (scan_pods pods_query).1).
  { unfold scan_pods. destruct pods_query as [pods|].
    - apply fold_scan_pod_dash_free. intros k [x Hx]. simpl in Hx.
      by rewrite lookup_empty in Hx.
    - intros k [x Hx]. simpl in Hx. by rewrite lookup_empty in Hx. }
  rewrite (Hfree controller) in Hdash; [done|by eexists].
Qed.

(** C4, evaluated. Two pods of ReplicaSet [web-7f9c8] with 2 and 1
    restarts give controller [web] 3 restarts. Two pods of ReplicaSet
    [llm-worker-7f9c8] give 3 restarts to [llm], none to [llm-worker],
    and the table row of Deployment [llm-worker] shows no error; a pod
    of StatefulSet [postgres-metastore] is attributed to [postgres]; a
    pod whose containers wait for two different reasons keeps the last
    one. *)
Theorem owner_attribution_first_segment :
  let cs r := {| restartCount := r; state_waiting := None; state_terminated := None |} in
  let waiting r why :=
    {| restartCount := r; state_waiting := Some (Some why); state_terminated := None |} in
  let owned_by k owner n statuses :=
    {| metadata_name := n; containerStatuses := statuses;
       ownerReferences := [ {| ref_kind := k; ref_name := owner |} ] |} in
  let web := scan_pods (Some [ owned_by "ReplicaSet" "web-7f9c8" "a" [cs 2];
                               owned_by "ReplicaSet" "web-7f9c8" "b" [cs 1] ]) in
  let llm_pods := [ owned_by "ReplicaSet" "llm-worker-7f9c8" "a" [cs 2];
                    owned_by "ReplicaSet" "llm-worker-7f9c8" "b" [cs 1] ] in
  let llm := scan_pods (Some llm_pods) in
  let pg := scan_pods (Some [ owned_by "StatefulSet" "postgres-metastore"
                                "postgres-metastore-0" [cs 4] ]) in
  let two := scan_pods (Some [ owned_by "ReplicaSet" "web-7f9c8" "a"
                                 [waiting 0 "CrashLoopBackOff"; waiting 0 "ImagePullBackOff"] ]) in
  web.1 !! "web" = Some 3
  ∧ llm.1 !! "llm" = Some 3
  ∧ llm.1 !! "llm-worker" = None
  ∧ rows (tick [ {| kind := "Deployment"; name := "llm-worker"; ready := 1; replicas := 1 |} ]
            (Some llm_pods))
    = [ {| row_kind := "Deployment"; row_name := "llm-worker"; row_ready := 1;
           row_desired := 1; row_errors := "" |} ]
  ∧ pg.1 !! "postgres" = Some 4
  ∧ pg.1 !! "postgres-metastore" = None
  ∧ two.2 !! "web" = Some "ImagePullBackOff".
Proof. split_and!; vm_compute; reflexivity. Qed.

End AttributionFacts.

(** ** Readiness monitor: the polling loop *)

Section PollingFacts.

Import Readiness.

Lemma is_ready_iff s : is_ready s = true ↔ 0 < replicas s ∧ replicas s ≤ ready s.
Proof. unfold is_ready. rewrite andb_true_iff, Z.leb_le, Z.ltb_lt. tauto. Qed.

Lemma tick_fold_counts maps l acc :
  let r := fold_left
             (λ acc s,
                {| rows := rows acc ++ [make_row maps s];
                   ready_count := if is_ready s then ready_count acc + 1 else ready_count acc;
                   total := total acc + 1 |}) l acc in
  total r = total acc + Z.of_nat (length l)
  ∧ ready_count r = ready_count acc + Z.of_nat (length (List.filter is_ready l)).
Proof.
  revert acc. induction l as [|s l IH]; intros acc; simpl; [lia|].
  destruct (IH {| rows := rows acc ++ [make_row maps s];
                  ready_count := if is_ready s then ready_count acc + 1 else ready_count acc;
                  total := total acc + 1 |}) as [Ht Hr].
  rewrite Ht, Hr. simpl. destruct (is_ready s); simpl; lia.
Qed.

Lemma filter_length_all {A} (f : A → bool) (l : list A) :
  length (List.filter f l) = length l ↔ Forall (λ x, f x = true) l.
Proof.
  induction l as [|x l IH]; simpl; [by split; [constructor|]|].
  pose proof (List.filter_length_le f l) as Hle.
  destruct (f x) eqn:Hx; simpl.
  - rewrite Forall_cons, <- IH. split; [intros [= ->]|intros [_ ->]]; auto.
  - split; [lia|]. intros [Hfx _]%Forall_cons. congruence.
Qed.

(** The convergence test of one iteration: at least one controller, and
    every controller ready. *)
Lemma converged_iff o :
  converged o = true
  ↔ load_statuses (deploy_query o) (statefulset_query o) ≠ []
    ∧ Forall (λ s, 0 < replicas s ∧ replicas s ≤ ready s)
        (load_statuses (deploy_query o) (statefulset_query o)).
Proof.
  unfold converged, observe, tick.
  set (statuses := load_statuses (deploy_query o) (statefulset_query o)).
  destruct (tick_fold_counts (scan_pods (pods_query o)) (merge_sort key_le statuses)
              {| rows := []; ready_count := 0; total := 0 |}) as [Ht Hr].
  cbv zeta in Ht, Hr. rewrite Ht, Hr. simpl.
  rewrite andb_true_iff, Z.ltb_lt, Z.eqb_eq.
  assert (Hperm : merge_sort key_le statuses ≡ₚ statuses) by apply merge_sort_Permutation.
  assert (Hlen : length (merge_sort key_le statuses) = length statuses)
    by by rewrite Hperm.
  assert (Hall : Forall (λ s, is_ready s = true) (merge_sort key_le statuses)
                 ↔ Forall (λ s, 0 < replicas s ∧ replicas s ≤ ready s) statuses).
  { rewrite Hperm. apply Forall_proper; [|done]. intros s. apply is_ready_iff. }
  rewrite <- Hall, <- filter_length_all, Hlen.
  destruct statuses as [|s statuses]; simpl in *; split; intros [H1 H2]; try done; try lia.
  split; [done|lia].
Qed.

Variable timeout_seconds : Z.
Variable world : nat → observation.

(** The loop started at iteration [start] breaks at the first iteration
    from there on whose tests succeed, if its fuel reaches that far. *)
Lemma polling_loop_first_exit fuel start n :
  (start ≤ n)%nat → (n - start < fuel)%nat →
  (∀ i, (start ≤ i < n)%nat → exits_at timeout_seconds world i = false) →
  exits_at timeout_seconds world n = true →
  polling_loop fuel timeout_seconds world start = Some (reason_at world n, n).
Proof.
  revert start. induction fuel as [|fuel IH]; intros start Hle Hfuel Hbefore Hn; [lia|].
  simpl. destruct (decide (start = n)) as [->|Hne].
  - unfold exits_at, reason_at in *. destruct (converged (world n)); [done|].
    simpl in Hn. by rewrite Hn.
  - assert (Hs : exits_at timeout_seconds world start = false) by (apply Hbefore; lia).
    unfold exits_at in Hs. apply orb_false_iff in Hs as [-> ->].
    apply IH; [lia|lia| |done]. intros i Hi. apply Hbefore. lia.
Qed.

Lemma first_exit_search N :
  (∃ n, (n ≤ N)%nat ∧ exits_at timeout_seconds world n = true ∧ ∀ i, (i < n)%nat → exits_at timeout_seconds world i = false)
  ∨ (∀ i, (i ≤ N)%nat → exits_at timeout_seconds world i = false).
Proof.
  induction N as [|N [(n & Hn & Hexit & Hfirst)|Hnone]].
  - destruct (exits_at timeout_seconds world 0%nat) eqn:H0.
    + left. exists 0%nat. split_and!; [done|done|]. intros i Hi. lia.
    + right. intros i Hi. by replace i with 0%nat by lia.
  - left. exists n. split_and!; [lia|done|done].
  - destruct (exits_at timeout_seconds world (S N)) eqn:HS.
    + left. exists (S N). split_and!; [done|done|]. intros i Hi. apply Hnone. lia.
    + right. intros i Hi. destruct (decide (i = S N)) as [->|Hne]; [done|].
      apply Hnone. lia.
Qed.

Lemma first_exit_exists N :
  exits_at timeout_seconds world N = true →
  ∃ n, (n ≤ N)%nat ∧ exits_at timeout_seconds world n = true ∧ ∀ i, (i < n)%nat → exits_at timeout_seconds world i = false.
Proof.
  intros HN. destruct (first_exit_search N) as [Hfound|Hnone]; [done|].
  rewrite Hnone in HN; [done|lia].
Qed.

(** With a clock that starts at a non-negative reading and advances by
    at least one second per iteration, the [i]-th reading is at least
    [i] seconds. *)
Lemma elapsed_lower_bound :
  (0 <= elapsed (world 0%nat))%Q →
  (∀ i, (elapsed (world i) + 1 <= elapsed (world (S i)))%Q) →
  ∀ i, (inject_Z (Z.of_nat i) <= elapsed (world i))%Q.
Proof.
  intros H0 Hstep. induction i as [|i IH]; [exact H0|].
  rewrite Nat2Z.inj_succ. unfold Z.succ. rewrite inject_Z_plus.
  specialize (Hstep i). change (inject_Z 1) with 1%Q. lra.
Qed.

Lemma timed_out_eventually :
  (0 <= elapsed (world 0%nat))%Q →
  (∀ i, (elapsed (world i) + 1 <= elapsed (world (S i)))%Q) →
  timed_out timeout_seconds (world (Z.to_nat timeout_seconds)) = true.
Proof.
  intros H0 Hstep. unfold timed_out. apply Qle_bool_iff.
  eapply Qle_trans; [|by apply elapsed_lower_bound].
  rewrite <- Zle_Qle. lia.
Qed.

End PollingFacts.

(** C5. Against a clock that does not start negative and advances by at
    least one second per iteration (the [time.sleep(1)] of the loop), the
    polling loop terminates: there is an iteration [n], not later than
    the timeout in seconds, at which it breaks whatever fuel exceeds
    [n]; no earlier iteration passes either test; it breaks as converged
    exactly when iteration [n] sees at least one controller and every
    controller has [desired > 0] and [ready >= desired], and as timed
    out exactly when it does not and the elapsed time has reached the
    timeout. Both exits are ordinary results. *)
Theorem polling_loop_terminates
    (timeout_seconds : Z) (world : nat → Readiness.observation) :
  (0 <= Readiness.elapsed (world 0%nat))%Q →
  (∀ i, (Readiness.elapsed (world i) + 1 <= Readiness.elapsed (world (S i)))%Q) →
  ∃ n reason,
    (n ≤ Z.to_nat timeout_seconds)%nat
    ∧ (∀ fuel, (n < fuel)%nat →
         Readiness.wait_for_readiness fuel timeout_seconds world = Some (reason, n))
    ∧ (∀ i, (i < n)%nat →
         Readiness.converged (world i) = false
         ∧ Readiness.timed_out timeout_seconds (world i) = false)
    ∧ (reason = Readiness.Converged ↔ Readiness.converged (world n) = true)
    ∧ (reason = Readiness.TimedOut ↔
         Readiness.converged (world n) = false
         ∧ (inject_Z timeout_seconds <= Readiness.elapsed (world n))%Q)
    ∧ (∀ i, Readiness.converged (world i) = true ↔
         let statuses :=
           Readiness.load_statuses (Readiness.deploy_query (world i))
             (Readiness.statefulset_query (world i)) in
         statuses ≠ []
         ∧ Forall (λ s, 0 < Readiness.replicas s
                        ∧ Readiness.replicas s ≤ Readiness.ready s) statuses).
Proof.
  intros H0 Hstep.
  pose proof (timed_out_eventually timeout_seconds world H0 Hstep) as Hlast.
  assert (HN : Readiness.exits_at timeout_seconds world (Z.to_nat timeout_seconds) = true).
  { unfold Readiness.exits_at. by rewrite Hlast, orb_true_r. }
  destruct (first_exit_exists _ _ _ HN) as (n & Hn & Hexit & Hfirst).
  exists n, (Readiness.reason_at world n). split_and!.
  - done.
  - intros fuel Hfuel. unfold Readiness.wait_for_readiness.
    apply polling_loop_first_exit; [lia|lia| |done]. intros i Hi. apply Hfirst. lia.
  - intros i Hi. specialize (Hfirst i Hi). unfold Readiness.exits_at in Hfirst.
    by apply orb_false_iff in Hfirst.
  - unfold Readiness.reason_at. by destruct (Readiness.converged (world n)).
  - unfold Readiness.reason_at, Readiness.exits_at, Readiness.timed_out in *.
    rewrite <- Qle_bool_iff.
    destruct (Readiness.converged (world n)); simpl in *; split; try done.
    all: by intros [? _].
  - intros i. apply converged_iff.
Qed.

(** One Deployment with one desired and one ready replica: the loop
    breaks as converged in its first iteration. *)
Lemma polling_loop_terminates_witness :
  let web := {| Readiness.item_name := "web"; Readiness.spec_replicas := Some 1;
                Readiness.status_readyReplicas := Some 1 |} in
  let world := λ i : nat,
    {| Readiness.deploy_query := Some [web]; Readiness.statefulset_query := Some [];
       Readiness.pods_query := Some []; Readiness.elapsed := inject_Z (Z.of_nat i) |} in
  Readiness.wait_for_readiness 1 Readiness.default_timeout_seconds world
  = Some (Readiness.Converged, 0%nat).
Proof.
  intros web world.
  assert (H0 : (0 <= Readiness.elapsed (world 0%nat))%Q) by (vm_compute; discriminate).
  assert (Hstep : ∀ i, (Readiness.elapsed (world i) + 1
                        <= Readiness.elapsed (world (S i)))%Q).
  { intros i. simpl. rewrite Nat2Z.inj_succ. unfold Z.succ. rewrite inject_Z_plus.
    change (inject_Z 1) with 1%Q. lra. }
  destruct (polling_loop_terminates Readiness.default_timeout_seconds world H0 Hstep)
    as (n & reason & _ & Hrun & Hbefore & Hconv & _).
  assert (Hn : n = 0%nat).
  { destruct n as [|n]; [done|]. destruct (Hbefore 0%nat) as [Hc _]; [lia|].
    vm_compute in Hc. discriminate. }
  subst n. rewrite (Hrun 1%nat) by lia.
  assert (reason = Readiness.Converged) as -> by (apply Hconv; vm_compute; reflexivity).
  reflexivity.
Defined.

(** A controller that never becomes ready: the loop breaks as timed out
    at the first iteration whose elapsed time reaches the timeout. *)
Lemma polling_loop_timeout_example :
  let web := {| Readiness.item_name := "web"; Readiness.spec_replicas := Some 2;
                Readiness.status_readyReplicas := Some 1 |} in
  let world := λ i : nat,
    {| Readiness.deploy_query := Some [web]; Readiness.statefulset_query := None;
       Readiness.pods_query := None; Readiness.elapsed := inject_Z (Z.of_nat i) |} in
  Readiness.wait_for_readiness 10 3 world = Some (Readiness.TimedOut, 3%nat)
  ∧ Readiness.wait_for_readiness 3 3 world = None.
Proof. split; vm_compute; reflexivity. Qed.

(** * Further properties *)

(** ** Resolver *)

Section ResolverMore.

Variable K8S_DIR : string.

Lemma elem_of_selected_manifests sel m :
  m ∈ selected_manifests K8S_DIR sel
  ↔ ∃ g, g ∈ sel ∧ m ∈ map (os_path_join K8S_DIR) (group_manifests g).
Proof.
  unfold selected_manifests. rewrite list_elem_of_In, in_flat_map.
  by setoid_rewrite list_elem_of_In.
Qed.

Lemma elem_of_selected_releases sel r :
  r ∈ selected_releases sel ↔ ∃ g, g ∈ sel ∧ r ∈ group_helm_releases g.
Proof.
  unfold selected_releases. rewrite list_elem_of_In, in_flat_map.
  by setoid_rewrite list_elem_of_In.
Qed.

Lemma startswith_app a b : startswith a (a +:+ b) = true.
Proof.
  induction a as [|c a IH]; [done|].
  rewrite string_app_cons. simpl. by rewrite decide_True.
Qed.

Lemma startswith_app_l p a b : startswith p a = true → startswith p (a +:+ b) = true.
Proof.
  revert a. induction p as [|c p IH]; intros a; [done|].
  destruct a as [|d a]; [done|]. rewrite string_app_cons. simpl.
  destruct (decide (c = d)); [apply IH|done].
Qed.

Lemma contains_app_l sub a b : contains sub a = true → contains sub (a +:+ b) = true.
Proof.
  induction a as [|c a IH].
  - simpl. destruct sub; [|done]. intros _. by destruct b.
  - rewrite string_app_cons. simpl. intros [H|H]%orb_true_iff.
    + apply orb_true_iff. left.
      by apply (startswith_app_l sub (String c a) b).
    + apply orb_true_iff. right. by apply IH.
Qed.

(** A relative path is joined below the root. *)
Lemma os_path_join_relative a b :
  startswith "/" b = false → ∃ mid, os_path_join a b = a +:+ mid +:+ b.
Proof.
  intros Hb. unfold os_path_join. rewrite Hb.
  destruct (_ || _); [by exists ""|by exists "/"].
Qed.

Lemma dict_get_elem {V} (d : list (string * V)) (key : string) (v : V) :
  dict_get d key = Some v → (key, v) ∈ d.
Proof.
  induction d as [|[k w] d IH]; [done|]. simpl.
  destruct (decide (k = key)) as [->|_].
  - intros [= ->]. apply list_elem_of_here.
  - intros H. apply list_elem_of_further, IH, H.
Qed.

(** No manifest of the catalog is an absolute path. *)
Lemma catalog_manifests_relative g rel :
  rel ∈ group_manifests g → startswith "/" rel = false.
Proof.
  assert (Hall : Forall (λ entry, Forall (λ rel, startswith "/" rel = false)
                                    (manifests entry.2)) K8S_SERVICE_GROUPS)
    by (repeat constructor).
  unfold group_manifests.
  destruct (dict_get K8S_SERVICE_GROUPS g) as [data|] eqn:Hd;
    [|by intros ?%elem_of_nil].
  apply dict_get_elem in Hd. rewrite Forall_forall in Hall.
  specialize (Hall _ Hd). rewrite Forall_forall in Hall. apply Hall.
Qed.

End ResolverMore.

(** X1. The resolver depends only on which names are selected: two
    selections with the same members, in any order and with any
    repetition, resolve to the same manifests and releases. *)
Theorem resolve_same_members (K8S_DIR : string) (sel sel' : list string) :
  (∀ g, g ∈ sel ↔ g ∈ sel') →
  get_group_resources K8S_DIR sel = get_group_resources K8S_DIR sel'.
Proof.
  intros Hsame. rewrite !get_group_resources_eq. f_equal; apply sorted_set_ext.
  - intros m. rewrite !elem_of_selected_manifests. by setoid_rewrite Hsame.
  - intros r. rewrite !elem_of_selected_releases. by setoid_rewrite Hsame.
Qed.

Lemma resolve_same_members_witness :
  get_group_resources "/repo/platform/k8s" ["Messaging"; "Scheduling App"; "Messaging"]
  = get_group_resources "/repo/platform/k8s" ["Scheduling App"; "Messaging"].
Proof.
  apply resolve_same_members. intros g. rewrite !elem_of_cons, !elem_of_nil. tauto.
Defined.

(** X2. Every manifest path the resolver returns starts with the
    manifests root, and every release it returns belongs to a selected
    group of the catalog. *)
Theorem resolved_paths_under_root (K8S_DIR : string) (sel : list string) :
  (∀ m, m ∈ (get_group_resources K8S_DIR sel).1 → startswith K8S_DIR m = true)
  ∧ (∀ r, r ∈ (get_group_resources K8S_DIR sel).2 →
       ∃ g data, g ∈ sel ∧ dict_get K8S_SERVICE_GROUPS g = Some data
                 ∧ r ∈ helm_releases data).
Proof.
  split.
  - intros m (g & _ & Hm)%elem_of_resolved_manifests.
    apply list_elem_of_fmap in Hm as (rel & -> & Hrel).
    destruct (os_path_join_relative K8S_DIR rel) as [mid ->];
      [by eapply catalog_manifests_relative|].
    apply startswith_app.
  - intros r (g & Hg & Hr)%elem_of_resolved_releases.
    unfold group_helm_releases in Hr.
    destruct (dict_get K8S_SERVICE_GROUPS g) as [data|] eqn:Hd; [eauto|].
    by apply elem_of_nil in Hr.
Qed.

(** ** What the generators do with a selection *)

Section GeneratorOutcomes.

Variable K8S_DIR : string.

Lemma resolve_unknown_only sel :
  Forall (λ g, known_group g = false) sel →
  get_group_resources K8S_DIR sel = ([], []).
Proof.
  intros Hall. rewrite get_group_resources_eq.
  rewrite <- selected_manifests_known, <- selected_releases_known.
  assert (List.filter known_group sel = []) as ->; [|done].
  induction Hall as [|g sel Hg _ IH]; [done|]. simpl. by rewrite Hg.
Qed.

Lemma first_word_none_iff g : first_word g = None ↔ lstrip g = "".
Proof. unfold first_word. by destruct (lstrip g). Qed.

Lemma slug_words_none_iff sel :
  slug_words sel = None ↔ ∃ g, g ∈ sel ∧ lstrip g = "".
Proof.
  unfold slug_words. induction sel as [|g sel IH]; cbn [mapM].
  - split; [done|]. by intros (g & ?%elem_of_nil & _).
  - destruct (first_word g) as [w|] eqn:Hw; simpl.
    + destruct (mapM _ sel) as [ws|] eqn:Hws; simpl.
      * split; [done|]. intros (g' & [->|Hin]%elem_of_cons & Hg').
        -- apply first_word_none_iff in Hg'. congruence.
        -- assert (Hnone : Some ws = None) by (apply IH; eauto). done.
      * split; [|done]. intros _. destruct IH as [IH _].
        destruct (IH eq_refl) as (g' & Hin & Hg'). exists g'. split; [|done].
        by apply list_elem_of_further.
    + split; [|done]. intros _. exists g. split; [apply list_elem_of_here|].
      by apply first_word_none_iff.
Qed.

Lemma script_name_part_none_iff sel :
  script_name_part sel = None
  ↔ length sel ≠ length K8S_SERVICE_GROUPS ∧ ∃ g, g ∈ sel ∧ lstrip g = "".
Proof.
  unfold script_name_part.
  destruct (Nat.eqb_spec (length sel) (length K8S_SERVICE_GROUPS)) as [He|He].
  - split; [done|]. by intros [? _].
  - rewrite <- slug_words_none_iff. destruct (slug_words sel); simpl; split; try done.
    all: by intros [_ ?].
Qed.

End GeneratorOutcomes.

(** X3. A selection made only of names the catalog does not know
    never gets a file from either generator, and never makes one raise
    the [IndexError] of a name without a word, even when a name is
    blank: each generator returns early, unless the console refuses one
    of its messages. *)
Theorem unknown_selection_writes_nothing
    (K8S_DIR : string) (performs : effect → bool)
    (selected_groups : list string) (preserve_pvc : bool) :
  Forall (λ g, known_group g = false) selected_groups →
  let deployed := generate_k8s_deploy_script K8S_DIR performs selected_groups in
  let destroyed := generate_k8s_destroy_script K8S_DIR performs selected_groups preserve_pvc in
  (deployed = Skipped
   ∨ ∃ markup, deployed = Raised (Failed (Print markup)) ∧ performs (Print markup) = false)
  ∧ (destroyed = Skipped
     ∨ ∃ markup, destroyed = Raised (Failed (Print markup))
                 ∧ performs (Print markup) = false).
Proof.
  intros Hall deployed destroyed. subst deployed destroyed.
  unfold generate_k8s_deploy_script, generate_k8s_destroy_script.
  rewrite (resolve_unknown_only K8S_DIR _ Hall).
  split; destruct selected_groups; case_effects; eauto.
Qed.

Lemma unknown_selection_writes_nothing_witness :
  generate_k8s_deploy_script "/repo/platform/k8s" always ["Monitoring"; " "] = Skipped
  ∧ generate_k8s_destroy_script "/repo/platform/k8s" always ["Monitoring"; " "] true
    = Skipped.
Proof.
  assert (Hall : Forall (λ g, known_group g = false) ["Monitoring"; " "])
    by (repeat constructor).
  destruct (unknown_selection_writes_nothing "/repo/platform/k8s" always _ true Hall)
    as ([Hd|(markup & _ & Hrefused)] & [Hx|(markup' & _ & Hrefused')]);
    [|discriminate Hrefused'|discriminate Hrefused|discriminate Hrefused].
  by split.
Defined.

(** X4. The deploy generator raises the [IndexError] of [split()[0]]
    exactly when the selection is not empty, its announcement is
    printed, the selection yields a resource, does not have as many
    names as the catalog has groups, and contains a name that is empty
    or made of white space only, white space being that of
    [str.split()] on the characters of the model. *)
Theorem generate_raises_iff
    (K8S_DIR : string) (performs : effect → bool) (selected_groups : list string) :
  generate_k8s_deploy_script K8S_DIR performs selected_groups = Raised IndexError
  ↔ selected_groups ≠ []
    ∧ performs (Print (LF +:+ "[bold]Generating Kubernetes Deploy Script for: "
                         +:+ join ", " selected_groups +:+ "...[/bold]")) = true
    ∧ ((get_group_resources K8S_DIR selected_groups).1 ≠ []
       ∨ (get_group_resources K8S_DIR selected_groups).2 ≠ [])
    ∧ length selected_groups ≠ length K8S_SERVICE_GROUPS
    ∧ ∃ g, g ∈ selected_groups ∧ lstrip g = "".
Proof.
  rewrite <- script_name_part_none_iff. unfold generate_k8s_deploy_script.
  destruct selected_groups as [|g sel].
  { rewrite perform_IndexError. split; [by intros [_ ?]|by intros [? _]]. }
  rewrite perform_IndexError.
  destruct (get_group_resources K8S_DIR (g :: sel)) as [[|m ms] [|r rs]];
    destruct (script_name_part (g :: sel)) as [part|]; cbv zeta;
    rewrite ?perform_IndexError; simpl;
    intuition (congruence || discriminate).
Qed.

(** X5. The deploy and the destroy generator agree on one selection:
    when the environment refuses no console or file operation of either
    call, both return early, both raise the [IndexError] of a name
    without a word, or both write their files. And whenever both write,
    the four file names share one slug. *)
Theorem generators_agree
    (K8S_DIR : string) (performs : effect → bool)
    (selected_groups : list string) (preserve_pvc : bool) :
  let deployed := generate_k8s_deploy_script K8S_DIR performs selected_groups in
  let destroyed := generate_k8s_destroy_script K8S_DIR performs selected_groups preserve_pvc in
  ((∀ e, deployed ≠ Raised (Failed e)) → (∀ e, destroyed ≠ Raised (Failed e)) →
   match deployed, destroyed with
   | Skipped, Skipped => True
   | Raised IndexError, Raised IndexError => True
   | Written _, Written _ => True
   | _, _ => False
   end)
  ∧ (∀ sd sx,
       deployed = Written sd → destroyed = Written sx →
       ∃ slug, script_name_part selected_groups = Some slug
               ∧ script_filename_sh sd = "deploy_k8s_" +:+ slug +:+ ".sh"
               ∧ script_filename_ps1 sd = "deploy_k8s_" +:+ slug +:+ ".ps1"
               ∧ script_filename_sh sx = "destroy_k8s_" +:+ slug +:+ ".sh"
               ∧ script_filename_ps1 sx = "destroy_k8s_" +:+ slug +:+ ".ps1").
Proof.
  intros deployed destroyed. subst deployed destroyed.
  split; [apply generate_same_outcome|].
  intros sd sx Hd Hx.
  destruct (generate_deploy_written K8S_DIR performs _ _ Hd)
    as (_ & _ & (slug & Hslug & Hd1 & Hd2) & _).
  destruct (generate_destroy_written K8S_DIR performs _ _ _ Hx)
    as (_ & _ & (slug' & Hslug' & Hx1 & Hx2) & _).
  exists slug. rewrite Hslug in Hslug'. injection Hslug' as <-. done.
Qed.

Lemma generators_agree_witness :
  ∃ sd sx,
    generate_k8s_deploy_script "/repo/platform/k8s" always ["Scheduling App"] = Written sd
    ∧ generate_k8s_destroy_script "/repo/platform/k8s" always ["Scheduling App"] true
      = Written sx
    ∧ script_filename_ps1 sd = "deploy_k8s_scheduling.ps1"
    ∧ script_filename_ps1 sx = "destroy_k8s_scheduling.ps1".
Proof.
  destruct (generators_agree "/repo/platform/k8s" always ["Scheduling App"] true)
    as [Hsame Hnames].
  assert (Hd : ∀ e, generate_k8s_deploy_script "/repo/platform/k8s" always
                      ["Scheduling App"] ≠ Raised (Failed e))
    by (intros e; vm_compute; discriminate).
  assert (Hx : ∀ e, generate_k8s_destroy_script "/repo/platform/k8s" always
                      ["Scheduling App"] true ≠ Raised (Failed e))
    by (intros e; vm_compute; discriminate).
  specialize (Hsame Hd Hx). clear Hd Hx.
  destruct (generate_k8s_deploy_script "/repo/platform/k8s" always ["Scheduling App"])
    as [|e|sd] eqn:Ed; [vm_compute in Ed; discriminate..|].
  destruct (generate_k8s_destroy_script "/repo/platform/k8s" always ["Scheduling App"] true)
    as [|e|sx] eqn:Ex; [done..|].
  destruct (Hnames sd sx eq_refl eq_refl) as (slug & Hslug & _ & Hd2 & _ & Hx2).
  vm_compute in Hslug. injection Hslug as <-.
  exists sd, sx. split_and!; [reflexivity|reflexivity|exact Hd2|exact Hx2].
Defined.

(** ** The destroy script as a whole *)

Section DestroyPhases.

Lemma destroy_sh_teardown_commands sel ms rs preserve :
  List.filter is_teardown_command (destroy_sh_writes sel ms rs preserve)
  = [cluster_guard_sh]
    ++ map delete_sh (sorted_reverse (List.filter is_app_or_config ms))
    ++ map helm_delete_sh rs
    ++ map delete_secret_sh (sorted_reverse (List.filter is_secret ms))
    ++ (if preserve then [] else [pvc_delete_cmd]).
Proof.
  unfold destroy_sh_writes. rewrite !List.filter_app.
  rewrite (filter_block is_teardown_command sorted_reverse delete_sh);
    try by_literal_head.
  rewrite (filter_block is_teardown_command sorted_reverse delete_secret_sh);
    try by_literal_head.
  rewrite (filter_block is_teardown_command (λ l, l) helm_delete_sh);
    try by_literal_head.
  assert (List.filter is_teardown_command (pvc_step preserve pvc_preserved_sh)
          = if preserve then [] else [pvc_delete_cmd]) as ->
    by (destruct preserve; by_literal_head).
  assert (List.filter is_teardown_command
            ["echo 'Kubernetes teardown finished.'" +:+ LF] = []) as ->
    by by_literal_head.
  rewrite app_nil_r. cbn [List.filter]. by_literal_head || reflexivity.
Qed.

Lemma destroy_ps1_teardown_commands sel ms rs preserve :
  List.filter is_teardown_command (destroy_ps1_writes sel ms rs preserve)
  = [cluster_guard_ps1]
    ++ map delete_ps1 (sorted_reverse (List.filter is_app_or_config ms))
    ++ map helm_delete_ps1 rs
    ++ map delete_secret_ps1 (sorted_reverse (List.filter is_secret ms))
    ++ (if preserve then [] else [pvc_delete_cmd]).
Proof.
  unfold destroy_ps1_writes. rewrite !List.filter_app.
  rewrite (filter_map_all is_teardown_command delete_ps1) by by_literal_head.
  rewrite (filter_block is_teardown_command sorted_reverse delete_secret_ps1);
    try by_literal_head.
  rewrite (filter_block is_teardown_command (λ l, l) helm_delete_ps1);
    try by_literal_head.
  assert (List.filter is_teardown_command (pvc_step preserve pvc_preserved_ps1)
          = if preserve then [] else [pvc_delete_cmd]) as ->
    by (destruct preserve; by_literal_head).
  assert (List.filter is_teardown_command
            ["Write-Host 'Kubernetes teardown finished.'" +:+ LF] = []) as ->
    by by_literal_head.
  assert (List.filter is_teardown_command [LF] = []) as -> by by_literal_head.
  assert (List.filter is_teardown_command
            ["# --- Deleting Applications and ConfigMaps ---" +:+ LF] = []) as ->
    by by_literal_head.
  rewrite !app_nil_r. cbn [List.filter]. reflexivity.
Qed.

Lemma destroy_sh_last sel ms rs preserve :
  last (destroy_sh_writes sel ms rs preserve) = Some destroy_marker_sh.
Proof. unfold destroy_sh_writes. rewrite !app_assoc. apply last_snoc. Qed.

Lemma destroy_ps1_last sel ms rs preserve :
  last (destroy_ps1_writes sel ms rs preserve) = Some destroy_marker_ps1.
Proof. unfold destroy_ps1_writes. rewrite !app_assoc. apply last_snoc. Qed.

End DestroyPhases.

(** X6. A destroy script that is written runs, in this order: the
    cluster guard; a delete for each selected manifest under [apps/] or
    [config/], in descending order; a removal for every selected release,
    whether the deploy script can install it or not; a guarded delete for
    each selected manifest under [secrets/], in descending order; the
    claim deletion unless the flag preserves the claims. The last chunk
    is the completion marker. This holds for both dialects. *)
Theorem destroy_phase_order
    (K8S_DIR : string) (performs : effect → bool)
    (selected_groups : list string) (preserve_pvc : bool) (s : scripts) :
  generate_k8s_destroy_script K8S_DIR performs selected_groups preserve_pvc = Written s →
  let ms := (get_group_resources K8S_DIR selected_groups).1 in
  let rs := (get_group_resources K8S_DIR selected_groups).2 in
  let first := sorted_reverse (List.filter is_app_or_config ms) in
  let secrets := sorted_reverse (List.filter is_secret ms) in
  let claims := if preserve_pvc then [] else [pvc_delete_cmd] in
  List.filter is_teardown_command (sh_writes s)
  = [cluster_guard_sh] ++ map delete_sh first ++ map helm_delete_sh rs
      ++ map delete_secret_sh secrets ++ claims
  ∧ List.filter is_teardown_command (ps1_writes s)
    = [cluster_guard_ps1] ++ map delete_ps1 first ++ map helm_delete_ps1 rs
        ++ map delete_secret_ps1 secrets ++ claims
  ∧ last (sh_writes s) = Some destroy_marker_sh
  ∧ last (ps1_writes s) = Some destroy_marker_ps1.
Proof.
  intros H ms rs first secrets claims.
  destruct (generate_destroy_written K8S_DIR performs _ _ _ H) as (_ & _ & _ & -> & ->).
  split_and!.
  - apply destroy_sh_teardown_commands.
  - apply destroy_ps1_teardown_commands.
  - apply destroy_sh_last.
  - apply destroy_ps1_last.
Qed.

Lemma destroy_phase_order_witness :
  ∃ s, generate_k8s_destroy_script "/repo/platform/k8s" always ["Core Applications"] false
       = Written s
       ∧ helm_delete_sh "api-gateway" ∈ List.filter is_teardown_command (sh_writes s)
       ∧ last (sh_writes s) = Some destroy_marker_sh.
Proof.
  destruct (generate_k8s_destroy_script "/repo/platform/k8s" always
              ["Core Applications"] false)
    as [| |s] eqn:E; [vm_compute in E; discriminate..|].
  exists s. split; [reflexivity|].
  destruct (destroy_phase_order _ _ _ _ s E) as (Hcmds & _ & Hlast & _).
  split; [|exact Hlast]. rewrite Hcmds.
  apply (bool_decide_unpack _). vm_compute. exact I.
Defined.

(** ** Sensitivity to the place of installation *)

Lemma sorted_sorted_set l : sorted (sorted_set l) = sorted_set l.
Proof.
  apply sorted_set_any_order. unfold sorted_set, sorted.
  apply merge_sort_Permutation.
Qed.

(** X7. The three path classes are tested on the whole path, root
    included: when the manifests root itself contains [apps/], every
    selected manifest counts as an application, so the third phase of the
    deploy script applies all selected manifests, the secrets and
    configuration of the first phase a second time. *)
Theorem apps_in_root_reapplies_everything (K8S_DIR : string) (selected_groups : list string) :
  contains "apps/" K8S_DIR = true →
  let ms := (get_group_resources K8S_DIR selected_groups).1 in
  (∀ m, m ∈ ms → is_app m = true)
  ∧ deploy_apply_sequence ms = sorted (List.filter is_secret_or_config ms) ++ ms.
Proof.
  intros Hroot ms.
  assert (Hall : ∀ m, m ∈ ms → is_app m = true).
  { intros m (g & _ & Hm)%elem_of_resolved_manifests.
    apply list_elem_of_fmap in Hm as (rel & -> & Hrel).
    destruct (os_path_join_relative K8S_DIR rel) as [mid ->];
      [by eapply catalog_manifests_relative|].
    by apply contains_app_l. }
  split; [exact Hall|]. unfold deploy_apply_sequence. f_equal.
  rewrite filter_all by (by apply Forall_forall).
  unfold ms. rewrite get_group_resources_eq. apply sorted_sorted_set.
Qed.

Lemma apps_in_root_reapplies_everything_witness :
  deploy_manifest_order "/home/dev/apps/enginedge-core/platform/k8s" always
    ["Stateful Backend"]
  = [ "/home/dev/apps/enginedge-core/platform/k8s/secrets/minio-secret.yaml";
      "/home/dev/apps/enginedge-core/platform/k8s/secrets/postgres-secret.yaml";
      "/home/dev/apps/enginedge-core/platform/k8s/secrets/minio-secret.yaml";
      "/home/dev/apps/enginedge-core/platform/k8s/secrets/postgres-secret.yaml" ].
Proof.
  assert (Hroot : contains "apps/" "/home/dev/apps/enginedge-core/platform/k8s" = true)
    by reflexivity.
  pose proof (apps_in_root_reapplies_everything _ ["Stateful Backend"] Hroot) as [_ Hseq].
  unfold deploy_manifest_order.
  destruct (generate_k8s_deploy_script _ _ _) as [| |s] eqn:E;
    [vm_compute in E; discriminate..|].
  rewrite Hseq. vm_compute. reflexivity.
Defined.

(** ** Image extraction: composition and errors *)

Section ImageMore.

Import Images.

Lemma scan_documents_app_ok before rest :
  (scan_documents before).2 = false →
  scan_documents (before ++ rest)
  = ((scan_documents before).1 ++ (scan_documents rest).1, (scan_documents rest).2).
Proof.
  induction before as [|doc before IH]; simpl.
  - intros _. by destruct (scan_documents rest).
  - destruct (scan_document doc) as [found raised]. destruct raised; [done|].
    destruct (scan_documents before) as [found' raised'] eqn:Hb. simpl in *.
    intros ->. rewrite IH by done. simpl. by rewrite app_assoc.
Qed.

End ImageMore.

(** X8. Image extraction depends only on which paths are given, and
    composes: the images of two lists of manifests together are the
    sorted, deduplicated union of the images of each list. *)
Theorem extracted_images_union (fs : file_system) (paths paths' : list string) :
  Images._extract_images_from_manifests fs (paths ++ paths')
  = sorted_set (Images._extract_images_from_manifests fs paths
                ++ Images._extract_images_from_manifests fs paths')
  ∧ Images._extract_images_from_manifests fs (paths' ++ paths)
    = Images._extract_images_from_manifests fs (paths ++ paths').
Proof.
  assert (Hidem : ∀ ps, Images._extract_images_from_manifests fs ps
                        = sorted_set (Images._extract_images_from_manifests fs ps)).
  { intros ps. unfold Images._extract_images_from_manifests. by rewrite sorted_set_idemp. }
  split.
  - rewrite (Hidem (paths ++ paths')). apply sorted_set_ext. intros img.
    rewrite elem_of_app, !elem_of_extracted. setoid_rewrite elem_of_app.
    split.
    + intros (Hl & path & [Hp|Hp] & Hin); [left|right]; eauto.
    + intros [(Hl & path & Hp & Hin)|(Hl & path & Hp & Hin)]; eauto 6.
  - rewrite (Hidem (paths' ++ paths)), (Hidem (paths ++ paths')).
    apply sorted_set_ext. intros img. rewrite !elem_of_extracted.
    setoid_rewrite elem_of_app.
    split; intros (Hl & path & [Hp|Hp] & Hin); eauto 6.
Qed.

(** X9. When a document of a manifest makes the scan raise, the images
    collected from the earlier documents, and those collected from that
    document before it raised, are kept; the documents after it are not
    read. *)
Theorem scan_stops_at_failing_document (before rest : list yaml) (bad : yaml) :
  (Images.scan_documents before).2 = false →
  (Images.scan_document bad).2 = true →
  Images.scan_documents (before ++ bad :: rest)
  = ((Images.scan_documents before).1 ++ (Images.scan_document bad).1, true).
Proof.
  intros Hok Hbad. rewrite scan_documents_app_ok by done. simpl.
  destruct (Images.scan_document bad) as [found raised]. simpl in Hbad. by subst.
Qed.

Lemma scan_stops_at_failing_document_witness :
  let workload image :=
    YMap [("kind", YStr "Deployment");
          ("spec", YMap [("template",
                          YMap [("spec", YMap [("containers",
                                                YSeq [YMap [("image", YStr image)]])])])])] in
  let bad := YMap [("kind", YStr "Job"); ("spec", YStr "not a mapping")] in
  Images.scan_documents ([workload "a:latest"] ++ bad :: [workload "b:latest"])
  = (["a:latest"], true).
Proof.
  intros workload bad.
  rewrite (scan_stops_at_failing_document [workload "a:latest"] [workload "b:latest"] bad);
    reflexivity.
Defined.

(** ** Readiness monitor: aggregation *)

Section AggregationFacts.

Import Readiness.

Lemma fold_scan_container_restarts pod_name statuses acc :
  (fold_left (scan_container_status pod_name) statuses acc).1
  = fold_left (λ restarts cs, restarts + restartCount cs) statuses acc.1.
Proof.
  revert acc. induction statuses as [|cs statuses IH]; intros acc; [done|].
  simpl. by rewrite IH.
Qed.

(** The container loop touches one key of the reason dictionary only:
    the name of the pod. *)
Lemma scan_container_other_key pod_name acc cs k :
  k ≠ pod_name → (scan_container_status pod_name acc cs).2 !! k = acc.2 !! k.
Proof.
  intros Hk. unfold scan_container_status. simpl.
  destruct (state_terminated cs) as [t|]; [rewrite lookup_insert_ne by done|];
    (destruct (state_waiting cs) as [w|]; [|done]);
    (destruct (bool_decide _); [done|]); by rewrite lookup_insert_ne.
Qed.

Lemma fold_scan_container_other_key pod_name statuses acc k :
  k ≠ pod_name →
  (fold_left (scan_container_status pod_name) statuses acc).2 !! k = acc.2 !! k.
Proof.
  intros Hk. revert acc. induction statuses as [|cs statuses IH]; intros acc; [done|].
  simpl. rewrite IH. by apply scan_container_other_key.
Qed.

(** What one pod does to the restart dictionary. *)
Lemma scan_pod_restarts maps p k :
  (scan_pod maps p).1 !! k
  = if bool_decide (pod_controller p = Some k)
    then Some (default 0 (maps.1 !! k) + pod_restarts p)
    else maps.1 !! k.
Proof.
  unfold scan_pod, pod_controller, pod_restarts.
  pose proof (fold_scan_container_restarts (metadata_name p) (containerStatuses p)
                (0, maps.2)) as Hr.
  destruct (fold_left (scan_container_status _) _ _) as [restarts reasons].
  simpl in Hr. subst restarts.
  destruct (find_owner (ownerReferences p)) as [[|c o]|]; cbn [fst snd];
    try (by rewrite bool_decide_eq_false_2).
  destruct (decide (owner_prefix_of (String c o) = k)) as [<-|Hne].
  - rewrite (bool_decide_eq_true_2 (Some _ = Some _)) by done.
    destruct (_ && _); cbn [fst snd]; by rewrite lookup_insert_eq.
  - rewrite (bool_decide_eq_false_2 (Some _ = Some _)) by congruence.
    destruct (_ && _); cbn [fst snd]; by rewrite lookup_insert_ne.
Qed.

Lemma fold_scan_pod_restarts pods maps k :
  (fold_left scan_pod pods maps).1 !! k
  = match List.filter (λ p, bool_decide (pod_controller p = Some k)) pods with
    | [] => maps.1 !! k
    | mine => Some (default 0 (maps.1 !! k) + sum_Z (map pod_restarts mine))
    end.
Proof.
  revert maps. induction pods as [|p pods IH]; intros maps; [done|].
  simpl. rewrite IH, scan_pod_restarts.
  case_bool_decide as Hp; simpl.
  - destruct (List.filter _ pods); simpl; [f_equal; unfold sum_Z; simpl; lia|].
    f_equal. unfold sum_Z. simpl. lia.
  - done.
Qed.

(** What one pod does to the reason of another key. *)
Lemma scan_pod_reason_kept maps p k reason :
  metadata_name p ≠ k → maps.2 !! k = Some reason →
  (scan_pod maps p).2 !! k = Some reason.
Proof.
  intros Hname Hk. unfold scan_pod.
  pose proof (fold_scan_container_other_key (metadata_name p) (containerStatuses p)
                (0, maps.2) k (not_eq_sym Hname)) as Hkeep.
  destruct (fold_left (scan_container_status _) _ _) as [restarts reasons].
  simpl in Hkeep. rewrite Hk in Hkeep.
  destruct (find_owner (ownerReferences p)) as [[|c o]|]; simpl; try done.
  destruct (truthy _ && _) eqn:Hcond; simpl; [|done].
  apply andb_true_iff in Hcond as [_ Hnone%bool_decide_eq_true].
  rewrite lookup_insert_ne; [done|]. intros Heq. rewrite Heq in Hnone. congruence.
Qed.

End AggregationFacts.

(** X10. After the pod scan, the restart count recorded under a
    controller name is the sum of the restart counts of all containers
    of all pods attributed to that name, and a name no pod is attributed
    to has no entry. *)
Theorem restarts_aggregate_by_controller (pods : list Readiness.pod) (controller : string) :
  (Readiness.scan_pods (Some pods)).1 !! controller
  = match List.filter
            (λ p, bool_decide (Readiness.pod_controller p = Some controller)) pods with
    | [] => None
    | mine => Some (Readiness.sum_Z (map Readiness.pod_restarts mine))
    end.
Proof.
  unfold Readiness.scan_pods. rewrite fold_scan_pod_restarts. simpl.
  rewrite lookup_empty. simpl. by destruct (List.filter _ pods).
Qed.

(** X11. The reason recorded for a controller is the first one carried
    to it: once a name has a reason, scanning further pods leaves it
    unchanged, provided none of those pods is itself named like the
    controller (pod names and controller names share one dictionary). *)
Theorem owner_reason_first_wins
    (pods : list Readiness.pod) (maps : gmap string Z * gmap string string)
    (controller reason : string) :
  Forall (λ p, Readiness.metadata_name p ≠ controller) pods →
  maps.2 !! controller = Some reason →
  (fold_left Readiness.scan_pod pods maps).2 !! controller = Some reason.
Proof.
  intros Hnames. revert maps.
  induction Hnames as [|p pods Hp _ IH]; intros maps Hk; [done|].
  simpl. apply IH. by apply scan_pod_reason_kept.
Qed.

Lemma owner_reason_first_wins_witness :
  let waiting n why :=
    {| Readiness.metadata_name := n;
       Readiness.containerStatuses :=
         [ {| Readiness.restartCount := 0; Readiness.state_waiting := Some (Some why);
              Readiness.state_terminated := None |} ];
       Readiness.ownerReferences :=
         [ {| Readiness.ref_kind := "ReplicaSet"; Readiness.ref_name := "web-7f9c8" |} ] |} in
  (Readiness.scan_pods
     (Some [waiting "web-7f9c8-a" "CrashLoopBackOff"; waiting "web-7f9c8-b" "ErrImagePull"])).2
    !! "web"
  = Some "CrashLoopBackOff".
Proof.
  intros waiting. unfold Readiness.scan_pods.
  change (fold_left Readiness.scan_pod
            [waiting "web-7f9c8-a" "CrashLoopBackOff"; waiting "web-7f9c8-b" "ErrImagePull"]
            (∅, ∅))
    with (fold_left Readiness.scan_pod [waiting "web-7f9c8-b" "ErrImagePull"]
            (Readiness.scan_pod (∅, ∅) (waiting "web-7f9c8-a" "CrashLoopBackOff"))).
  apply owner_reason_first_wins.
  - repeat constructor. simpl. discriminate.
  - vm_compute. reflexivity.
Defined.

(** A pod of ReplicaSet [llm-worker-7f9c8] leaves [llm-worker] without
    an entry. *)
Lemma hyphenated_controller_gets_no_restarts_witness :
  let pod :=
    {| Readiness.metadata_name := "llm-worker-7f9c8-x";
       Readiness.containerStatuses :=
         [ {| Readiness.restartCount := 5; Readiness.state_waiting := None;
              Readiness.state_terminated := None |} ];
       Readiness.ownerReferences :=
         [ {| Readiness.ref_kind := "ReplicaSet";
              Readiness.ref_name := "llm-worker-7f9c8" |} ] |} in
  (Readiness.scan_pods (Some [pod])).1 !! "llm-worker" = None.
Proof.
  intros pod. apply hyphenated_controller_gets_no_restarts. reflexivity.
Defined.

(** ** Readiness monitor: the table and the loop's result *)

Section LoopMore.

Import Readiness.

#[local] Instance key_le_total : Total key_le.
Proof.
  intros a b. unfold key_le.
  destruct (decide (kind a = kind b)) as [He|Hne].
  - destruct (stdpp.base.total String.le (name a) (name b)); [left|right]; right; split;
      congruence || done.
  - destruct (stdpp.base.total String.le (kind a) (kind b)); [left|right]; left; split;
      congruence || done.
Qed.

Lemma statuses_sorted_by_key statuses : Sorted key_le (merge_sort key_le statuses).
Proof. apply (Sorted_merge_sort _). Qed.

Lemma tick_fold_rows maps l acc :
  rows (fold_left
          (λ acc s,
             {| rows := rows acc ++ [make_row maps s];
                ready_count := if is_ready s then ready_count acc + 1 else ready_count acc;
                total := total acc + 1 |}) l acc)
  = rows acc ++ map (make_row maps) l.
Proof.
  revert acc. induction l as [|s l IH]; intros acc; simpl; [by rewrite app_nil_r|].
  rewrite IH. simpl. by rewrite <- app_assoc.
Qed.

Lemma filter_length_Permutation {A} (f : A → bool) (l l' : list A) :
  l ≡ₚ l' → length (List.filter f l) = length (List.filter f l').
Proof.
  induction 1 as [|x l l' _ IH|x y l|l l' l'' _ IH1 _ IH2]; simpl.
  - done.
  - destruct (f x); simpl; by rewrite IH.
  - by destruct (f x), (f y).
  - by rewrite IH1.
Qed.

(** What the loop returns pins down the iteration it broke in. *)
Lemma polling_loop_sound fuel timeout_seconds world start reason n :
  polling_loop fuel timeout_seconds world start = Some (reason, n) →
  (start ≤ n < start + fuel)%nat
  ∧ exits_at timeout_seconds world n = true
  ∧ (∀ i, (start ≤ i < n)%nat → exits_at timeout_seconds world i = false)
  ∧ reason = reason_at world n.
Proof.
  revert start. induction fuel as [|fuel IH]; intros start; [done|]. simpl.
  unfold exits_at, reason_at in *.
  destruct (converged (world start)) eqn:Hc.
  - intros [= <- <-]. rewrite Hc. split_and!; [lia|lia|done|intros; lia|done].
  - destruct (timed_out timeout_seconds (world start)) eqn:Ht.
    + intros [= <- <-]. rewrite Hc, Ht. split_and!; [lia|lia|done|intros; lia|done].
    + intros (Hn & Hexit & Hfirst & Hreason)%IH. split_and!; [lia|lia|done| |done].
      intros i Hi. destruct (decide (i = start)) as [->|Hne].
      * by rewrite Hc, Ht.
      * apply Hfirst. lia.
Qed.

End LoopMore.

(** X13. One iteration of the monitor shows exactly one row per
    controller, ordered by kind and then by name; [total] counts the
    controllers and [ready_count] the ready ones, so that
    [0 <= ready_count <= total]. *)
Theorem tick_table (statuses : list Readiness.status) (pods_query : option (list Readiness.pod)) :
  let r := Readiness.tick statuses pods_query in
  (∃ ordered,
      ordered ≡ₚ statuses
      ∧ Sorted Readiness.key_le ordered
      ∧ Readiness.rows r
        = map (Readiness.make_row (Readiness.scan_pods pods_query)) ordered)
  ∧ Readiness.total r = Z.of_nat (length statuses)
  ∧ Readiness.ready_count r
    = Z.of_nat (length (List.filter Readiness.is_ready statuses))
  ∧ 0 ≤ Readiness.ready_count r ≤ Readiness.total r.
Proof.
  intros r. unfold r, Readiness.tick.
  pose proof (merge_sort_Permutation Readiness.key_le statuses) as Hperm.
  destruct (tick_fold_counts (Readiness.scan_pods pods_query)
              (merge_sort Readiness.key_le statuses)
              {| Readiness.rows := []; Readiness.ready_count := 0;
                 Readiness.total := 0 |}) as [Ht Hr].
  cbv zeta in Ht, Hr. rewrite Ht, Hr. simpl.
  rewrite (filter_length_Permutation _ _ _ Hperm), Hperm.
  split_and!; try done; try lia.
  - exists (merge_sort Readiness.key_le statuses). split_and!; [done| |].
    + apply statuses_sorted_by_key.
    + by rewrite tick_fold_rows.
  - pose proof (List.filter_length_le Readiness.is_ready statuses). lia.
Qed.

(** X14. When the polling loop returns, the iteration it names is the
    first one, from the start, in which a test succeeded; the reason is
    converged exactly when the convergence test succeeded there; and any
    larger fuel gives the same result. *)
Theorem polling_loop_result
    (fuel : nat) (timeout_seconds : Z) (world : nat → Readiness.observation)
    (reason : Readiness.exit_reason) (n : nat) :
  Readiness.wait_for_readiness fuel timeout_seconds world = Some (reason, n) →
  (n < fuel)%nat
  ∧ (∀ i, (i < n)%nat →
       Readiness.converged (world i) = false
       ∧ Readiness.timed_out timeout_seconds (world i) = false)
  ∧ (reason = Readiness.Converged ↔ Readiness.converged (world n) = true)
  ∧ (reason = Readiness.TimedOut →
       Readiness.timed_out timeout_seconds (world n) = true)
  ∧ (∀ fuel', (fuel ≤ fuel')%nat →
       Readiness.wait_for_readiness fuel' timeout_seconds world = Some (reason, n)).
Proof.
  unfold Readiness.wait_for_readiness.
  intros (Hn & Hexit & Hfirst & ->)%polling_loop_sound.
  unfold Readiness.exits_at, Readiness.reason_at in *.
  split_and!.
  - lia.
  - intros i Hi. apply orb_false_iff, Hfirst. lia.
  - by destruct (Readiness.converged (world n)).
  - destruct (Readiness.converged (world n)); [done|]. by intros _.
  - intros fuel' Hfuel. apply polling_loop_first_exit; [lia|lia| |done].
    intros i Hi. apply Hfirst. lia.
Qed.

Lemma polling_loop_result_witness :
  let web := {| Readiness.item_name := "web"; Readiness.spec_replicas := Some 2;
                Readiness.status_readyReplicas := Some 1 |} in
  let world := λ i : nat,
    {| Readiness.deploy_query := Some [web]; Readiness.statefulset_query := None;
       Readiness.pods_query := None; Readiness.elapsed := inject_Z (Z.of_nat i) |} in
  Readiness.wait_for_readiness 600 3 world = Some (Readiness.TimedOut, 3%nat).
Proof.
  intros web world.
  assert (H : Readiness.wait_for_readiness 4 3 world = Some (Readiness.TimedOut, 3%nat))
    by (vm_compute; reflexivity).
  destruct (polling_loop_result 4 3 world _ _ H) as (_ & _ & _ & _ & Hmore).
  apply Hmore. lia.
Defined.

(** X15. While the cluster shows no controller at all, or shows one
    whose desired replica count is not positive, the loop cannot
    converge: if it returns, it returns timed out, with the elapsed time
    at or past the timeout. *)
Theorem blocked_convergence_times_out
    (fuel : nat) (timeout_seconds : Z) (world : nat → Readiness.observation)
    (reason : Readiness.exit_reason) (n : nat) :
  (∀ i, let statuses :=
          Readiness.load_statuses (Readiness.deploy_query (world i))
            (Readiness.statefulset_query (world i)) in
        statuses = [] ∨ ∃ s, s ∈ statuses ∧ Readiness.replicas s ≤ 0) →
  Readiness.wait_for_readiness fuel timeout_seconds world = Some (reason, n) →
  reason = Readiness.TimedOut
  ∧ (inject_Z timeout_seconds <= Readiness.elapsed (world n))%Q.
Proof.
  intros Hblocked Hrun.
  assert (Hnot : ∀ i, Readiness.converged (world i) = false).
  { intros i. destruct (Readiness.converged (world i)) eqn:Hc; [|done].
    apply converged_iff in Hc as [Hne Hall]. destruct (Hblocked i) as [?|(s & Hs & Hrep)];
      [done|]. rewrite Forall_forall in Hall. specialize (Hall s Hs). lia. }
  unfold Readiness.wait_for_readiness in Hrun.
  apply polling_loop_sound in Hrun as (_ & Hexit & _ & ->).
  unfold Readiness.exits_at, Readiness.reason_at, Readiness.timed_out in *.
  rewrite Hnot in *. simpl in Hexit. split; [done|]. by apply Qle_bool_iff.
Qed.

Lemma blocked_convergence_times_out_witness :
  let stopped := {| Readiness.item_name := "llm-worker"; Readiness.spec_replicas := Some 0;
                    Readiness.status_readyReplicas := None |} in
  let world := λ i : nat,
    {| Readiness.deploy_query := Some [stopped]; Readiness.statefulset_query := Some [];
       Readiness.pods_query := Some []; Readiness.elapsed := inject_Z (Z.of_nat i) |} in
  Readiness.wait_for_readiness 10 2 world = Some (Readiness.TimedOut, 2%nat).
Proof.
  intros stopped world.
  destruct (Readiness.wait_for_readiness 10 2 world) as [[reason n]|] eqn:Hrun;
    [|vm_compute in Hrun; discriminate].
  assert (Hblocked : ∀ i, let statuses :=
            Readiness.load_statuses (Readiness.deploy_query (world i))
              (Readiness.statefulset_query (world i)) in
            statuses = [] ∨ ∃ s, s ∈ statuses ∧ Readiness.replicas s ≤ 0).
  { intros i. right. eexists. split; [apply list_elem_of_here|]. simpl. lia. }
  destruct (blocked_convergence_times_out 10 2 world reason n Hblocked Hrun) as [-> _].
  vm_compute in Hrun. injection Hrun as <-. reflexivity.
Defined.

(** ** Build contexts *)

Section BuildContextFacts.

Import BuildContext.

Variable REPO_ROOT : string.
Variable isdir : string → bool.
Variable isfile : string → bool.

Lemma first_context_Some cands ctx :
  first_context isdir isfile cands = Some ctx →
  has_dockerfile isdir isfile ctx = true
  ∧ ∃ before after, cands = before ++ ctx :: after
                    ∧ Forall (λ c, has_dockerfile isdir isfile c = false) before.
Proof.
  induction cands as [|cand cands IH]; [done|]. simpl.
  destruct (has_dockerfile isdir isfile cand) eqn:Hc.
  - intros [= <-]. split; [done|]. by exists [], cands.
  - intros (Hctx & before & after & -> & Hbefore)%IH. split; [done|].
    exists (cand :: before), after. split; [done|]. by constructor.
Qed.

Lemma first_context_None cands :
  first_context isdir isfile cands = None
  ↔ Forall (λ c, has_dockerfile isdir isfile c = false) cands.
Proof.
  induction cands as [|cand cands IH]; simpl; [by split; [constructor|]|].
  destruct (has_dockerfile isdir isfile cand) eqn:Hc.
  - split; [done|]. intros [? _]%Forall_cons. congruence.
  - rewrite IH, Forall_cons. tauto.
Qed.

Lemma first_context_app l1 l2 :
  first_context isdir isfile (l1 ++ l2)
  = match first_context isdir isfile l1 with
    | Some ctx => Some ctx
    | None => first_context isdir isfile l2
    end.
Proof.
  induction l1 as [|c l1 IH]; [done|]. simpl.
  by destruct (has_dockerfile isdir isfile c).
Qed.

Lemma first_context_found l c :
  c ∈ l → has_dockerfile isdir isfile c = true →
  ∃ c', c' ∈ l ∧ first_context isdir isfile l = Some c'.
Proof.
  induction l as [|x l IH]; [by intros ?%elem_of_nil|].
  intros [->|Hin]%elem_of_cons Hc; simpl.
  - rewrite Hc. exists x. split; [apply list_elem_of_here|done].
  - destruct (has_dockerfile isdir isfile x).
    + exists x. split; [apply list_elem_of_here|done].
    + destruct (IH Hin Hc) as (c' & Hc' & Hfound). exists c'.
      split; [by apply list_elem_of_further|done].
Qed.

(** The candidates of an image name that is not an absolute path are
    relative. *)
Lemma candidates_relative image_name d :
  startswith "/" image_name = false →
  d ∈ candidates image_name → startswith "/" d = false.
Proof.
  intros Himg. unfold candidates.
  assert (Hbase : startswith "/" (split_first ":" image_name) = false).
  { destruct image_name as [|c rest]; [done|]. simpl in *.
    destruct (decide (c = ":"%char)); [done|]. simpl.
    by destruct (decide ("/"%char = c)). }
  assert (Hrepl : startswith "/" (replace_char "-" "_" (split_first ":" image_name)) = false).
  { destruct (split_first ":" image_name) as [|c rest]; [done|]. simpl in *.
    destruct (decide ("/"%char = c)) as [<-|Hc]; [done|].
    destruct (decide (c = "-"%char)) as [->|]; [done|]. by rewrite decide_False. }
  assert (Hspecial : Forall (λ entry, startswith "/" entry.2 = false) special)
    by (repeat constructor).
  destruct (dict_get special (split_first ":" image_name)) as [dir|] eqn:Hd.
  - apply dict_get_elem in Hd. rewrite Forall_forall in Hspecial.
    specialize (Hspecial _ Hd). simpl in Hspecial.
    rewrite !elem_of_cons, elem_of_nil. intros [->|[->|[->|[]]]]; done.
  - rewrite !elem_of_cons, elem_of_nil. intros [->|[->|[]]]; done.
Qed.

End BuildContextFacts.

(** X16. A build context that is found holds a Dockerfile. It is either
    the fixed [hexagon] directory of the repository, or the first of the
    candidate directories, in their order, that is a directory holding a
    Dockerfile. *)
Theorem build_context_sound
    (REPO_ROOT : string) (isdir isfile : string → bool) (image_name ctx : string) :
  BuildContext._find_build_context_for_image REPO_ROOT isdir isfile image_name = Some ctx →
  isfile (os_path_join ctx "Dockerfile") = true
  ∧ (ctx = os_path_join REPO_ROOT "hexagon"
     ∨ isdir ctx = true
       ∧ ∃ before after,
           BuildContext._candidate_build_dirs_for_image REPO_ROOT image_name
           = before ++ ctx :: after
           ∧ Forall (λ c, BuildContext.has_dockerfile isdir isfile c = false) before).
Proof.
  unfold BuildContext._find_build_context_for_image.
  assert (Hdefault :
    BuildContext.first_context isdir isfile
      (BuildContext._candidate_build_dirs_for_image REPO_ROOT image_name) = Some ctx →
    isfile (os_path_join ctx "Dockerfile") = true
    ∧ (ctx = os_path_join REPO_ROOT "hexagon"
       ∨ isdir ctx = true
         ∧ ∃ before after,
             BuildContext._candidate_build_dirs_for_image REPO_ROOT image_name
             = before ++ ctx :: after
             ∧ Forall (λ c, BuildContext.has_dockerfile isdir isfile c = false) before)).
  { intros (Hctx & Hsplit)%first_context_Some.
    unfold BuildContext.has_dockerfile in Hctx. apply andb_true_iff in Hctx as [Hd Hf].
    split; [done|]. right. split; done. }
  destruct (_ || _); [|exact Hdefault].
  destruct (isfile (os_path_join (os_path_join REPO_ROOT "hexagon") "Dockerfile")) eqn:Hf;
    [|exact Hdefault].
  intros [= <-]. split; [done|by left].
Qed.

Lemma build_context_sound_witness :
  let isdir := λ d : string, bool_decide (d = "/w/enginedge-workers/llm-worker") in
  let isfile := λ f : string, bool_decide (f = "/w/enginedge-workers/llm-worker/Dockerfile") in
  BuildContext._find_build_context_for_image "/w/enginedge-core" isdir isfile
    "llm-worker:latest" = Some "/w/enginedge-workers/llm-worker"
  ∧ isfile (os_path_join "/w/enginedge-workers/llm-worker" "Dockerfile") = true.
Proof.
  intros isdir isfile.
  assert (H : BuildContext._find_build_context_for_image "/w/enginedge-core" isdir isfile
                "llm-worker:latest" = Some "/w/enginedge-workers/llm-worker")
    by (vm_compute; reflexivity).
  split; [exact H|]. exact (proj1 (build_context_sound _ _ _ _ _ H)).
Defined.

(** X17. No build context is found exactly when the fixed [hexagon]
    directory does not apply (the image name starts with neither
    [hexagon] nor [core], or that directory has no Dockerfile) and no
    candidate directory is a directory holding a Dockerfile. *)
Theorem build_context_none_iff
    (REPO_ROOT : string) (isdir isfile : string → bool) (image_name : string) :
  BuildContext._find_build_context_for_image REPO_ROOT isdir isfile image_name = None
  ↔ (startswith "hexagon" image_name || startswith "core" image_name = true →
     isfile (os_path_join (os_path_join REPO_ROOT "hexagon") "Dockerfile") = false)
    ∧ Forall (λ c, BuildContext.has_dockerfile isdir isfile c = false)
        (BuildContext._candidate_build_dirs_for_image REPO_ROOT image_name).
Proof.
  unfold BuildContext._find_build_context_for_image.
  rewrite <- first_context_None.
  destruct (_ || _).
  - destruct (isfile _) eqn:Hf.
    + split; [done|]. intros [H _]. by specialize (H eq_refl).
    + split; [by intros ->|by intros [_ ?]].
  - split; [by intros ->|by intros [_ ?]].
Qed.

(** X18. The repository itself has priority over its sibling
    repositories: for an image name that is not an absolute path, when a
    candidate directory under [REPO_ROOT] holds a Dockerfile, the
    context found is [REPO_ROOT] joined with a relative name, so its
    path starts with [REPO_ROOT], whatever the sibling repositories
    contain. *)
Theorem build_context_prefers_repo_root
    (REPO_ROOT : string) (isdir isfile : string → bool) (image_name c : string) :
  startswith "/" image_name = false →
  c ∈ BuildContext.candidates image_name →
  BuildContext.has_dockerfile isdir isfile (os_path_join REPO_ROOT c) = true →
  ∃ ctx d, BuildContext._find_build_context_for_image REPO_ROOT isdir isfile image_name
           = Some ctx
           ∧ ctx = os_path_join REPO_ROOT d
           ∧ (d = "hexagon" ∨ d ∈ BuildContext.candidates image_name)
           ∧ startswith "/" d = false
           ∧ startswith REPO_ROOT ctx = true.
Proof.
  intros Himg Hc Hdocker. unfold BuildContext._find_build_context_for_image.
  assert (Hunder : ∀ d, startswith "/" d = false →
            startswith REPO_ROOT (os_path_join REPO_ROOT d) = true).
  { intros d Hd. destruct (os_path_join_relative REPO_ROOT d Hd) as [mid ->].
    apply startswith_app. }
  assert (Hdefault : ∃ ctx d,
    BuildContext.first_context isdir isfile
      (BuildContext._candidate_build_dirs_for_image REPO_ROOT image_name) = Some ctx
    ∧ ctx = os_path_join REPO_ROOT d
    ∧ (d = "hexagon" ∨ d ∈ BuildContext.candidates image_name)
    ∧ startswith "/" d = false
    ∧ startswith REPO_ROOT ctx = true).
  { unfold BuildContext._candidate_build_dirs_for_image. rewrite first_context_app.
    destruct (first_context_found isdir isfile
                (map (os_path_join REPO_ROOT) (BuildContext.candidates image_name))
                (os_path_join REPO_ROOT c)) as (c' & Hc' & ->); [|done|].
    - apply list_elem_of_fmap. eauto.
    - apply list_elem_of_fmap in Hc' as (d & -> & Hd).
      pose proof (candidates_relative image_name d Himg Hd) as Hrel.
      exists (os_path_join REPO_ROOT d), d. split_and!; auto. }
  destruct (_ || _); [|exact Hdefault].
  destruct (isfile _); [|exact Hdefault].
  exists (os_path_join REPO_ROOT "hexagon"), "hexagon". split_and!; auto.
Qed.

Lemma build_context_prefers_repo_root_witness :
  let isdir := λ d : string, true in
  let isfile := λ f : string, true in
  ∃ ctx, BuildContext._find_build_context_for_image "/w/enginedge-core" isdir isfile
           "news-ingestion-job:latest" = Some ctx
         ∧ ctx = "/w/enginedge-core/scripts/jobs"
         ∧ startswith "/w/enginedge-core" ctx = true.
Proof.
  intros isdir isfile.
  destruct (build_context_prefers_repo_root "/w/enginedge-core" isdir isfile
              "news-ingestion-job:latest" "news-ingestion-job") as (ctx & d & H & _ & _ & _ & Hu).
  - reflexivity.
  - apply (bool_decide_unpack _). vm_compute. exact I.
  - reflexivity.
  - exists ctx. split_and!; [exact H| |exact Hu].
    vm_compute in H. by injection H as <-.
Defined.

(** ** Image build and load pipeline *)

Section PipelineFacts.

Import Pipeline.

Variable REPO_ROOT : string.
Variable isdir : string → bool.
Variable isfile : string → bool.
Variable kind_available : bool.
Variable WOLFRAM_DOWNLOAD_URL : string.
Variable succeeds : nat → bool.

Let step := build_one REPO_ROOT isdir isfile kind_available WOLFRAM_DOWNLOAD_URL succeeds.
Let find := BuildContext._find_build_context_for_image REPO_ROOT isdir isfile.

(** What a command is allowed to be for [image]: one of its steps, and
    no [kind] command when [kind] is not installed. *)
Let allowed (image : string) (cmd : list string) : Prop :=
  is_step_for REPO_ROOT isdir isfile image cmd
  ∧ (kind_available = false → head cmd ≠ Some "kind").

Lemma wolfram_build_cmd_shape tag :
  ∃ args, wolfram_build_cmd WOLFRAM_DOWNLOAD_URL tag = ["docker"; "build"; "-t"; tag] ++ args.
Proof.
  unfold wolfram_build_cmd. destruct (strip WOLFRAM_DOWNLOAD_URL); [by exists []|].
  by eexists [_; _].
Qed.

Lemma build_then_load_appends image args ctx trace :
  find image = Some ctx →
  ∃ new, build_then_load kind_available succeeds image
           (["docker"; "build"; "-t"; image] ++ args) ctx trace = trace ++ new
         ∧ Forall (allowed image) new
         ∧ (["docker"; "build"; "-t"; image] ++ args) ++ [ctx] ∈ new.
Proof.
  intros Hctx.
  assert (Hbuild : allowed image ((["docker"; "build"; "-t"; image] ++ args) ++ [ctx])).
  { split; [|done]. right. right. exists ctx, args. split; [done|].
    by rewrite <- app_assoc. }
  assert (Hload : kind_available = true → allowed image (kind_load image)).
  { intros Hk. split; [right; by left|]. by rewrite Hk. }
  unfold build_then_load, run. simpl.
  destruct (succeeds (length trace)).
  - destruct kind_available eqn:Hk; simpl.
    + eexists [_; _]. rewrite <- app_assoc. split_and!; [done| |apply list_elem_of_here].
      apply Forall_cons. split; [exact Hbuild|].
      apply Forall_cons. split; [by apply Hload|constructor].
    + eexists [_]. split_and!; [done| |apply list_elem_of_here].
      apply Forall_cons. split; [exact Hbuild|constructor].
  - eexists [_]. split_and!; [done| |apply list_elem_of_here].
    apply Forall_cons. split; [exact Hbuild|constructor].
Qed.

(** The loop body only appends, and only commands allowed for its image. *)
Lemma build_one_appends trace image :
  ∃ new, step trace image = trace ++ new ∧ Forall (allowed image) new.
Proof.
  unfold step, build_one.
  destruct (BuildContext._find_build_context_for_image REPO_ROOT isdir isfile image)
    as [[|c rest]|] eqn:Hctx;
    try (exists []; by rewrite app_nil_r).
  assert (Hplain : ∃ new,
    build_then_load kind_available succeeds image ["docker"; "build"; "-t"; image]
      (String c rest) trace = trace ++ new ∧ Forall (allowed image) new).
  { destruct (build_then_load_appends image [] (String c rest) trace Hctx)
      as (new & Hnew & Hall & _). eauto. }
  assert (Hwolfram : ∀ trace', ∃ new,
    build_then_load kind_available succeeds image
      (wolfram_build_cmd WOLFRAM_DOWNLOAD_URL image) (String c rest) trace' = trace' ++ new
    ∧ Forall (allowed image) new).
  { intros trace'. destruct (wolfram_build_cmd_shape image) as [args ->].
    destruct (build_then_load_appends image args (String c rest) trace' Hctx)
      as (new & Hnew & Hall & _). eauto. }
  assert (Hinspect : allowed image (docker_inspect image)) by (split; [by left|done]).
  assert (Hload : kind_available = true → allowed image (kind_load image)).
  { intros Hk. split; [right; by left|]. by rewrite Hk. }
  destruct (_ && _); [exact Hplain|].
  destruct (bool_decide _); [|exact Hplain].
  unfold run. simpl. destruct (succeeds (length trace)).
  - destruct kind_available eqn:Hk.
    + destruct (succeeds (length (trace ++ [docker_inspect image]))).
      * eexists [_; _]. rewrite <- app_assoc. split; [done|].
        apply Forall_cons. split; [exact Hinspect|].
        apply Forall_cons. split; [by apply Hload|constructor].
      * destruct (Hwolfram ((trace ++ [docker_inspect image]) ++ [kind_load image]))
          as (new & -> & Hall).
        exists ([docker_inspect image; kind_load image] ++ new).
        rewrite <- !app_assoc. split; [done|].
        apply Forall_app. split; [|done].
        apply Forall_cons. split; [exact Hinspect|].
        apply Forall_cons. split; [by apply Hload|constructor].
    + exists [docker_inspect image]. split; [done|].
      apply Forall_cons. split; [exact Hinspect|constructor].
  - destruct (Hwolfram (trace ++ [docker_inspect image])) as (new & -> & Hall).
    exists (docker_inspect image :: new). rewrite <- app_assoc. split; [done|].
    by constructor.
Qed.

Lemma fold_build_one_appends images trace :
  ∃ new, fold_left step images trace = trace ++ new
         ∧ Forall (λ cmd, ∃ image, image ∈ images ∧ allowed image cmd) new.
Proof.
  revert trace. induction images as [|image images IH]; intros trace.
  - exists []. by rewrite app_nil_r.
  - simpl. destruct (build_one_appends trace image) as (new1 & -> & H1).
    destruct (IH (trace ++ new1)) as (new2 & -> & H2).
    exists (new1 ++ new2). rewrite <- app_assoc. split; [done|].
    apply Forall_app. split.
    + eapply Forall_impl; [exact H1|]. intros cmd Hcmd. exists image.
      split; [apply list_elem_of_here|done].
    + eapply Forall_impl; [exact H2|]. intros cmd (image' & Hin & Hcmd).
      exists image'. split; [by apply list_elem_of_further|done].
Qed.

(** An image with a context other than [local-kernel] is built. *)
Lemma build_one_builds trace image ctx :
  find image = Some ctx → ctx ≠ "" → BuildContext.basename ctx ≠ "local-kernel" →
  ["docker"; "build"; "-t"; image; ctx] ∈ step trace image.
Proof.
  intros Hctx Hne Hbase. unfold step, build_one. unfold find in Hctx. rewrite Hctx.
  destruct ctx as [|c rest]; [done|].
  destruct (build_then_load_appends image [] (String c rest) trace Hctx)
    as (new & Hnew & _ & Hin).
  simpl in Hnew, Hin.
  rewrite (bool_decide_eq_false_2 (_ = "local-kernel")) by done.
  destruct (_ && _); rewrite Hnew; apply elem_of_app; by right.
Qed.

Lemma fold_build_one_keeps images trace cmd :
  cmd ∈ trace → cmd ∈ fold_left step images trace.
Proof.
  intros Hin. destruct (fold_build_one_appends images trace) as (new & -> & _).
  apply elem_of_app. by left.
Qed.

Lemma fold_build_one_builds images trace image ctx :
  image ∈ images →
  find image = Some ctx → ctx ≠ "" → BuildContext.basename ctx ≠ "local-kernel" →
  ["docker"; "build"; "-t"; image; ctx] ∈ fold_left step images trace.
Proof.
  intros Hin Hctx Hne Hbase. revert trace.
  induction images as [|x images IH]; intros trace; [by apply elem_of_nil in Hin|].
  simpl. apply elem_of_cons in Hin as [<-|Hin].
  - apply fold_build_one_keeps. by apply build_one_builds.
  - by apply IH.
Qed.

End PipelineFacts.

(** X19. Every command the pipeline runs concerns one of the images
    extracted for the selection: it inspects that image, loads it, or
    builds it, tagged with the image name, in the context resolved for
    it; an image without a context is never built, and without [kind]
    installed no [kind] command is run. *)
Theorem pipeline_commands_sound
    (REPO_ROOT : string) (isdir isfile : string → bool) (kind_available : bool)
    (WOLFRAM_DOWNLOAD_URL : string) (succeeds : nat → bool)
    (docker_available : bool) (fs : file_system) (selected_groups : list string)
    (cmd : list string) :
  cmd ∈ Pipeline._build_and_load_kind_images REPO_ROOT isdir isfile kind_available
          WOLFRAM_DOWNLOAD_URL succeeds docker_available fs selected_groups →
  docker_available = true
  ∧ ∃ image,
      image ∈ Pipeline.images_to_build REPO_ROOT fs selected_groups
      ∧ Pipeline.is_step_for REPO_ROOT isdir isfile image cmd
      ∧ (kind_available = false → head cmd ≠ Some "kind").
Proof.
  unfold Pipeline._build_and_load_kind_images.
  destruct docker_available; [|by intros ?%elem_of_nil].
  intros Hin. split; [done|].
  destruct (fold_build_one_appends REPO_ROOT isdir isfile kind_available
              WOLFRAM_DOWNLOAD_URL succeeds
              (Pipeline.images_to_build REPO_ROOT fs selected_groups) [])
    as (new & Heq & Hall).
  cbv zeta in Heq, Hall. rewrite Heq in Hin. simpl in Hin.
  rewrite Forall_forall in Hall. destruct (Hall cmd Hin) as (image & Himg & Hstep & Hkind).
  eauto.
Qed.

(** X20. The outcome of one image does not stop the others: whatever
    commands fail, every extracted image whose resolved context is not
    the [local-kernel] directory gets its [docker build] command. *)
Theorem pipeline_builds_every_context
    (REPO_ROOT : string) (isdir isfile : string → bool) (kind_available : bool)
    (WOLFRAM_DOWNLOAD_URL : string) (succeeds : nat → bool)
    (fs : file_system) (selected_groups : list string) (image ctx : string) :
  image ∈ Pipeline.images_to_build REPO_ROOT fs selected_groups →
  BuildContext._find_build_context_for_image REPO_ROOT isdir isfile image = Some ctx →
  ctx ≠ "" →
  BuildContext.basename ctx ≠ "local-kernel" →
  ["docker"; "build"; "-t"; image; ctx]
  ∈ Pipeline._build_and_load_kind_images REPO_ROOT isdir isfile kind_available
      WOLFRAM_DOWNLOAD_URL succeeds true fs selected_groups.
Proof.
  intros Hin Hctx Hne Hbase. unfold Pipeline._build_and_load_kind_images.
  by apply (fold_build_one_builds REPO_ROOT isdir isfile kind_available
              WOLFRAM_DOWNLOAD_URL succeeds _ [] image ctx).
Qed.

Lemma pipeline_builds_every_context_witness :
  let workload :=
    YMap [("kind", YStr "Deployment");
          ("spec", YMap [("template",
                          YMap [("spec", YMap [("containers",
                                                YSeq [YMap [("image", YStr "llm-worker:latest")]])])])])] in
  let fs : file_system :=
    λ path, if decide (path = "/w/enginedge-core/platform/k8s/apps/llm-worker.yaml")
            then Some {| documents := [workload]; load_error := false |} else None in
  let isdir := λ d : string, bool_decide (d = "/w/enginedge-workers/llm-worker") in
  let isfile := λ f : string, bool_decide (f = "/w/enginedge-workers/llm-worker/Dockerfile") in
  ["docker"; "build"; "-t"; "llm-worker:latest"; "/w/enginedge-workers/llm-worker"]
  ∈ Pipeline._build_and_load_kind_images "/w/enginedge-core" isdir isfile true ""
      (λ _, false) true fs ["Core Applications"].
Proof.
  intros workload fs isdir isfile.
  apply pipeline_builds_every_context.
  - apply (bool_decide_unpack _). vm_compute. exact I.
  - vm_compute. reflexivity.
  - discriminate.
  - vm_compute. discriminate.
Defined.

Lemma pipeline_commands_sound_witness :
  let workload :=
    YMap [("kind", YStr "Deployment");
          ("spec", YMap [("template",
                          YMap [("spec", YMap [("containers",
                                                YSeq [YMap [("image", YStr "llm-worker:latest")]])])])])] in
  let fs : file_system :=
    λ path, if decide (path = "/w/enginedge-core/platform/k8s/apps/llm-worker.yaml")
            then Some {| documents := [workload]; load_error := false |} else None in
  let isdir := λ d : string, bool_decide (d = "/w/enginedge-workers/llm-worker") in
  let isfile := λ f : string, bool_decide (f = "/w/enginedge-workers/llm-worker/Dockerfile") in
  ∃ image,
    image ∈ Pipeline.images_to_build "/w/enginedge-core" fs ["Core Applications"]
    ∧ Pipeline.is_step_for "/w/enginedge-core" isdir isfile image
        ["kind"; "load"; "docker-image"; "llm-worker:latest"; "--name"; "enginedge"].
Proof.
  intros workload fs isdir isfile.
  assert (Hin : ["kind"; "load"; "docker-image"; "llm-worker:latest"; "--name"; "enginedge"]
                ∈ Pipeline._build_and_load_kind_images "/w/enginedge-core" isdir isfile
                    true "" (λ _, true) true fs ["Core Applications"]).
  { apply (bool_decide_unpack _). vm_compute. exact I. }
  destruct (pipeline_commands_sound _ _ _ _ _ _ _ _ _ _ Hin)
    as (_ & image & Himg & Hstep & _).
  eauto.
Defined.

(** ** Environment files *)

Section EnvFacts.

Import EnvFile.

Lemma load_lines_preserves lines environ k v :
  environ !! k = Some v → load_lines environ lines !! k = Some v.
Proof.
  revert environ. induction lines as [|line lines IH]; intros environ Hk; [done|].
  simpl. destruct (parse_line line) as [[key value]|]; [|by apply IH].
  destruct (_ && _) eqn:Hcond; [|by apply IH].
  destruct (_ || _); [done|]. apply IH.
  apply andb_true_iff in Hcond as [_ Hnone%bool_decide_eq_true].
  rewrite lookup_insert_ne; [done|]. intros ->. congruence.
Qed.

Lemma load_lines_sound lines environ k v :
  load_lines environ lines !! k = Some v →
  environ !! k = Some v
  ∨ ∃ line, line ∈ lines ∧ parse_line line = Some (k, v) ∧ k ≠ "" ∧ v ≠ "".
Proof.
  revert environ. induction lines as [|line lines IH]; intros environ; [by left|].
  simpl.
  assert (Hrest : load_lines environ lines !! k = Some v →
    environ !! k = Some v
    ∨ ∃ l, l ∈ line :: lines ∧ parse_line l = Some (k, v) ∧ k ≠ "" ∧ v ≠ "").
  { intros [?|(l & Hl & ?)]%IH; [by left|right]. exists l.
    split; [by apply list_elem_of_further|done]. }
  destruct (parse_line line) as [[key value]|] eqn:Hparse; [|exact Hrest].
  destruct (_ && _) eqn:Hcond; [|exact Hrest].
  destruct (_ || _); [by left|].
  apply andb_true_iff in Hcond as [[Hkey Hvalue]%andb_true_iff _].
  apply negb_true_iff, bool_decide_eq_false in Hkey, Hvalue.
  intros [Hk|(l & Hl & ?)]%IH.
  - destruct (decide (key = k)) as [->|Hne].
    + rewrite lookup_insert_eq in Hk. injection Hk as ->. right. exists line.
      split; [apply list_elem_of_here|done].
    + rewrite lookup_insert_ne in Hk by done. by left.
  - right. exists l. split; [by apply list_elem_of_further|done].
Qed.

End EnvFacts.

(** X21. Loading the environment files never changes a variable that is
    already set, and a variable set from [.env.local] is not changed by
    [.env]. *)
Theorem env_files_never_override
    (REPO_ROOT : string) (read : string → option (list string))
    (environ : gmap string string) (k v : string) :
  environ !! k = Some v
  ∨ EnvFile.load_file REPO_ROOT read environ ".env.local" !! k = Some v →
  EnvFile._load_env_file_if_present REPO_ROOT read environ !! k = Some v.
Proof.
  assert (Hfile : ∀ env filename,
            env !! k = Some v → EnvFile.load_file REPO_ROOT read env filename !! k = Some v).
  { intros env filename Hk. unfold EnvFile.load_file.
    destruct (read _); [by apply load_lines_preserves|done]. }
  unfold EnvFile._load_env_file_if_present. simpl.
  intros [Hk|Hk]; apply Hfile; [by apply Hfile|done].
Qed.

Lemma env_files_never_override_witness :
  let read := λ path : string,
    if decide (path = "/repo/.env.local") then Some ["WOLFRAM_DOWNLOAD_URL=http://local"]
    else if decide (path = "/repo/.env")
         then Some ["# defaults"; "WOLFRAM_DOWNLOAD_URL = 'http://default'"; "MODE=dev"]
         else None in
  EnvFile._load_env_file_if_present "/repo" read {[ "MODE" := "prod" ]} !! "MODE"
  = Some "prod"
  ∧ EnvFile._load_env_file_if_present "/repo" read {[ "MODE" := "prod" ]}
      !! "WOLFRAM_DOWNLOAD_URL"
    = Some "http://local".
Proof.
  intros read. split.
  - apply env_files_never_override. left. vm_compute. reflexivity.
  - apply env_files_never_override. right. vm_compute. reflexivity.
Defined.

(** X22. Every variable the loader adds comes from a line of one of the
    two files that is neither blank nor a comment and contains [=]; its
    name and its value, as parsed from that line, are not empty. *)
Theorem env_files_sound
    (REPO_ROOT : string) (read : string → option (list string))
    (environ : gmap string string) (k v : string) :
  EnvFile._load_env_file_if_present REPO_ROOT read environ !! k = Some v →
  environ !! k = Some v
  ∨ ∃ filename lines line,
      filename ∈ [".env.local"; ".env"]
      ∧ read (os_path_join REPO_ROOT filename) = Some lines
      ∧ line ∈ lines
      ∧ EnvFile.parse_line line = Some (k, v) ∧ k ≠ "" ∧ v ≠ "".
Proof.
  assert (Hfile : ∀ env filename,
            EnvFile.load_file REPO_ROOT read env filename !! k = Some v →
            env !! k = Some v
            ∨ ∃ lines line, read (os_path_join REPO_ROOT filename) = Some lines
                            ∧ line ∈ lines
                            ∧ EnvFile.parse_line line = Some (k, v) ∧ k ≠ "" ∧ v ≠ "").
  { intros env filename. unfold EnvFile.load_file.
    destruct (read _) as [lines|]; [|by left].
    intros [?|(line & ? & ?)]%load_lines_sound; [by left|right]. eauto. }
  unfold EnvFile._load_env_file_if_present. simpl.
  intros [[?|(lines & line & ? & ? & ? & ? & ?)]%Hfile
         |(lines & line & ? & ? & ? & ? & ?)]%Hfile.
  - by left.
  - right. exists ".env.local", lines, line. split_and!; try done.
    apply list_elem_of_here.
  - right. exists ".env", lines, line. split_and!; try done.
    apply list_elem_of_further, list_elem_of_here.
Qed.

Lemma env_files_sound_witness :
  let read := λ path : string,
    if decide (path = "/repo/.env") then Some ["  MODE = 'dev'  "] else None in
  (∅ : gmap string string) !! "MODE" = Some "dev"
  ∨ ∃ filename lines line,
      filename ∈ [".env.local"; ".env"]
      ∧ read (os_path_join "/repo" filename) = Some lines
      ∧ line ∈ lines
      ∧ EnvFile.parse_line line = Some ("MODE", "dev") ∧ "MODE" ≠ "" ∧ "dev" ≠ "".
Proof.
  intros read. apply (env_files_sound "/repo" read ∅). vm_compute. reflexivity.
Defined.

(** ** Refresh, stop and the compose menu *)

Section WorkloadFacts.

Import Workloads.

Lemma stop_step_subset group d : d ∈ stop_step group → d ∈ refresh_step group.
Proof.
  unfold stop_step, refresh_step.
  destruct (contains "Stateful Backend" group), (contains "Core Applications" group),
    (contains "Scheduling App" group); simpl;
    rewrite ?elem_of_cons, ?elem_of_nil; tauto.
Qed.

Lemma hexagon_in_stop_step group :
  "hexagon" ∈ stop_step group ↔ contains "Stateful Backend" group = true.
Proof.
  unfold stop_step.
  destruct (contains "Stateful Backend" group), (contains "Core Applications" group),
    (contains "Scheduling App" group); simpl;
    rewrite ?elem_of_cons, ?elem_of_nil; split; intros H; try done;
    try (by left); repeat (destruct H as [H|H]; try done).
Qed.

Lemma filter_sublist {A} (f : A → bool) (l : list A) : sublist (List.filter f l) l.
Proof.
  induction l as [|x l IH]; simpl; [constructor|].
  destruct (f x); by constructor.
Qed.

Lemma compose_services_listed g svcs s :
  dict_get compose_groups g = Some svcs → s ∈ svcs → s ∈ svc_list.
Proof.
  assert (Hall : Forall (λ entry, Forall (λ s, s ∈ svc_list) entry.2) compose_groups).
  { repeat constructor; apply (bool_decide_unpack _); vm_compute; exact I. }
  intros Hg%dict_get_elem Hs. rewrite Forall_forall in Hall.
  specialize (Hall _ Hg). rewrite Forall_forall in Hall. by apply Hall.
Qed.

Lemma scan_statuses_iff statuses :
  scan_statuses statuses = true ↔ ∃ cs, cs ∈ statuses ∧ is_pull_error cs = true.
Proof.
  induction statuses as [|cs statuses IH]; simpl.
  - split; [done|]. by intros (cs & ?%elem_of_nil & _).
  - destruct (is_pull_error cs) eqn:Hcs.
    + split; [|done]. intros _. exists cs. split; [apply list_elem_of_here|done].
    + rewrite IH. split.
      * intros (cs' & Hin & Hp). exists cs'. split; [by apply list_elem_of_further|done].
      * intros (cs' & [->|Hin]%elem_of_cons & Hp); [congruence|eauto].
Qed.

End WorkloadFacts.

(** X23. Every deployment that the stop action scales down is one that
    the refresh action restarts for the same selection; and the stop
    action scales [hexagon] down exactly when a selected name contains
    [Stateful Backend], not when Core Applications is selected, although
    refresh restarts [hexagon] for Core Applications. *)
Theorem stop_targets_within_refresh (selected_groups : list string) :
  (∀ d, d ∈ Workloads.deployments_to_stop selected_groups →
        d ∈ Workloads.deployments_to_refresh selected_groups)
  ∧ ("hexagon" ∈ Workloads.deployments_to_stop selected_groups
     ↔ ∃ g, g ∈ selected_groups ∧ contains "Stateful Backend" g = true)
  ∧ (∀ g, g ∈ selected_groups → contains "Core Applications" g = true →
          "hexagon" ∈ Workloads.deployments_to_refresh selected_groups).
Proof.
  unfold Workloads.deployments_to_stop, Workloads.deployments_to_refresh.
  split_and!.
  - intros d. rewrite !list_elem_of_In, !in_flat_map.
    intros (g & Hg & Hd). exists g. split; [done|].
    by apply list_elem_of_In, stop_step_subset, list_elem_of_In.
  - rewrite list_elem_of_In, in_flat_map. split.
    + intros (g & Hg & Hd). exists g. split; [by apply list_elem_of_In|].
      by apply hexagon_in_stop_step, list_elem_of_In.
    + intros (g & Hg & Hd). exists g. split; [by apply list_elem_of_In|].
      by apply list_elem_of_In, hexagon_in_stop_step.
  - intros g Hg Hcore. apply list_elem_of_In, in_flat_map. exists g.
    split; [by apply list_elem_of_In|]. apply list_elem_of_In.
    unfold Workloads.refresh_step. rewrite Hcore.
    apply elem_of_app. right. apply elem_of_app. left.
    apply (bool_decide_unpack _). vm_compute. exact I.
Qed.

(** X24. The services preselected in the compose menu are exactly the
    services of the selected groups, each once, in the order of the
    service list. *)
Theorem preselected_services (selected_groups : list string) :
  NoDup (Workloads.preselected selected_groups)
  ∧ sublist (Workloads.preselected selected_groups) Workloads.svc_list
  ∧ ∀ s, s ∈ Workloads.preselected selected_groups
         ↔ ∃ g svcs, g ∈ selected_groups
                     ∧ dict_get Workloads.compose_groups g = Some svcs ∧ s ∈ svcs.
Proof.
  unfold Workloads.preselected. split_and!.
  - apply NoDup_ListNoDup, List.NoDup_filter, NoDup_ListNoDup.
    apply (bool_decide_unpack _). vm_compute. exact I.
  - apply filter_sublist.
  - intros s. rewrite elem_of_filter_bool, bool_decide_eq_true.
    rewrite (list_elem_of_In (flat_map _ _) s), in_flat_map.
    split.
    + intros (_ & g & Hg & Hs). exists g.
      destruct (dict_get Workloads.compose_groups g) as [svcs|] eqn:Hd; simpl in Hs;
        [|done]. exists svcs. split_and!; [by apply list_elem_of_In|done|].
      by apply list_elem_of_In.
    + intros (g & svcs & Hg & Hd & Hs). split; [by eapply compose_services_listed|].
      exists g. split; [by apply list_elem_of_In|]. rewrite Hd. simpl.
      by apply list_elem_of_In.
Qed.

(** X25. The status action offers to build images exactly when some
    container of some pod has a pull error as its reason, the reason of
    a container being its waiting reason or, when that is missing or
    empty, its terminated reason. *)
Theorem needs_images_iff (pods : list Readiness.pod) :
  Workloads.needs_images pods = true
  ↔ ∃ pod cs, pod ∈ pods ∧ cs ∈ Readiness.containerStatuses pod
              ∧ ∃ reason, Workloads.status_reason cs = Some reason
                          ∧ reason ∈ Workloads.pull_errors.
Proof.
  assert (Herr : ∀ cs, Workloads.is_pull_error cs = true
            ↔ ∃ reason, Workloads.status_reason cs = Some reason
                        ∧ reason ∈ Workloads.pull_errors).
  { intros cs. unfold Workloads.is_pull_error.
    destruct (Workloads.status_reason cs) as [reason|].
    - rewrite bool_decide_eq_true. split; [eauto|]. by intros (r & [= <-] & ?).
    - split; [done|]. by intros (r & ? & _). }
  induction pods as [|pod pods IH]; simpl.
  - split; [done|]. by intros (pod & cs & ?%elem_of_nil & _).
  - destruct (Workloads.scan_statuses (Readiness.containerStatuses pod)) eqn:Hscan.
    + split; [|done]. intros _. apply scan_statuses_iff in Hscan as (cs & Hcs & Hp).
      exists pod, cs. split_and!; [apply list_elem_of_here|done|by apply Herr].
    + rewrite IH. split.
      * intros (pod' & cs & Hin & Hrest). exists pod', cs.
        split; [by apply list_elem_of_further|done].
      * intros (pod' & cs & [->|Hin]%elem_of_cons & Hcs & Hreason); [|eauto 6].
        assert (Workloads.scan_statuses (Readiness.containerStatuses pod) = true)
          by (apply scan_statuses_iff; exists cs; split; [done|by apply Herr]).
        congruence.
Qed.
